(** * mini_kconfig: a shallow embedding of [mini_kconfig.py]

    The script keeps its whole state in two class attributes
    ([Symbol.all_symbols], [Menu.main_menu_name]) and in the objects they
    reach; it reports diagnostics with [print] and writes one output file.
    The embedding threads that state explicitly through a small
    state-and-exception monad.  Every [Symbol] object is stored in
    [Symbol.all_symbols] under its own name by [Symbol.__init__], so an
    object reference is represented by the key of the table entry that
    holds the object, and mutating the object is updating that entry. *)

From Stdlib Require Import String Ascii List Bool Arith Lia DecimalString.
Import ListNotations.
Open Scope string_scope.
Open Scope list_scope.

(** ** Python values held in the edge lists

    [depends_on] and [selects] hold names ([str]) after parsing and
    [Symbol] objects or [None] after resolution.  [self.name] is an
    attribute lookup that yields the bound method [Symbol.name]: the
    instance attribute holding the name is [self.symbol]. *)

Inductive pyval : Type :=
| VStr (s : string)           (* a str *)
| VSym (k : string)           (* the Symbol object stored under key k *)
| VNone                       (* None *)
| VMethod (owner : string) (meth : string). (* a bound method of a Symbol *)

(** [==] on these values: two strs compare by content, objects and [None]
    by identity, and a str never equals a method object. *)
Definition py_eq (a b : pyval) : bool :=
  match a, b with
  | VStr s, VStr t => String.eqb s t
  | VSym k, VSym l => String.eqb k l
  | VNone, VNone => true
  | VMethod o m, VMethod p n => String.eqb o p && String.eqb m n
  | _, _ => false
  end.

(** ["%s" % v]; the address inside the [repr] of an object is left out. *)
Definition py_str (v : pyval) : string :=
  match v with
  | VStr s => s
  | VSym _ => "<__main__.Symbol instance>"
  | VNone => "None"
  | VMethod _ m => "<bound method Symbol." ++ m ++ ">"
  end.

(** ["%d" % n] *)
Definition fmt_d (n : nat) : string := NilZero.string_of_uint (Nat.to_uint n).

(** ** Symbol objects *)

Record Symbol : Type := mkSymbol {
  symbol : string;
  selects : list pyval;
  depends_on : list pyval;
  prompt : option string;
  is_selected : bool;
  is_selectable : bool;
  is_default : bool;
  dependants : list pyval;
  type : option string;
  lineno : nat;
  defined_at : string
}.

Definition set_selects (v : list pyval) (s : Symbol) : Symbol :=
  mkSymbol (symbol s) v (depends_on s) (prompt s) (is_selected s)
           (is_selectable s) (is_default s) (dependants s) (type s)
           (lineno s) (defined_at s).

Definition set_depends_on (v : list pyval) (s : Symbol) : Symbol :=
  mkSymbol (symbol s) (selects s) v (prompt s) (is_selected s)
           (is_selectable s) (is_default s) (dependants s) (type s)
           (lineno s) (defined_at s).

Definition set_is_selected (b : bool) (s : Symbol) : Symbol :=
  mkSymbol (symbol s) (selects s) (depends_on s) (prompt s) b
           (is_selectable s) (is_default s) (dependants s) (type s)
           (lineno s) (defined_at s).

Definition set_is_selectable (b : bool) (s : Symbol) : Symbol :=
  mkSymbol (symbol s) (selects s) (depends_on s) (prompt s) (is_selected s)
           b (is_default s) (dependants s) (type s)
           (lineno s) (defined_at s).

Definition set_is_default (b : bool) (s : Symbol) : Symbol :=
  mkSymbol (symbol s) (selects s) (depends_on s) (prompt s) (is_selected s)
           (is_selectable s) b (dependants s) (type s)
           (lineno s) (defined_at s).

Definition set_dependants (v : list pyval) (s : Symbol) : Symbol :=
  mkSymbol (symbol s) (selects s) (depends_on s) (prompt s) (is_selected s)
           (is_selectable s) (is_default s) v (type s)
           (lineno s) (defined_at s).

(** A freshly constructed symbol, as [Symbol.__init__] leaves it. *)
Definition new_symbol (name : string) (line : nat) (file : string) : Symbol :=
  mkSymbol name [] [] None false false false [] None line file.

(** ** The symbol table

    [Symbol.all_symbols] is a dict; the association list gives its keys in
    the order in which the dict iterates over them. *)

Definition table : Type := list (string * Symbol).

Fixpoint lookup (k : string) (t : table) : option Symbol :=
  match t with
  | [] => None
  | (k', s) :: t' => if String.eqb k k' then Some s else lookup k t'
  end.

Fixpoint update (k : string) (f : Symbol -> Symbol) (t : table) : table :=
  match t with
  | [] => []
  | (k', s) :: t' =>
      (k', if String.eqb k k' then f s else s) :: update k f t'
  end.

Definition keys (t : table) : list string := map fst t.

(** ** The state of a run and the monad over it *)

Record World : Type := mkWorld {
  all_symbols : table;              (* Symbol.all_symbols *)
  main_menu_name : string;          (* Menu.main_menu_name *)
  stdout : list string;             (* lines printed so far, oldest first *)
  files : list (string * string)    (* files written, name and content *)
}.

Definition with_symbols (t : table) (w : World) : World :=
  mkWorld t (main_menu_name w) (stdout w) (files w).

Definition with_stdout (o : list string) (w : World) : World :=
  mkWorld (all_symbols w) (main_menu_name w) o (files w).

Definition with_files (f : list (string * string)) (w : World) : World :=
  mkWorld (all_symbols w) (main_menu_name w) (stdout w) f.

(** Exceptions the modelled code can raise.  None of them is caught
    anywhere in the script, so a raised exception ends the run.
    [NoSuchObject] is not a Python exception: it marks a key with no
    entry, which stands for no object of the program. *)
Inductive exn : Type :=
| AttributeError
| IndexError
| RuntimeError      (* maximum recursion depth exceeded *)
| NoSuchObject.

Inductive outcome (A : Type) : Type :=
| Ret (a : A) (w : World)
| Exc (e : exn) (w : World).
Arguments Ret {A} a w.
Arguments Exc {A} e w.

Definition M (A : Type) : Type := World -> outcome A.

Definition ret {A} (a : A) : M A := fun w => Ret a w.
Definition raise {A} (e : exn) : M A := fun w => Exc e w.
Definition bind {A B} (m : M A) (f : A -> M B) : M B :=
  fun w => match m w with
           | Ret a w' => f a w'
           | Exc e w' => Exc e w'
           end.

Notation "x <- m ;; k" := (bind m (fun x => k))
  (at level 61, m at next level, right associativity).
Notation "m ;; k" := (bind m (fun _ => k))
  (at level 61, right associativity).

(** The world an outcome ends in, returned or raised. *)
Definition world_of {A} (o : outcome A) : World :=
  match o with Ret _ w => w | Exc _ w => w end.

Definition returned {A} (o : outcome A) : bool :=
  match o with Ret _ _ => true | Exc _ _ => false end.

(** [for x in l: body(x)] *)
Fixpoint for_each {A} (body : A -> M unit) (l : list A) : M unit :=
  match l with
  | [] => ret tt
  | x :: l' => body x ;; for_each body l'
  end.

(** [print(line)] *)
Definition print (line : string) : M unit :=
  fun w => Ret tt (with_stdout (stdout w ++ [line]) w).

(** Reading the object behind a reference. *)
Definition get_obj (k : string) : M Symbol :=
  fun w => match lookup k (all_symbols w) with
           | Some s => Ret s w
           | None => Exc NoSuchObject w
           end.

(** Mutating the object behind a reference. *)
Definition modify_obj (k : string) (f : Symbol -> Symbol) : M unit :=
  fun w => match lookup k (all_symbols w) with
           | Some _ => Ret tt (with_symbols (update k f (all_symbols w)) w)
           | None => Exc NoSuchObject w
           end.

(** Attribute access and method calls on a value of an edge list: only a
    [Symbol] has the attributes, anything else raises [AttributeError]. *)
Definition as_symbol (v : pyval) : M string :=
  match v with
  | VSym k => ret k
  | _ => raise AttributeError
  end.

(** ** class Symbol *)

(** [Symbol.error]: [print("Error:%s:%d %s" % (self.defined_at, self.lineno, errstr))] *)
Definition error (self : string) (errstr : string) : M unit :=
  me <- get_obj self ;;
  print ("Error:" ++ defined_at me ++ ":" ++ fmt_d (lineno me) ++ " " ++ errstr).

(** [Symbol.get_symbol]: the dict lookup, with [KeyError] caught and
    reported; the [except] branch falls off the end of the function, so
    the call then evaluates to [None].  Only a str can be a key that is
    present: the table is filled by [Symbol.__init__] with names. *)
Definition get_symbol (sym_name : pyval) : M pyval :=
  fun w =>
    match sym_name with
    | VStr n =>
        match lookup n (all_symbols w) with
        | Some _ => Ret (VSym n) w
        | None => (print ("Error: Config '" ++ n ++ "' cannot found") ;; ret VNone) w
        end
    | v => (print ("Error: Config '" ++ py_str v ++ "' cannot found") ;; ret VNone) w
    end.

(** [nd.add_dependant(dep)]: [self.dependants.append(dep)] *)
Definition add_dependant (nd : pyval) (dep : pyval) : M unit :=
  k <- as_symbol nd ;;
  modify_obj k (fun s => set_dependants (dependants s ++ [dep]) s).

(** [Symbol.make_default(self, df = True)] *)
Definition make_default (self : string) (df : bool) : M unit :=
  modify_obj self (set_is_default df).

(** [Symbol.make_selectable(self, sel = True)] on an entry of a list *)
Definition make_selectable (dep : pyval) (sel : bool) : M unit :=
  k <- as_symbol dep ;;
  modify_obj k (set_is_selectable sel).

(** [Symbol.deselect] on an entry of a list *)
Definition deselect (dep : pyval) : M unit :=
  k <- as_symbol dep ;;
  modify_obj k (set_is_selected false).

(** [dep.is_selected] for an entry of a list *)
Definition get_is_selected (dep : pyval) : M bool :=
  k <- as_symbol dep ;;
  s <- get_obj k ;;
  ret (is_selected s).

(** The loop of [resolve_dependencies]; [new_deps] is the local list. *)
Fixpoint resolve_dependencies_loop (self : string) (deps new_deps : list pyval)
  : M (list pyval) :=
  match deps with
  | [] => ret new_deps
  | dep :: rest =>
      (if py_eq dep (VMethod self "name")
       then error self ("config '" ++ py_str (VMethod self "name")
                          ++ "' cannot depends on itself")
       else ret tt) ;;
      nd <- get_symbol dep ;;
      add_dependant nd (VSym self) ;;
      resolve_dependencies_loop self rest (new_deps ++ [nd])
  end.

Definition resolve_dependencies (self : string) : M unit :=
  me <- get_obj self ;;
  new_deps <- resolve_dependencies_loop self (depends_on me) [] ;;
  modify_obj self (set_depends_on new_deps).

Fixpoint resolve_selects_loop (self : string) (sels new_selects : list pyval)
  : M (list pyval) :=
  match sels with
  | [] => ret new_selects
  | sel :: rest =>
      (if py_eq sel (VMethod self "name")
       then error self ("config '" ++ py_str (VMethod self "name")
                          ++ "' cannot select itself")
       else ret tt) ;;
      nd <- get_symbol sel ;;
      resolve_selects_loop self rest (new_selects ++ [nd])
  end.

Definition resolve_selects (self : string) : M unit :=
  me <- get_obj self ;;
  new_selects <- resolve_selects_loop self (selects me) [] ;;
  modify_obj self (set_selects new_selects).

(** [for dep in self.depends_on: if not dep.is_selected: return]:
    [false] when the loop left the method, [true] when it ran through. *)
Fixpoint all_selected (deps : list pyval) : M bool :=
  match deps with
  | [] => ret true
  | dep :: rest =>
      b <- get_is_selected dep ;;
      if b then all_selected rest else ret false
  end.

(** [if sel != None: sel.select()], with [callee] for the method. *)
Definition select_unless_none (callee : string -> M unit) (sel : pyval) : M unit :=
  if negb (py_eq sel VNone)
  then k <- as_symbol sel ;; callee k
  else ret tt.

(** [Symbol.select].  The method calls itself through the [selects]
    lists and nothing bounds that recursion but the interpreter's limit
    on the depth of the call stack: [depth] is the number of frames still
    available, and running out of them raises [RuntimeError]. *)
Fixpoint select (depth : nat) (self : string) : M unit :=
  match depth with
  | 0 => raise RuntimeError
  | S depth' =>
      me <- get_obj self ;;
      ok <- all_selected (depends_on me) ;;
      if negb ok then ret tt else
      me <- get_obj self ;;
      for_each (fun dep => make_selectable dep true) (dependants me) ;;
      me <- get_obj self ;;
      ok <- all_selected (depends_on me) ;;
      if negb ok then ret tt else
      modify_obj self (set_is_selected true) ;;
      me <- get_obj self ;;
      for_each (select_unless_none (select depth')) (selects me)
  end.

(** ** Module-level passes *)

Definition fix_dependencies_for (sym : string) (deplist : list pyval) : M unit :=
  for_each (fun dep =>
              b <- get_is_selected dep ;;
              if negb b then deselect dep else ret tt)
           deplist.

(** [for name,sym in Symbol.get_all_symbols().iteritems()]: [body] is run
    on each key in iteration order; the dict itself is not changed by any
    of the loop bodies, only the objects in it are. *)
Definition for_all_symbols (body : string -> M unit) : M unit :=
  fun w => for_each body (keys (all_symbols w)) w.

Definition fix_dependencies : M unit :=
  for_all_symbols (fun sym =>
    me <- get_obj sym ;;
    let deps := depends_on me in
    match deps with
    | [] => ret tt
    | _ => fix_dependencies_for sym deps
    end).

Definition resolve_symbols : M unit :=
  for_all_symbols (fun sym =>
    resolve_dependencies sym ;;
    resolve_selects sym).

(** [Symbol.get_symbol(cname).select()] *)
Definition select_configs (depth : nat) (clist : list string) : M unit :=
  for_each (fun cname =>
              v <- get_symbol (VStr cname) ;;
              k <- as_symbol v ;;
              select depth k)
           clist.

Definition select_defaults (depth : nat) : M unit :=
  for_all_symbols (fun sym =>
    me <- get_obj sym ;;
    if is_default me then select depth sym else ret tt).

(** Files: [file(fname, "wt")] truncates or creates, [f.write] appends. *)
Fixpoint file_put (fname : string) (f : string -> string)
         (fs : list (string * string)) : list (string * string) :=
  match fs with
  | [] => [(fname, f "")]
  | (n, c) :: fs' =>
      if String.eqb fname n then (n, f c) :: fs' else (n, c) :: file_put fname f fs'
  end.

Fixpoint file_get (fname : string) (fs : list (string * string)) : option string :=
  match fs with
  | [] => None
  | (n, c) :: fs' => if String.eqb fname n then Some c else file_get fname fs'
  end.

Definition file_open_wt (fname : string) : M unit :=
  fun w => Ret tt (with_files (file_put fname (fun _ => "") (files w)) w).

Definition file_write (fname : string) (text : string) : M unit :=
  fun w => Ret tt (with_files (file_put fname (fun c => (c ++ text)%string) (files w)) w).

Definition nl : string := String (ascii_of_nat 10) EmptyString.

(** The body of the loop of [write_selected_to]. *)
Definition write_if_selected (depth : nat) (fname : string) (name : string)
  : M unit :=
  sym <- get_symbol (VStr name) ;;
  b <- get_is_selected sym ;;
  if b then
    (k <- as_symbol sym ;; select depth k) ;;
    file_write fname ("CONFIG_" ++ name ++ "=y" ++ nl)
  else ret tt.

Definition write_selected_to (depth : nat) (fname : string) : M unit :=
  file_open_wt fname ;;
  (fun w => file_write fname
              ("# Configuration '" ++ main_menu_name w ++ "'" ++ nl ++ nl) w) ;;
  for_all_symbols (write_if_selected depth fname).

(** ** More methods of [Symbol], used by the parser *)

Definition with_prompt (p : option string) (s : Symbol) : Symbol :=
  mkSymbol (symbol s) (selects s) (depends_on s) p (is_selected s)
           (is_selectable s) (is_default s) (dependants s) (type s)
           (lineno s) (defined_at s).

Definition with_type (t : option string) (s : Symbol) : Symbol :=
  mkSymbol (symbol s) (selects s) (depends_on s) (prompt s) (is_selected s)
           (is_selectable s) (is_default s) (dependants s) t
           (lineno s) (defined_at s).

(** [Symbol.set_prompt] *)
Definition set_prompt (self : string) (p : string) : M unit :=
  modify_obj self (with_prompt (Some p)).

(** [Symbol.set_type(self, t, prompt = None)] *)
Definition set_type (self : string) (t : string) (p : option string) : M unit :=
  modify_obj self (fun s => with_prompt p (with_type (Some t) s)).

(** [Symbol.add_dependency] *)
Definition add_dependency (self : string) (dep : string) : M unit :=
  modify_obj self (fun s => set_depends_on (depends_on s ++ [VStr dep]) s).

(** [Symbol.add_select] *)
Definition add_select (self : string) (symname : string) : M unit :=
  modify_obj self (fun s => set_selects (selects s ++ [VStr symname]) s).

(** What [Option.parse] returns: [True], [False], or [None] from its bare
    [return]. *)
Inductive truth : Type := PyTrue | PyFalse | PyNone.

(** [not v] is false only for [True]. *)
Definition truthy (v : truth) : bool :=
  match v with PyTrue => true | _ => false end.

(** ** class Tokenizer

    [shlex] is the standard library's lexer.  What its [read_token]
    makes of the characters of the stream is taken as given: [upcoming]
    lists the calls of [read_token] to come, each with the token it
    returns, the line number the lexer reports once it has returned, and
    the character it pushes back, if any.  [read_token] pushes back (with
    [pushback.appendleft]) the character that ends a word when that
    character is neither whitespace nor part of a word; the tokenizer
    takes the newline out of the lexer's whitespace, so a word at the end
    of its line leaves the newline in the queue.

    [pushback] is the lexer's deque.  [shlex.get_token] pops it from the
    left and calls [read_token] only when it is empty;
    [Tokenizer.put_token] appends to it on the right. *)
Module Tokenizer.

Record read : Type := mkRead {
  token : string;
  line_after : nat;
  pushed : option string
}.

Record shlex : Type := mkShlex {
  instream_name : string;
  lineno : nat;
  pushback : list string;
  upcoming : list read
}.

(** The queue a call of [read_token] leaves, which it found empty. *)
Definition queued (p : option string) : list string :=
  match p with
  | Some c => [c]
  | None => []
  end.

Definition shlex_get_token (l : shlex) : string * shlex :=
  match pushback l with
  | tok :: rest => (tok, mkShlex (instream_name l) (lineno l) rest (upcoming l))
  | [] =>
      match upcoming l with
      | r :: rest =>
          (token r,
           mkShlex (instream_name l) (line_after r) (queued (pushed r)) rest)
      | [] => (EmptyString, l)
      end
  end.

Record t : Type := mkTokenizer {
  lexer : shlex;
  curr_token : string
}.

Definition get_token (tk : t) : string * t :=
  let (tok, l) := shlex_get_token (lexer tk) in
  (tok, mkTokenizer l tok).

Definition current_token (tk : t) : string := curr_token tk.

(** [put_token(self, tok = None)] *)
Definition put_token (tok : option string) (tk : t) : t :=
  let tok := match tok with None => curr_token tk | Some x => x end in
  let l := lexer tk in
  mkTokenizer
    (mkShlex (instream_name l) (lineno l) (pushback l ++ [tok]) (upcoming l))
    (curr_token tk).

Definition get_file_name (tk : t) : string := instream_name (lexer tk).
Definition get_lineno (tk : t) : nat := lineno (lexer tk).

Definition at_nl (tk : t) : bool * t :=
  let (tok, tk') := get_token tk in (String.eqb tok nl, tk').

Definition error (tk : t) (errstr : string) : M unit :=
  print ("Error:" ++ get_file_name tk ++ ":" ++ fmt_d (get_lineno tk)
           ++ " " ++ errstr).

Definition at_eof (tk : t) : bool := String.eqb (curr_token tk) EmptyString.

End Tokenizer.

(** ** Strings *)

Definition apostrophe : ascii := ascii_of_nat 39.
Definition quotation : ascii := ascii_of_nat 34.

Definition in_chars (c : ascii) (chars : list ascii) : bool :=
  existsb (Ascii.eqb c) chars.

Fixpoint lstrip (chars : list ascii) (s : string) : string :=
  match s with
  | EmptyString => EmptyString
  | String c s' => if in_chars c chars then lstrip chars s' else s
  end.

Fixpoint rstrip (chars : list ascii) (s : string) : string :=
  match s with
  | EmptyString => EmptyString
  | String c s' =>
      match rstrip chars s' with
      | EmptyString => if in_chars c chars then EmptyString else String c EmptyString
      | r => String c r
      end
  end.

(** [s.strip(chars)] *)
Definition strip (chars : list ascii) (s : string) : string :=
  rstrip chars (lstrip chars s).

(** ** class Option *)
Module Option.

(** [s[i]] raises [IndexError] when [i] is not an index of [s]. *)
Definition index (s : string) (i : nat) : M ascii :=
  match String.get i s with
  | Some c => ret c
  | None => raise IndexError
  end.

(** The tokenizer is mutated by [put_token]; it is handed back with the
    result. *)
Definition parse_string (tk : Tokenizer.t) (s : string)
  : M (string * Tokenizer.t) :=
  c0 <- index s 0 ;;
  if negb (Ascii.eqb c0 apostrophe) && negb (Ascii.eqb c0 quotation) then
    Tokenizer.error tk "String must start with an apostrophe or a quotation" ;;
    ret (EmptyString, Tokenizer.put_token None tk)
  else
    let plen := String.length s - 1 in
    c1 <- index s plen ;;
    if negb (Ascii.eqb c1 apostrophe) && negb (Ascii.eqb c1 quotation) then
      Tokenizer.error tk "String must end with an apostrophe or a quotation" ;;
      ret (EmptyString, Tokenizer.put_token None tk)
    else
      ret (strip [quotation; apostrophe] s, tk).

Definition parse_default (tk : Tokenizer.t) (sym : string) : M Tokenizer.t :=
  let (tok, tk) := Tokenizer.get_token tk in
  if String.eqb tok "y" then
    make_default sym true ;; ret tk
  else if String.eqb tok "n" then
    make_default sym false ;; ret tk
  else
    Tokenizer.error tk "You can only use 'y' or 'n' for default" ;; ret tk.

Definition parse_type (tk : Tokenizer.t) (t : string) (sym : string)
  : M Tokenizer.t :=
  let (tok, tk) := Tokenizer.get_token tk in
  c <- index tok 0 ;;
  if Ascii.eqb c apostrophe || Ascii.eqb c quotation then
    r <- parse_string tk tok ;;
    set_type sym t (Some (fst r)) ;;
    ret (snd r)
  else
    ret (Tokenizer.put_token None tk).

Definition parse_select (tk : Tokenizer.t) (sym : string) : M Tokenizer.t :=
  let (tok, tk) := Tokenizer.get_token tk in
  add_select sym tok ;; ret tk.

(** [while tk.current_token() != '\n': tk.get_token()].  Nothing bounds
    this loop: [fuel] counts the turns it is given, and [None] says that
    it is still running after that many. *)
Fixpoint parse_help (fuel : nat) (tk : Tokenizer.t) : option Tokenizer.t :=
  if String.eqb (Tokenizer.current_token tk) nl then Some tk
  else match fuel with
       | 0 => None
       | S fuel' => parse_help fuel' (snd (Tokenizer.get_token tk))
       end.

Definition parse_depends_on (tk : Tokenizer.t) (sym : string) : M Tokenizer.t :=
  let (tok, tk) := Tokenizer.get_token tk in
  if String.eqb tok "on" then
    let (dep, tk) := Tokenizer.get_token tk in
    add_dependency sym dep ;; ret tk
  else
    Tokenizer.error tk "Unexpected token after 'depends'" ;; ret tk.

Definition parse_prompt (tk : Tokenizer.t) (sym : string) : M Tokenizer.t :=
  let (prompt, tk) := Tokenizer.get_token tk in
  r <- parse_string tk prompt ;;
  set_prompt sym (fst r) ;;
  ret (snd r).

(** The end of [Option.parse] after an option has been read:
    [if not tk.at_nl(): tk.put_token()], then [return True]. *)
Definition end_of_option (tk : Tokenizer.t) : truth * Tokenizer.t :=
  let (b, tk) := Tokenizer.at_nl tk in
  (PyTrue, if b then tk else Tokenizer.put_token None tk).

(** [Option.parse]; [None] when the loop of [parse_help] is still running
    after [fuel] turns. *)
Definition parse (fuel : nat) (tk : Tokenizer.t) (sym : string)
  : M (option (truth * Tokenizer.t)) :=
  let (tok, tk) := Tokenizer.get_token tk in
  if String.eqb tok "bool" || String.eqb tok "tristate" || String.eqb tok "string"
  then tk <- parse_type tk tok sym ;; ret (Some (end_of_option tk))
  else if String.eqb tok "select"
  then tk <- parse_select tk sym ;; ret (Some (end_of_option tk))
  else if String.eqb tok "depends"
  then tk <- parse_depends_on tk sym ;; ret (Some (end_of_option tk))
  else if String.eqb tok "default"
  then tk <- parse_default tk sym ;; ret (Some (end_of_option tk))
  else if String.eqb tok "prompt"
  then tk <- parse_prompt tk sym ;; ret (Some (end_of_option tk))
  else if String.eqb tok "help" || String.eqb tok "--help--"
  then match parse_help fuel tk with
       | Some tk => ret (Some (end_of_option tk))
       | None => ret None
       end
  else if String.eqb tok nl
  then ret (Some (PyNone, tk))
  else ret (Some (PyFalse, Tokenizer.put_token (Some tok) tk)).

End Option.

(** ** [Symbol.__init__] and [Symbol.parse] *)

(** [Symbol.all_symbols[k] = s]: the value of a key that is present is
    replaced where it stands.  Where a dict puts a new key in its
    iteration order is its own business; it is put last here. *)
Fixpoint dict_set (k : string) (s : Symbol) (t : table) : table :=
  match t with
  | [] => [(k, s)]
  | (k', s') :: t' =>
      if String.eqb k k' then (k', s) :: t' else (k', s') :: dict_set k s t'
  end.

Definition tab : string := String (ascii_of_nat 9) EmptyString.

(** [Symbol.__init__(self, tk, symbol, menu)].  The test [menu is Menu]
    compares the argument with the class itself, which no caller passes:
    the symbol never gets a parent and no menu ever gets the symbol. *)
Definition Symbol_init (tk : Tokenizer.t) (name : string) : M unit :=
  fun w =>
    print (" | " ++ tab ++ "config '" ++ name ++ "' ")
          (with_symbols
             (dict_set name
                (new_symbol name (Tokenizer.get_lineno tk)
                            (Tokenizer.get_file_name tk))
                (all_symbols w))
             w).

(** The loop of [Symbol.parse]; [None] when it, or the loop of
    [parse_help] inside it, is still running after [fuel] turns. *)
Fixpoint options_loop (fuel : nat) (tk : Tokenizer.t) (sym : string)
  : M (option (string * Tokenizer.t)) :=
  let cur := Tokenizer.current_token tk in
  if String.eqb cur "config" || String.eqb cur "endmenu"
     || String.eqb cur EmptyString
  then ret (Some (sym, tk))
  else match fuel with
       | 0 => ret None
       | S fuel' =>
           r <- Option.parse fuel' tk sym ;;
           match r with
           | None => ret None
           | Some (v, tk') =>
               if negb (truthy v) then ret (Some (sym, tk'))
               else options_loop fuel' tk' sym
           end
       end.

(** [Symbol.parse]; [Tokenizer] has no method [put_back], so the call
    made after the diagnostic raises [AttributeError]. *)
Definition Symbol_parse (fuel : nat) (tk : Tokenizer.t)
  : M (option (string * Tokenizer.t)) :=
  let (name, tk) := Tokenizer.get_token tk in
  Symbol_init tk name ;;
  let (tok, tk) := Tokenizer.get_token tk in
  (if negb (String.eqb tok nl)
   then Tokenizer.error tk "Unexpected token after config" ;;
        raise AttributeError
   else ret tt) ;;
  options_loop fuel tk name.

(** ** The tokens a tokenizer is about to deliver *)

(** What a call of [read_token] delivers: its token first, then the
    character it has pushed back. *)
Definition deliveries (r : Tokenizer.read) : list string :=
  Tokenizer.token r :: Tokenizer.queued (Tokenizer.pushed r).

Definition stream (rs : list Tokenizer.read) : list string :=
  flat_map deliveries rs.

(** What [get_token] will return, call after call, before it returns the
    empty string for ever, when nothing is put back in between: the
    tokens in the queue, then what the calls of [read_token] deliver. *)
Definition supply (tk : Tokenizer.t) : list string :=
  Tokenizer.pushback (Tokenizer.lexer tk)
  ++ stream (Tokenizer.upcoming (Tokenizer.lexer tk)).

(** A tokenizer on [Kconfig] with current token [cur] and an empty queue,
    at line [line], with the calls [reads] of [read_token] to come. *)
Definition lexing (cur : string) (line : nat) (reads : list Tokenizer.read)
  : Tokenizer.t :=
  Tokenizer.mkTokenizer (Tokenizer.mkShlex "Kconfig" line [] reads) cur.

(** ** Observations on a world *)

(** [is_selected] of the symbol named [k]; [false] when there is none. *)
Definition selected (w : World) (k : string) : bool :=
  match lookup k (all_symbols w) with
  | Some s => is_selected s
  | None => false
  end.

(** An entry of an edge list that is a link to a symbol of the table, as
    resolution leaves the entries of [depends_on] and [dependants]. *)
Definition is_link (w : World) (v : pyval) : bool :=
  match v with
  | VSym k => match lookup k (all_symbols w) with Some _ => true | None => false end
  | _ => false
  end.

Definition link_selected (w : World) (v : pyval) : bool :=
  match v with
  | VSym k => selected w k
  | _ => false
  end.

(** The line the writer emits for a symbol, and the text it emits for the
    symbols of a world that are selected, in the order of the table. *)
Definition config_line (name : string) : string :=
  "CONFIG_" ++ name ++ "=y" ++ nl.

Definition header (w : World) : string :=
  "# Configuration '" ++ main_menu_name w ++ "'" ++ nl ++ nl.

(** [''.join(l)] *)
Fixpoint join (l : list string) : string :=
  match l with
  | [] => EmptyString
  | x :: l' => x ++ join l'
  end.

Definition lines_for (w : World) (names : list string) : string :=
  join (map config_line (filter (selected w) names)).

Definition selected_lines (w : World) : string :=
  lines_for w (keys (all_symbols w)).

(** Forgetting the scratch flag [is_selectable]. *)
Definition erase_sym (s : Symbol) : Symbol := set_is_selectable false s.

Definition erase_tbl (t : table) : table :=
  map (fun e => (fst e, erase_sym (snd e))) t.

Definition pyval_eq_dec (a b : pyval) : {a = b} + {a <> b}.
Proof. decide equality; apply string_dec. Defined.

Definition Symbol_eq_dec (a b : Symbol) : {a = b} + {a <> b}.
Proof.
  decide equality;
    first [ apply string_dec | apply Nat.eq_dec | apply bool_dec
          | apply (list_eq_dec pyval_eq_dec)
          | decide equality; apply string_dec ].
Defined.

Definition table_eq_dec (a b : table) : {a = b} + {a <> b}.
Proof.
  apply list_eq_dec. decide equality;
    [ apply Symbol_eq_dec | apply string_dec ].
Defined.

(** Two tables that differ in [is_selectable] flags only. *)
Definition same_selection (w1 w2 : World) : bool :=
  if table_eq_dec (erase_tbl (all_symbols w1)) (erase_tbl (all_symbols w2))
  then true else false.

(** Running [select] again on any selected symbol returns and changes no
    [is_selected] flag: every cascade the table calls for has been run. *)
Definition settled (depth : nat) (w : World) : bool :=
  forallb (fun k =>
             negb (selected w k) ||
             match select depth k w with
             | Ret _ w' => same_selection w' w
             | Exc _ _ => false
             end)
          (keys (all_symbols w)).

(** ** Relations between the world before and after a computation

    [keeps R m] says that the world [m] ends in, returned or raised, is
    [R]-related to the world it started from. *)
Definition keeps {A} (R : World -> World -> Prop) (m : M A) : Prop :=
  forall w, R w (world_of (m w)).

(** [grows w w'] relates a world to a later one in which every symbol is
    still there with the same edges and is selected if it was. *)
Definition sym_grows (s s' : Symbol) : Prop :=
  selects s' = selects s /\ depends_on s' = depends_on s /\
  dependants s' = dependants s /\
  (is_selected s = true -> is_selected s' = true).

Definition grows (w w' : World) : Prop :=
  forall k s, lookup k (all_symbols w) = Some s ->
              exists s', lookup k (all_symbols w') = Some s' /\ sym_grows s s'.

(** ** Tables to run the code on *)

(** A symbol as the parser leaves it after [config name] with the given
    [depends on] and [select] lines and, when [dflt], a [default y]. *)
Definition config (name : string) (deps sels : list string) (dflt : bool)
  : Symbol :=
  set_is_default dflt
    (set_selects (map VStr sels)
       (set_depends_on (map VStr deps) (new_symbol name 1 "Kconfig"))).

Definition parsed (l : list Symbol) : World :=
  mkWorld (map (fun s => (symbol s, s)) l) "Demo" [] [].

(** [A] selects [B]; neither depends on anything. *)
Definition ex_pair : World :=
  world_of (resolve_symbols
              (parsed [config "A" [] ["B"] false; config "B" [] [] false])).

(** [A] depends on [B] and selects [C]. *)
Definition ex_gate : World :=
  world_of (resolve_symbols
              (parsed [config "A" ["B"] ["C"] false; config "B" [] [] false;
                       config "C" [] [] false])).

(** [A] depends on [B], and [A] is selected while [B] is not. *)
Definition ex_fixup : World :=
  with_symbols (update "A" (set_is_selected true) (all_symbols ex_gate)) ex_gate.

(** [config A] with [depends on A] and [select A], before resolution. *)
Definition ex_self : World := parsed [config "A" ["A"] ["A"] false].

(** [A] depends on [X], which no [config] declares, and on [B]. *)
Definition ex_dangling : World :=
  parsed [config "A" ["X"; "B"] [] false; config "B" [] [] false].

(** [A] selects [Y], which no [config] declares, and [B]. *)
Definition ex_dangling_select : World :=
  parsed [config "A" [] ["Y"; "B"] false; config "B" [] [] false].

(** [is_default] of the symbol named [k]. *)
Definition default_flag (w : World) (k : string) : option bool :=
  option_map is_default (lookup k (all_symbols w)).

(** A tokenizer on [Kconfig] about to read the tokens [toks], each in a
    call of [read_token] that pushes nothing back. *)
Definition tokens (toks : list string) : Tokenizer.t :=
  Tokenizer.mkTokenizer
    (Tokenizer.mkShlex "Kconfig" 1 []
       (map (fun tok => Tokenizer.mkRead tok 1 None) toks))
    EmptyString.

(** The last character of the string [String c s]. *)
Fixpoint last_char (c : ascii) (s : string) : ascii :=
  match s with
  | EmptyString => c
  | String c' s' => last_char c' s'
  end.

Definition is_quote (c : ascii) : bool :=
  Ascii.eqb c apostrophe || Ascii.eqb c quotation.

(** ** Worlds that agree up to [is_selectable]

    [select] never reads [is_selectable], so it runs alike on two such
    worlds; [msim] says so for a pair of computations. *)
Definition sim (w1 w2 : World) : Prop :=
  erase_tbl (all_symbols w1) = erase_tbl (all_symbols w2).

Definition osim {A} (Ra : A -> A -> Prop) (o1 o2 : outcome A) : Prop :=
  match o1, o2 with
  | Ret a w1, Ret b w2 => Ra a b /\ sim w1 w2
  | Exc e w1, Exc e' w2 => e = e' /\ sim w1 w2
  | _, _ => False
  end.

Definition msim {A} (Ra : A -> A -> Prop) (m1 m2 : M A) : Prop :=
  forall w1 w2, sim w1 w2 -> osim Ra (m1 w1) (m2 w2).

Definition sym_sim (s1 s2 : Symbol) : Prop := erase_sym s1 = erase_sym s2.

(** [B1] and [B2] depend on [C]; [A] selects both.  [B1] comes before
    [A] in the table and [B2] after it. *)
Definition ex_output_parsed : World :=
  parsed [config "B1" ["C"] [] false; config "A" [] ["B1"; "B2"] false;
          config "B2" ["C"] [] false; config "C" [] [] false].

(** The run of the script on that table with [-d -s A,C], up to the
    point where the output is written. *)
Definition ex_output : World :=
  world_of ((resolve_symbols ;; fix_dependencies ;;
             select_configs 10 ["A"; "C"]) ex_output_parsed).

(** The same with [-d -s C,A]: [C] is selected first, so the cascade
    from [A] goes through. *)
Definition ex_output_settled : World :=
  world_of ((resolve_symbols ;; fix_dependencies ;;
             select_configs 10 ["C"; "A"]) ex_output_parsed).

(** ** What resolution makes of a name *)

(** A name of a symbol of the table. *)
Definition declared (w : World) (v : pyval) : bool :=
  match v with
  | VStr n => match lookup n (all_symbols w) with Some _ => true | None => false end
  | _ => false
  end.

(** The value [Symbol.get_symbol] returns for an entry of an edge list. *)
Definition resolve_name (w : World) (v : pyval) : pyval :=
  match v with
  | VStr n => match lookup n (all_symbols w) with Some _ => VSym n | None => VNone end
  | _ => VNone
  end.

(** An entry as the parser appends it: a name. *)
Definition is_name (v : pyval) : bool :=
  match v with VStr _ => true | _ => false end.

(** ** Further observations *)

(** [is_selectable] of the symbol named [k]; [false] when there is none. *)
Definition selectable (w : World) (k : string) : bool :=
  match lookup k (all_symbols w) with
  | Some s => is_selectable s
  | None => false
  end.

Definition link_selectable (w : World) (v : pyval) : bool :=
  match v with
  | VSym k => selectable w k
  | _ => false
  end.

(** A symbol without its two selection flags. *)
Definition frame_of (s : Symbol) : Symbol :=
  set_is_selected false (set_is_selectable false s).

(** Two worlds that differ at most in the flags [is_selected] and
    [is_selectable] of their symbols. *)
Definition same_frame (w w' : World) : Prop :=
  stdout w' = stdout w /\ files w' = files w /\
  main_menu_name w' = main_menu_name w /\
  keys (all_symbols w') = keys (all_symbols w) /\
  forall k, option_map frame_of (lookup k (all_symbols w')) =
            option_map frame_of (lookup k (all_symbols w)).

(** Every selected symbol has every one of its dependencies selected. *)
Definition dependencies_met (w : World) : bool :=
  forallb (fun k =>
             match lookup k (all_symbols w) with
             | Some s => negb (is_selected s)
                         || forallb (link_selected w) (depends_on s)
             | None => true
             end)
          (keys (all_symbols w)).

(** Every symbol named in [names] is unselected and has a dependency that
    is itself named in [names]: a dependency cycle, or symbols that hang
    on one. *)
Definition deadlocked (names : list string) (w : World) : bool :=
  forallb (fun k =>
             match lookup k (all_symbols w) with
             | Some s =>
                 negb (is_selected s) &&
                 existsb (fun dep =>
                            match dep with
                            | VSym d => existsb (String.eqb d) names
                            | _ => false
                            end)
                         (depends_on s)
             | None => false
             end)
          names.

(** Two worlds in which every name reads the same symbol, and which have
    printed and written the same. *)
Definition same_world (w w' : World) : Prop :=
  stdout w' = stdout w /\ files w' = files w /\
  main_menu_name w' = main_menu_name w /\
  keys (all_symbols w') = keys (all_symbols w) /\
  forall k, lookup k (all_symbols w') = lookup k (all_symbols w).

(** Every symbol named in [names] has all its dependencies selected and
    selects a symbol that is itself named in [names]: a cycle of select
    edges, or symbols that lead into one. *)
Definition select_cycle (names : list string) (w : World) : bool :=
  forallb (fun k =>
             match lookup k (all_symbols w) with
             | Some s =>
                 forallb (link_selected w) (depends_on s) &&
                 existsb (fun sel =>
                            match sel with
                            | VSym k' => existsb (String.eqb k') names
                            | _ => false
                            end)
                         (selects s)
             | None => false
             end)
          names.

(** ** Tables that resolution goes through *)

Fixpoint nodupb (l : list string) : bool :=
  match l with
  | [] => true
  | x :: l' => negb (existsb (String.eqb x) l') && nodupb l'
  end.

(** No key twice, as in a dict; every entry of every [depends_on] is the
    name of a symbol of the table, and every entry of every [selects] is
    a name. *)
Definition resolvable (w : World) : bool :=
  nodupb (keys (all_symbols w)) &&
  forallb (fun e => forallb (declared w) (depends_on (snd e)) &&
                    forallb is_name (selects (snd e)))
          (all_symbols w).

(** The back-edges that the symbols named in [from] give the symbol named
    [k]: one link to [a] for each time [a] names [k] in its [depends_on],
    in the order of [from]. *)
Definition back_edges (w : World) (from : list string) (k : string) : list pyval :=
  flat_map (fun a =>
              match lookup a (all_symbols w) with
              | Some sa => map (fun _ => VSym a)
                               (filter (py_eq (VStr k)) (depends_on sa))
              | None => []
              end)
           from.

(** An update of a symbol that the parser makes: it leaves the two
    selection flags and the dependants alone. *)
Definition option_update (f : Symbol -> Symbol) : Prop :=
  forall s, is_selected (f s) = is_selected s /\
            is_selectable (f s) = is_selectable s /\
            dependants (f s) = dependants s.

(** What a config block for [name] may change between two worlds: the
    symbol [name], short of selecting it, and what is printed. *)
Definition block_frame (name : string) (w w' : World) : Prop :=
  (forall k, k <> name -> lookup k (all_symbols w') = lookup k (all_symbols w)) /\
  (selected w name = false -> selected w' name = false) /\
  files w' = files w /\
  main_menu_name w' = main_menu_name w.

(** ** Lists in the order of another *)

(** [s1] is [s2] with some of its elements left out. *)
Fixpoint subseq (s1 s2 : list string) : bool :=
  match s2 with
  | [] => match s1 with [] => true | _ :: _ => false end
  | y :: s2' =>
      match s1 with
      | [] => true
      | x :: s1' => if String.eqb x y then subseq s1' s2' else subseq s1 s2'
      end
  end.

(** * Properties *)

(** ** The table *)

Lemma lookup_update (k k' : string) (f : Symbol -> Symbol) (t : table) :
  lookup k' (update k f t) =
  option_map (fun s => if String.eqb k k' then f s else s) (lookup k' t).
Proof.
  induction t as [|[k0 s0] t IH]; simpl; [reflexivity|].
  destruct (String.eqb_spec k' k0) as [->|Hne]; simpl; [reflexivity|].
  exact IH.
Qed.

Lemma keys_update (k : string) (f : Symbol -> Symbol) (t : table) :
  keys (update k f t) = keys t.
Proof.
  unfold keys. induction t as [|[k0 s0] t IH]; simpl; [reflexivity|].
  now rewrite IH.
Qed.

Lemma lookup_in_keys (k : string) (t : table) :
  In k (keys t) -> exists s, lookup k t = Some s.
Proof.
  induction t as [|[k0 s0] t IH]; simpl; [tauto|].
  intros [->|Hin].
  - rewrite String.eqb_refl. now exists s0.
  - destruct (String.eqb k k0); [now exists s0 | auto].
Qed.

Lemma lookup_erase (k : string) (t : table) :
  lookup k (erase_tbl t) = option_map erase_sym (lookup k t).
Proof.
  induction t as [|[k0 s0] t IH]; simpl; [reflexivity|].
  destruct (String.eqb k k0); [reflexivity | exact IH].
Qed.

Lemma keys_erase (t : table) : keys (erase_tbl t) = keys t.
Proof.
  unfold keys, erase_tbl. rewrite map_map. reflexivity.
Qed.

Lemma erase_update_selectable (k : string) (b : bool) (t : table) :
  erase_tbl (update k (set_is_selectable b) t) = erase_tbl t.
Proof.
  induction t as [|[k0 s0] t IH]; simpl; [reflexivity|].
  rewrite IH. destruct (String.eqb k k0); reflexivity.
Qed.

(** ** Relations every step of a computation keeps *)

Section Keeps.
Variable R : World -> World -> Prop.
Hypothesis R_refl : forall w, R w w.
Hypothesis R_trans : forall a b c, R a b -> R b c -> R a c.

Lemma keeps_ret {A} (a : A) : keeps R (ret a).
Proof. intro w. apply R_refl. Qed.

Lemma keeps_raise {A} (e : exn) : keeps R (@raise A e).
Proof. intro w. apply R_refl. Qed.

Lemma keeps_bind {A B} (m : M A) (f : A -> M B) :
  keeps R m -> (forall a, keeps R (f a)) -> keeps R (bind m f).
Proof.
  intros Hm Hf w. unfold bind. specialize (Hm w).
  destruct (m w) as [a w'|e w']; simpl in *; [|exact Hm].
  eapply R_trans; [exact Hm | apply Hf].
Qed.

Lemma keeps_for_each {A} (body : A -> M unit) (l : list A) :
  (forall x, keeps R (body x)) -> keeps R (for_each body l).
Proof.
  intro Hb. induction l as [|x l IH]; simpl.
  - apply keeps_ret.
  - apply keeps_bind; [apply Hb | intros _; exact IH].
Qed.

Lemma keeps_get_obj (k : string) : keeps R (get_obj k).
Proof.
  intro w. unfold get_obj.
  destruct (lookup k (all_symbols w)); apply R_refl.
Qed.

Lemma keeps_as_symbol (v : pyval) : keeps R (as_symbol v).
Proof. destruct v; simpl; first [apply keeps_ret | apply keeps_raise]. Qed.

Lemma keeps_get_is_selected (v : pyval) : keeps R (get_is_selected v).
Proof.
  unfold get_is_selected.
  apply keeps_bind; [apply keeps_as_symbol | intro k].
  apply keeps_bind; [apply keeps_get_obj | intro s; apply keeps_ret].
Qed.

Lemma keeps_all_selected (deps : list pyval) : keeps R (all_selected deps).
Proof.
  induction deps as [|d deps IH]; simpl; [apply keeps_ret|].
  apply keeps_bind; [apply keeps_get_is_selected | intros [|]];
    [exact IH | apply keeps_ret].
Qed.

Lemma keeps_for_all_symbols (body : string -> M unit) :
  (forall k, keeps R (body k)) -> keeps R (for_all_symbols body).
Proof.
  intros Hb w. unfold for_all_symbols. apply keeps_for_each, Hb.
Qed.

(** What is left to show for [select] is that the two writes it makes
    keep [R]. *)
Hypothesis R_selectable :
  forall k, keeps R (modify_obj k (set_is_selectable true)).
Hypothesis R_selected :
  forall k, keeps R (modify_obj k (set_is_selected true)).

Lemma keeps_make_selectable (v : pyval) : keeps R (make_selectable v true).
Proof.
  unfold make_selectable.
  apply keeps_bind; [apply keeps_as_symbol | intro k; apply R_selectable].
Qed.

Lemma keeps_select (depth : nat) : forall self, keeps R (select depth self).
Proof.
  induction depth as [|depth IH]; intro self; simpl.
  - apply keeps_raise.
  - apply keeps_bind; [apply keeps_get_obj | intro me].
    apply keeps_bind; [apply keeps_all_selected | intros [|]]; simpl;
      [|apply keeps_ret].
    apply keeps_bind; [apply keeps_get_obj | intro me1].
    apply keeps_bind;
      [apply keeps_for_each; intro; apply keeps_make_selectable | intros _].
    apply keeps_bind; [apply keeps_get_obj | intro me2].
    apply keeps_bind; [apply keeps_all_selected | intros [|]]; simpl;
      [|apply keeps_ret].
    apply keeps_bind; [apply R_selected | intros _].
    apply keeps_bind; [apply keeps_get_obj | intro me3].
    apply keeps_for_each. intro sel. unfold select_unless_none.
    destruct (negb (py_eq sel VNone)); [|apply keeps_ret].
    apply keeps_bind; [apply keeps_as_symbol | intro k; apply IH].
Qed.


(** [get_symbol] prints when the name is missing. *)
Hypothesis R_print : forall line, keeps R (print line).

Lemma keeps_get_symbol (v : pyval) : keeps R (get_symbol v).
Proof.
  intro w. unfold get_symbol.
  destruct v as [n| | |];
    try (apply (keeps_bind (print _) (fun _ => ret VNone));
         [apply R_print | intros _; apply keeps_ret]).
  destruct (lookup n (all_symbols w)); [apply R_refl|].
  apply (keeps_bind (print _) (fun _ => ret VNone));
    [apply R_print | intros _; apply keeps_ret].
Qed.

End Keeps.

(** ** Selection only grows *)

Lemma sym_grows_refl (s : Symbol) : sym_grows s s.
Proof. repeat split; auto. Qed.

Lemma grows_refl (w : World) : grows w w.
Proof. intros k s H. exists s. split; [exact H | apply sym_grows_refl]. Qed.

Lemma grows_trans (a b c : World) : grows a b -> grows b c -> grows a c.
Proof.
  intros Hab Hbc k s H.
  destruct (Hab k s H) as (s1 & H1 & Hs1 & Hd1 & Hn1 & Hm1).
  destruct (Hbc k s1 H1) as (s2 & H2 & Hs2 & Hd2 & Hn2 & Hm2).
  exists s2. split; [exact H2|].
  repeat split; try congruence. auto.
Qed.

Lemma grows_modify (k : string) (f : Symbol -> Symbol) :
  (forall s, sym_grows s (f s)) -> keeps grows (modify_obj k f).
Proof.
  intros Hf w. unfold modify_obj.
  destruct (lookup k (all_symbols w)); simpl; [|apply grows_refl].
  intros k' s' H. simpl. rewrite lookup_update, H. simpl.
  eexists; split; [reflexivity|].
  destruct (String.eqb k k'); [apply Hf | apply sym_grows_refl].
Qed.

Lemma grows_print (line : string) : keeps grows (print line).
Proof. intros w k s H. exists s. split; [exact H | apply sym_grows_refl]. Qed.

Lemma grows_selectable (k : string) :
  keeps grows (modify_obj k (set_is_selectable true)).
Proof. apply grows_modify. intro s. repeat split; auto. Qed.

Lemma grows_selected (k : string) :
  keeps grows (modify_obj k (set_is_selected true)).
Proof. apply grows_modify. intro s. repeat split; auto. Qed.

Lemma grows_select (depth : nat) (self : string) : keeps grows (select depth self).
Proof.
  exact (keeps_select grows grows_refl grows_trans
                      grows_selectable grows_selected depth self).
Qed.

Lemma grows_keeps_selected (w w' : World) (k : string) :
  grows w w' -> selected w k = true -> selected w' k = true.
Proof.
  unfold selected. intros G H.
  destruct (lookup k (all_symbols w)) as [s|] eqn:E; [|discriminate].
  destruct (G k s E) as (s' & -> & _ & _ & _ & Hm). auto.
Qed.

Lemma grows_keeps_link (w w' : World) (v : pyval) :
  grows w w' -> is_link w v = true -> is_link w' v = true.
Proof.
  destruct v as [|k| |]; simpl; auto. intros G H.
  destruct (lookup k (all_symbols w)) as [s|] eqn:E; [|discriminate].
  destruct (G k s E) as (s' & -> & _). reflexivity.
Qed.



(** ** Selecting with an unmet dependency *)

Lemma get_is_selected_link (w : World) (v : pyval) :
  is_link w v = true -> get_is_selected v w = Ret (link_selected w v) w.
Proof.
  destruct v as [|k| |]; simpl; try discriminate.
  unfold get_is_selected, as_symbol, bind, ret, get_obj, selected.
  destruct (lookup k (all_symbols w)); [reflexivity | discriminate].
Qed.

Lemma all_selected_links (w : World) (deps : list pyval) :
  forallb (is_link w) deps = true ->
  all_selected deps w = Ret (forallb (link_selected w) deps) w.
Proof.
  induction deps as [|d deps IH]; simpl; [reflexivity|].
  intro H. apply andb_prop in H. destruct H as [Hd Hr].
  unfold bind. rewrite (get_is_selected_link w d Hd).
  destruct (link_selected w d); simpl; [apply IH, Hr | reflexivity].
Qed.

Lemma exists_unselected (w : World) (deps : list pyval) :
  existsb (fun dep => negb (link_selected w dep)) deps = true ->
  forallb (link_selected w) deps = false.
Proof.
  induction deps as [|d deps IH]; simpl; [discriminate|].
  destruct (link_selected w d); simpl; auto.
Qed.

(** C2: when some dependency of [A] is not selected, [select(A)] returns
    at once and the world is exactly what it was: [A] is not selected,
    no flag of a dependant is written, and no symbol of [A.selects] is
    called (one frame of the stack is enough for the whole call). *)
Theorem select_unmet_dependency (depth : nat) (A : string) (a : Symbol) (w : World) :
  lookup A (all_symbols w) = Some a ->
  forallb (is_link w) (depends_on a) = true ->
  existsb (fun dep => negb (link_selected w dep)) (depends_on a) = true ->
  select (S depth) A w = Ret tt w.
Proof.
  intros HA Hl Hu. simpl. unfold bind at 1. unfold get_obj at 1. rewrite HA.
  unfold bind at 1. rewrite (all_selected_links w _ Hl).
  rewrite (exists_unselected w _ Hu). reflexivity.
Qed.

Lemma select_unmet_dependency_witness :
  select 1 "A" ex_gate = Ret tt ex_gate /\ selected ex_gate "A" = false.
Proof.
  split; [|reflexivity].
  eapply (select_unmet_dependency 0 "A"); reflexivity.
Defined.

(** ** The cascade through the select edges *)

Lemma bind_Ret {A B} (m : M A) (f : A -> M B) (w w' : World) (a : A) :
  m w = Ret a w' -> bind m f w = f a w'.
Proof. intro H. unfold bind. now rewrite H. Qed.

(** Run the first computation of a sequence, given its result. *)
Ltac step H := erewrite bind_Ret by (exact H).

Lemma get_obj_Ret (k : string) (s : Symbol) (w : World) :
  lookup k (all_symbols w) = Some s -> get_obj k w = Ret s w.
Proof. intro H. unfold get_obj. now rewrite H. Qed.

Lemma modify_obj_Ret (k : string) (f : Symbol -> Symbol) (s : Symbol) (w : World) :
  lookup k (all_symbols w) = Some s ->
  modify_obj k f w = Ret tt (with_symbols (update k f (all_symbols w)) w).
Proof. intro H. unfold modify_obj. now rewrite H. Qed.

Lemma forallb_link_grows (w w' : World) (l : list pyval) :
  grows w w' -> forallb (is_link w) l = true -> forallb (is_link w') l = true.
Proof.
  intros G H. rewrite forallb_forall in *.
  intros v Hv. eapply grows_keeps_link; eauto.
Qed.

Lemma make_selectable_links (l : list pyval) : forall w,
  forallb (is_link w) l = true ->
  exists w1, for_each (fun dep => make_selectable dep true) l w = Ret tt w1 /\
             grows w w1.
Proof.
  induction l as [|d l IH]; intros w H; simpl in *.
  - exists w. split; [reflexivity | apply grows_refl].
  - apply andb_prop in H. destruct H as [Hd Hl].
    destruct d as [|k| |]; simpl in Hd; try discriminate.
    destruct (lookup k (all_symbols w)) as [s|] eqn:E; [|discriminate].
    pose proof (grows_selectable k w) as G.
    assert (Hstep : make_selectable (VSym k) true w =
                    Ret tt (with_symbols
                              (update k (set_is_selectable true) (all_symbols w)) w)).
    { unfold make_selectable, as_symbol. rewrite (bind_Ret _ _ w w k eq_refl).
      eapply modify_obj_Ret; eauto. }
    rewrite (modify_obj_Ret _ _ _ _ E) in G. simpl in G.
    destruct (IH _ (forallb_link_grows _ _ _ G Hl)) as (w1 & Hrun & G1).
    exists w1. split.
    + rewrite (bind_Ret _ _ _ _ _ Hstep). exact Hrun.
    + eapply grows_trans; eauto.
Qed.

(** A symbol without dependencies is selected by [select], which then
    goes through its [selects] list. *)
Lemma select_no_dependencies (depth : nat) (self : string) (me : Symbol) (w : World) :
  lookup self (all_symbols w) = Some me ->
  depends_on me = [] ->
  forallb (is_link w) (dependants me) = true ->
  exists w2, grows w w2 /\ selected w2 self = true /\
             select (S depth) self w =
             for_each (select_unless_none (select depth)) (selects me) w2.
Proof.
  intros Hme Hdeps Hlinks.
  destruct (make_selectable_links _ w Hlinks) as (w1 & Hloop & G1).
  destruct (G1 self me Hme) as (me1 & Hme1 & Hs1 & Hd1 & _ & _).
  set (w2 := with_symbols (update self (set_is_selected true) (all_symbols w1)) w1).
  assert (Hme2 : lookup self (all_symbols w2) = Some (set_is_selected true me1)).
  { unfold w2. simpl. rewrite lookup_update, Hme1. simpl.
    now rewrite String.eqb_refl. }
  exists w2. split; [|split].
  - eapply grows_trans; [exact G1|].
    pose proof (grows_selected self w1) as G.
    rewrite (modify_obj_Ret _ _ _ _ Hme1) in G. exact G.
  - unfold selected. now rewrite Hme2.
  - simpl select.
    step (get_obj_Ret _ _ _ Hme).
    rewrite Hdeps. simpl all_selected. step (eq_refl (Ret true w)).
    cbn [negb].
    step (get_obj_Ret _ _ _ Hme). step Hloop.
    step (get_obj_Ret _ _ _ Hme1).
    rewrite Hd1, Hdeps. simpl all_selected. step (eq_refl (Ret true w1)).
    cbn [negb].
    step (modify_obj_Ret self (set_is_selected true) _ _ Hme1). fold w2.
    step (get_obj_Ret _ _ _ Hme2).
    simpl selects. now rewrite Hs1.
Qed.

(** C3: in a resolved table where [A.selects = [B]] and neither [A] nor
    [B] has a dependency, [select(A)] leaves both selected, whatever the
    cascade below [B] does; it returns when [B] selects nothing. *)
Theorem select_pair (depth : nat) (A B : string) (a b : Symbol) (w : World) :
  lookup A (all_symbols w) = Some a ->
  lookup B (all_symbols w) = Some b ->
  selects a = [VSym B] ->
  depends_on a = [] ->
  depends_on b = [] ->
  forallb (is_link w) (dependants a) = true ->
  forallb (is_link w) (dependants b) = true ->
  let o := select (S (S depth)) A w in
  selected (world_of o) A = true /\ selected (world_of o) B = true /\
  (selects b = [] -> returned o = true).
Proof.
  intros Ha Hb Hsel Hda Hdb Hla Hlb o.
  destruct (select_no_dependencies (S depth) A a w Ha Hda Hla)
    as (w2 & G2 & HselA & Hrun).
  destruct (G2 B b Hb) as (b2 & Hb2 & Hsb2 & Hdb2 & Hnb2 & _).
  assert (Hlb2 : forallb (is_link w2) (dependants b2) = true).
  { rewrite Hnb2. eapply forallb_link_grows; eauto. }
  assert (Hdb2' : depends_on b2 = []) by congruence.
  destruct (select_no_dependencies depth B b2 w2 Hb2 Hdb2' Hlb2)
    as (w3 & G3 & HselB & HrunB).
  assert (Ho : o = match select (S depth) B w2 with
                   | Ret _ w' => Ret tt w'
                   | Exc e w' => Exc e w'
                   end).
  { unfold o. rewrite Hrun, Hsel. simpl. unfold bind.
    unfold select_unless_none at 1. simpl. unfold bind.
    destruct (select (S depth) B w2); reflexivity. }
  assert (Hw : world_of o = world_of (select (S depth) B w2)).
  { rewrite Ho. destruct (select (S depth) B w2); reflexivity. }
  assert (G : grows w3 (world_of o)).
  { rewrite Hw, HrunB.
    apply (keeps_for_each grows grows_refl grows_trans).
    intro sel. unfold select_unless_none.
    destruct (negb (py_eq sel VNone));
      [|apply (keeps_ret grows grows_refl)].
    apply (keeps_bind grows grows_trans);
      [apply (keeps_as_symbol grows grows_refl) | intro k; apply grows_select]. }
  split; [|split].
  - eapply grows_keeps_selected; [exact G|].
    eapply grows_keeps_selected; eauto.
  - eapply grows_keeps_selected; eauto.
  - intro Hnil. rewrite Ho, HrunB, Hsb2, Hnil. reflexivity.
Qed.

Lemma select_pair_witness :
  let o := select 2 "A" ex_pair in
  selected (world_of o) "A" = true /\ selected (world_of o) "B" = true /\
  returned o = true.
Proof.
  intro o.
  destruct (select_pair 0 "A" "B" _ _ ex_pair eq_refl eq_refl eq_refl eq_refl
              eq_refl eq_refl eq_refl) as (HA & HB & Hr).
  split; [exact HA | split; [exact HB | exact (Hr eq_refl)]].
Defined.

(** ** Dependency fixup *)

(** The body of the fixup loop writes [False] into a flag it has just
    read as [False]: no selected symbol is touched. *)
Lemma grows_fix_dependencies_for (sym : string) (deplist : list pyval) :
  keeps grows (fix_dependencies_for sym deplist).
Proof.
  apply (keeps_for_each grows grows_refl grows_trans). intros dep w.
  unfold bind, get_is_selected, as_symbol.
  destruct dep as [|k| |]; try apply grows_refl.
  unfold bind, ret, get_obj.
  destruct (lookup k (all_symbols w)) as [s|] eqn:E; [|apply grows_refl].
  destruct (is_selected s) eqn:Es; simpl; [apply grows_refl|].
  unfold deselect, as_symbol, bind, ret.
  rewrite (modify_obj_Ret _ _ _ _ E). simpl.
  intros k' s' H. simpl. rewrite lookup_update, H. simpl.
  eexists; split; [reflexivity|].
  destruct (String.eqb_spec k k') as [->|]; [|apply sym_grows_refl].
  repeat split; auto. intro Hs. congruence.
Qed.

Lemma fix_dependencies_never_deselects (w : World) (k : string) :
  selected w k = true -> selected (world_of (fix_dependencies w)) k = true.
Proof.
  apply grows_keeps_selected.
  apply (keeps_for_all_symbols grows grows_refl grows_trans). intro sym.
  apply (keeps_bind grows grows_trans);
    [apply (keeps_get_obj grows grows_refl) | intro me].
  destruct (depends_on me);
    [apply (keeps_ret grows grows_refl) | apply grows_fix_dependencies_for].
Qed.

(** C1: [A] is selected and depends on [B], which is not selected;
    [fix_dependencies] returns the table as it was, with [A] selected.
    The loop of [fix_dependencies_for] deselects [dep], the dependency it
    has just found unselected, and never touches [sym]. *)
Theorem fix_dependencies_leaves_dependant :
  selected ex_fixup "A" = true /\
  option_map depends_on (lookup "A" (all_symbols ex_fixup)) = Some [VSym "B"] /\
  selected ex_fixup "B" = false /\
  fix_dependencies ex_fixup = Ret tt ex_fixup /\
  selected (world_of (fix_dependencies ex_fixup)) "A" = true.
Proof. repeat split; reflexivity. Qed.

(** ** Resolution *)

(** [dep == self.name] compares a name with the bound method
    [Symbol.name], so the self-reference test never fires. *)
Lemma name_is_not_a_method (n self : string) :
  py_eq (VStr n) (VMethod self "name") = false.
Proof. reflexivity. Qed.

(** Whatever the names in [selects], the loop of [resolve_selects] goes
    through them all and changes no symbol: each name becomes what
    [get_symbol] returns for it. *)
Lemma resolve_selects_loop_resolves (self : string) (sels : list pyval) :
  forall acc w,
    forallb is_name sels = true ->
    exists w',
      resolve_selects_loop self sels acc w =
        Ret (acc ++ map (resolve_name w) sels) w' /\
      all_symbols w' = all_symbols w.
Proof.
  induction sels as [|sel sels IH]; intros acc w Hn; simpl in *.
  - exists w. now rewrite app_nil_r.
  - apply andb_prop in Hn. destruct Hn as [Hsel Hrest].
    destruct sel as [n| | |]; try discriminate.
    assert (Hget : exists w1, get_symbol (VStr n) w =
                                Ret (resolve_name w (VStr n)) w1 /\
                              all_symbols w1 = all_symbols w).
    { unfold get_symbol, resolve_name.
      destruct (lookup n (all_symbols w)); eexists; split; reflexivity. }
    destruct Hget as (w1 & Hget & Hw1).
    destruct (IH (acc ++ [resolve_name w (VStr n)]) w1 Hrest)
      as (w' & Hrun & Hw').
    exists w'. split; [|congruence].
    step (eq_refl (Ret tt w)). step Hget. rewrite Hrun.
    rewrite <- app_assoc. simpl app.
    replace (map (resolve_name w1) sels) with (map (resolve_name w) sels);
      [reflexivity|].
    apply map_ext. intro v. unfold resolve_name. now rewrite Hw1.
Qed.

(** A symbol that names itself in [selects] has itself in [selects] once
    [resolve_selects] has run. *)
Lemma resolve_selects_keeps_self (self : string) (me : Symbol) (w : World) :
  lookup self (all_symbols w) = Some me ->
  forallb is_name (selects me) = true ->
  In (VStr self) (selects me) ->
  exists w' me',
    resolve_selects self w = Ret tt w' /\
    lookup self (all_symbols w') = Some me' /\
    In (VSym self) (selects me').
Proof.
  intros Hme Hn Hin. unfold resolve_selects.
  destruct (resolve_selects_loop_resolves self (selects me) [] w Hn)
    as (w1 & Hloop & Hw1).
  assert (Hme1 : lookup self (all_symbols w1) = Some me) by congruence.
  eexists. eexists. split; [|split].
  - step (get_obj_Ret _ _ _ Hme). step Hloop.
    exact (modify_obj_Ret _ _ _ _ Hme1).
  - simpl. rewrite lookup_update, Hme1. simpl. rewrite String.eqb_refl.
    reflexivity.
  - simpl. apply (in_map (resolve_name w)) in Hin.
    simpl in Hin. now rewrite Hme in Hin.
Qed.

(** Adding a dependant changes no key and no edge list. *)
Lemma declared_update (k : string) (f : Symbol -> Symbol) (w : World) (v : pyval) :
  declared (with_symbols (update k f (all_symbols w)) w) v = declared w v.
Proof.
  destruct v as [n| | |]; simpl; try reflexivity.
  rewrite lookup_update. now destruct (lookup n (all_symbols w)).
Qed.

(** When every name in [depends_on] is declared, the loop of
    [resolve_dependencies] goes through them all and turns each into the
    link to the symbol of that name; on the way it only adds dependants. *)
Lemma resolve_dependencies_loop_resolves (self : string) (deps : list pyval) :
  forall acc w,
    forallb (declared w) deps = true ->
    exists w',
      resolve_dependencies_loop self deps acc w =
        Ret (acc ++ map (resolve_name w) deps) w' /\
      forall k, option_map (fun s => (depends_on s, selects s))
                           (lookup k (all_symbols w')) =
                option_map (fun s => (depends_on s, selects s))
                           (lookup k (all_symbols w)).
Proof.
  induction deps as [|dep deps IH]; intros acc w Hd; simpl in *.
  - exists w. now rewrite app_nil_r.
  - apply andb_prop in Hd. destruct Hd as [Hdep Hrest].
    destruct dep as [n| | |]; simpl in Hdep; try discriminate.
    destruct (lookup n (all_symbols w)) as [s|] eqn:Hn; [|discriminate].
    set (f := fun s => set_dependants (dependants s ++ [VSym self]) s).
    set (w1 := with_symbols (update n f (all_symbols w)) w).
    assert (Hrest1 : forallb (declared w1) deps = true).
    { rewrite forallb_forall in *. intros v Hv.
      unfold w1. rewrite declared_update. auto. }
    destruct (IH (acc ++ [VSym n]) w1 Hrest1) as (w' & Hrun & Hedges).
    exists w'. split.
    + step (eq_refl (Ret tt w)).
      assert (Hget : get_symbol (VStr n) w = Ret (VSym n) w)
        by (unfold get_symbol; now rewrite Hn).
      step Hget.
      assert (Hadd : add_dependant (VSym n) (VSym self) w = Ret tt w1).
      { unfold add_dependant, as_symbol. step (eq_refl (Ret n w)).
        exact (modify_obj_Ret n f _ _ Hn). }
      step Hadd. rewrite Hrun, <- app_assoc. simpl. rewrite Hn.
      replace (map (resolve_name w1) deps) with (map (resolve_name w) deps);
        [reflexivity|].
      apply map_ext. intro v. unfold resolve_name, w1.
      destruct v; try reflexivity. simpl. rewrite lookup_update.
      now destruct (lookup s0 (all_symbols w)).
    + intro k. rewrite Hedges. unfold w1. simpl. rewrite lookup_update.
      destruct (lookup k (all_symbols w)); [|reflexivity].
      simpl. now destruct (String.eqb n k).
Qed.

(** A symbol that names itself in [depends_on], all of whose dependencies
    are declared, depends on itself once [resolve_dependencies] has run. *)
Lemma resolve_dependencies_keeps_self (self : string) (me : Symbol) (w : World) :
  lookup self (all_symbols w) = Some me ->
  forallb (declared w) (depends_on me) = true ->
  In (VStr self) (depends_on me) ->
  exists w' me',
    resolve_dependencies self w = Ret tt w' /\
    lookup self (all_symbols w') = Some me' /\
    In (VSym self) (depends_on me').
Proof.
  intros Hme Hd Hin. unfold resolve_dependencies.
  destruct (resolve_dependencies_loop_resolves self (depends_on me) [] w Hd)
    as (w1 & Hloop & Hedges).
  pose proof (Hedges self) as He. rewrite Hme in He.
  destruct (lookup self (all_symbols w1)) as [me1|] eqn:Hme1; [|discriminate].
  eexists. eexists. split; [|split].
  - step (get_obj_Ret _ _ _ Hme). step Hloop.
    exact (modify_obj_Ret _ _ _ _ Hme1).
  - simpl. rewrite lookup_update, Hme1. simpl. rewrite String.eqb_refl.
    reflexivity.
  - simpl. apply (in_map (resolve_name w)) in Hin.
    simpl in Hin. now rewrite Hme in Hin.
Qed.

(** C4: [config A] with [depends on A] and [select A].  Resolution prints
    nothing and turns both names into links to [A] itself: afterwards [A]
    is in its own [depends_on], [selects] and [dependants]. *)
Theorem resolve_keeps_self_edges :
  exists w,
    resolve_symbols ex_self = Ret tt w /\
    stdout w = [] /\
    option_map depends_on (lookup "A" (all_symbols w)) = Some [VSym "A"] /\
    option_map selects (lookup "A" (all_symbols w)) = Some [VSym "A"] /\
    option_map dependants (lookup "A" (all_symbols w)) = Some [VSym "A"].
Proof. eexists. repeat split; reflexivity. Qed.

(** A dependency on a name that is not in the table ends the run, whatever
    comes after it in the list. *)
Lemma resolve_dependencies_loop_unknown
      (self n : string) (rest acc : list pyval) (w : World) :
  lookup n (all_symbols w) = None ->
  resolve_dependencies_loop self (VStr n :: rest) acc w =
  Exc AttributeError
      (with_stdout (stdout w ++ [("Error: Config '" ++ n ++ "' cannot found")%string]) w).
Proof.
  intro H. simpl. unfold bind, ret, get_symbol. now rewrite H.
Qed.

(** C5: [A] depends on the undeclared [X].  [get_symbol] reports the name
    and evaluates to [None]; [nd.add_dependant(self)] then raises
    [AttributeError], which ends the run with the second edge of [A] still
    a name.  On the [selects] side the same lookup goes through: [None]
    takes the place of the edge and the next edge is resolved. *)
Theorem resolve_unknown_dependency_raises :
  (exists w,
     resolve_symbols ex_dangling = Exc AttributeError w /\
     stdout w = ["Error: Config 'X' cannot found"] /\
     option_map depends_on (lookup "A" (all_symbols w))
       = Some [VStr "X"; VStr "B"]) /\
  (exists w,
     resolve_symbols ex_dangling_select = Ret tt w /\
     stdout w = ["Error: Config 'Y' cannot found"] /\
     option_map selects (lookup "A" (all_symbols w))
       = Some [VNone; VSym "B"]).
Proof. split; eexists; repeat split; reflexivity. Qed.

(** ** Explicit selection *)

(** A requested name that is not in the table ends the run, whatever
    names come after it. *)
Lemma select_configs_unknown (depth : nat) (cname : string)
      (rest : list string) (w : World) :
  lookup cname (all_symbols w) = None ->
  select_configs depth (cname :: rest) w =
  Exc AttributeError
      (with_stdout (stdout w ++ [("Error: Config '" ++ cname ++ "' cannot found")%string]) w).
Proof.
  intro H. unfold select_configs. simpl. unfold bind, get_symbol.
  now rewrite H.
Qed.

(** C6: [select_configs(["X", "B"])] on a table without [X].  The lookup
    reports [X] and evaluates to [None]; calling [select] on it raises
    [AttributeError], and [B] is never reached. *)
Theorem select_configs_unknown_name_raises :
  exists w,
    select_configs 10 ["X"; "B"] ex_pair = Exc AttributeError w /\
    stdout w = ["Error: Config 'X' cannot found"] /\
    selected w "B" = false /\
    selected (world_of (select_configs 10 ["B"] ex_pair)) "B" = true.
Proof. eexists. repeat split; reflexivity. Qed.

(** ** Option lines *)

(** C7 (as the code has it): [default y] sets [is_default], [default n]
    clears it, and any other token leaves it as it was.  So [default n]
    leaves the flag unchanged only when it is not set. *)
Theorem parse_default_flag (tk : Tokenizer.t) (sym : string) (s : Symbol) (w : World) :
  lookup sym (all_symbols w) = Some s ->
  let tok := fst (Tokenizer.get_token tk) in
  default_flag (world_of (Option.parse_default tk sym w)) sym =
  Some (if String.eqb tok "y" then true
        else if String.eqb tok "n" then false
        else is_default s).
Proof.
  intros Hs tok. unfold Option.parse_default, default_flag.
  subst tok. destruct (Tokenizer.get_token tk) as [tok tk']. simpl fst.
  unfold make_default.
  destruct (String.eqb tok "y").
  - step (modify_obj_Ret sym (set_is_default true) _ _ Hs).
    simpl. rewrite lookup_update, Hs. simpl. now rewrite String.eqb_refl.
  - destruct (String.eqb tok "n").
    + step (modify_obj_Ret sym (set_is_default false) _ _ Hs).
      simpl. rewrite lookup_update, Hs. simpl. now rewrite String.eqb_refl.
    + simpl. now rewrite Hs.
Qed.

Lemma parse_default_flag_witness :
  default_flag
    (world_of (Option.parse_default (tokens ["y"; nl]) "A"
                 (parsed [config "A" [] [] false]))) "A" = Some true.
Proof.
  exact (parse_default_flag (tokens ["y"; nl]) "A" _
           (parsed [config "A" [] [] false]) eq_refl).
Defined.

(** C7 fails as stated: after [default y] has set the flag, [default n]
    does not leave it unchanged. *)
Lemma parse_default_n_after_y :
  let w0 := parsed [config "A" [] [] false] in
  let w1 := world_of (Option.parse_default (tokens ["y"; nl]) "A" w0) in
  let w2 := world_of (Option.parse_default (tokens ["n"; nl]) "A" w1) in
  default_flag w1 "A" = Some true /\
  default_flag w2 "A" = Some false /\
  default_flag w2 "A" <> default_flag w1 "A".
Proof. repeat split; try reflexivity. discriminate. Qed.

(** ** Quoted strings *)

Lemma get_last_char (s : string) : forall c,
  String.get (String.length s) (String c s) = Some (last_char c s).
Proof.
  induction s as [|c' s IH]; intro c; [reflexivity|].
  simpl String.length. simpl last_char. rewrite <- IH. reflexivity.
Qed.

Lemma index_first (c : ascii) (s : string) (w : World) :
  Option.index (String c s) 0 w = Ret c w.
Proof. reflexivity. Qed.

Lemma index_last (c : ascii) (s : string) (w : World) :
  Option.index (String c s) (String.length (String c s) - 1) w =
  Ret (last_char c s) w.
Proof.
  unfold Option.index.
  replace (String.length (String c s) - 1) with (String.length s)
    by (simpl; lia).
  now rewrite get_last_char.
Qed.

(** C8 (as the code has it): a non-empty token is accepted exactly when
    its first character is a quote character and its last character is a
    quote character, the same one or not, and the result is the token
    with all quote characters stripped from both ends.  Otherwise a
    diagnostic is printed, the token (the tokenizer's current one) is
    pushed back and the result is the empty string. *)
Theorem parse_string_accepts (tk : Tokenizer.t) (c : ascii) (s : string) (w : World) :
  let tok := String c s in
  Tokenizer.curr_token tk = tok ->
  Option.parse_string tk tok w =
  if is_quote c then
    if is_quote (last_char c s)
    then Ret (strip [quotation; apostrophe] tok, tk) w
    else Ret (EmptyString, Tokenizer.put_token (Some tok) tk)
             (world_of (Tokenizer.error tk
                "String must end with an apostrophe or a quotation" w))
  else Ret (EmptyString, Tokenizer.put_token (Some tok) tk)
           (world_of (Tokenizer.error tk
              "String must start with an apostrophe or a quotation" w)).
Proof.
  intros tok Hcur. unfold Option.parse_string, is_quote.
  assert (Hput : Tokenizer.put_token None tk = Tokenizer.put_token (Some tok) tk).
  { unfold Tokenizer.put_token. now rewrite Hcur. }
  step (index_first c s w). cbv beta zeta.
  destruct (Ascii.eqb c apostrophe) eqn:E1;
    destruct (Ascii.eqb c quotation) eqn:E2; cbn [negb andb orb];
    try (rewrite Hput; reflexivity);
    (step (index_last c s w); cbv beta;
     destruct (Ascii.eqb (last_char c s) apostrophe);
     destruct (Ascii.eqb (last_char c s) quotation); cbn [negb andb orb];
     try reflexivity; rewrite Hput; reflexivity).
Qed.

Lemma parse_string_accepts_witness :
  let tok := "'Opt A'" in
  let tk := snd (Tokenizer.get_token (tokens [tok])) in
  Option.parse_string tk tok (parsed []) = Ret ("Opt A", tk) (parsed []).
Proof.
  intros tok tk.
  exact (parse_string_accepts tk "'"%char "Opt A'" (parsed []) eq_refl).
Defined.

(** C8 fails as stated: a token that opens with an apostrophe and closes
    with a quotation mark is accepted, with no diagnostic and nothing
    pushed back; and for a token in quotation marks whose content is
    itself in apostrophes, the result is not the content between the
    delimiters, the apostrophes are stripped with them. *)
Lemma parse_string_mismatched_quotes :
  let tok := String apostrophe ("abc" ++ String quotation EmptyString) in
  let tk := snd (Tokenizer.get_token (tokens [tok])) in
  let tok' := String quotation ("'a'" ++ String quotation EmptyString) in
  let tk' := snd (Tokenizer.get_token (tokens [tok'])) in
  apostrophe <> quotation /\
  Option.parse_string tk tok (parsed []) = Ret ("abc", tk) (parsed []) /\
  Option.parse_string tk' tok' (parsed []) = Ret ("a", tk') (parsed []).
Proof. split; [discriminate | split; reflexivity]. Qed.

(** On the empty token, which the tokenizer returns at the end of the
    stream, [s[0]] raises. *)
Lemma parse_string_empty_token (tk : Tokenizer.t) (w : World) :
  Option.parse_string tk EmptyString w = Exc IndexError w.
Proof. reflexivity. Qed.

(** ** [select] does not depend on [is_selectable] *)

Lemma sim_lookup (w1 w2 : World) (k : string) :
  sim w1 w2 ->
  option_map erase_sym (lookup k (all_symbols w1)) =
  option_map erase_sym (lookup k (all_symbols w2)).
Proof. unfold sim. intro H. rewrite <- !lookup_erase. now rewrite H. Qed.

Lemma sym_sim_fields (s1 s2 : Symbol) :
  sym_sim s1 s2 ->
  selects s1 = selects s2 /\ depends_on s1 = depends_on s2 /\
  dependants s1 = dependants s2 /\ is_selected s1 = is_selected s2.
Proof.
  unfold sym_sim. intro H. repeat split.
  - exact (f_equal selects H).
  - exact (f_equal depends_on H).
  - exact (f_equal dependants H).
  - exact (f_equal is_selected H).
Qed.

Lemma sim_selected (w1 w2 : World) (k : string) :
  sim w1 w2 -> selected w1 k = selected w2 k.
Proof.
  intro H. apply (sim_lookup _ _ k) in H. unfold selected.
  destruct (lookup k (all_symbols w1)), (lookup k (all_symbols w2));
    simpl in H; try discriminate; [|reflexivity].
  unfold erase_sym, set_is_selectable in H. congruence.
Qed.

Lemma erase_update_selected (k : string) (b : bool) (t : table) :
  erase_tbl (update k (set_is_selected b) t) =
  update k (set_is_selected b) (erase_tbl t).
Proof.
  induction t as [|[k0 s0] t IH]; simpl; [reflexivity|].
  rewrite IH. destruct (String.eqb k k0); reflexivity.
Qed.

Lemma msim_ret {A} (Ra : A -> A -> Prop) (a b : A) :
  Ra a b -> msim Ra (ret a) (ret b).
Proof. intros H w1 w2 Hw. simpl. auto. Qed.

Lemma msim_raise {A} (Ra : A -> A -> Prop) (e : exn) :
  msim Ra (raise e) (raise e).
Proof. intros w1 w2 Hw. simpl. auto. Qed.

Lemma msim_bind {A B} (Ra : A -> A -> Prop) (Rb : B -> B -> Prop)
      (m1 m2 : M A) (f1 f2 : A -> M B) :
  msim Ra m1 m2 ->
  (forall a b, Ra a b -> msim Rb (f1 a) (f2 b)) ->
  msim Rb (bind m1 f1) (bind m2 f2).
Proof.
  intros Hm Hf w1 w2 Hw. unfold bind. specialize (Hm w1 w2 Hw).
  destruct (m1 w1) as [a u1|e u1], (m2 w2) as [b u2|e' u2]; simpl in Hm;
    try contradiction.
  - destruct Hm as [Hab Hu]. exact (Hf a b Hab u1 u2 Hu).
  - exact Hm.
Qed.

Lemma msim_for_each {A} (body : A -> M unit) (l : list A) :
  (forall x, msim eq (body x) (body x)) ->
  msim eq (for_each body l) (for_each body l).
Proof.
  intro Hb. induction l as [|x l IH]; simpl.
  - now apply msim_ret.
  - eapply msim_bind; [apply Hb | intros _ _ _; exact IH].
Qed.

Lemma msim_get_obj (k : string) : msim sym_sim (get_obj k) (get_obj k).
Proof.
  intros w1 w2 Hw. unfold get_obj. pose proof (sim_lookup _ _ k Hw) as H.
  destruct (lookup k (all_symbols w1)), (lookup k (all_symbols w2));
    simpl in *; try discriminate; split; auto.
  unfold sym_sim. congruence.
Qed.

Lemma msim_modify_selectable (k : string) (b : bool) :
  msim eq (modify_obj k (set_is_selectable b)) (modify_obj k (set_is_selectable b)).
Proof.
  intros w1 w2 Hw. unfold modify_obj. pose proof (sim_lookup _ _ k Hw) as H.
  destruct (lookup k (all_symbols w1)), (lookup k (all_symbols w2));
    simpl in *; try discriminate; split; auto.
  unfold sim. simpl. now rewrite !erase_update_selectable.
Qed.

Lemma msim_modify_selected (k : string) (b : bool) :
  msim eq (modify_obj k (set_is_selected b)) (modify_obj k (set_is_selected b)).
Proof.
  intros w1 w2 Hw. unfold modify_obj. pose proof (sim_lookup _ _ k Hw) as H.
  destruct (lookup k (all_symbols w1)), (lookup k (all_symbols w2));
    simpl in *; try discriminate; split; auto.
  unfold sim in *. simpl. rewrite !erase_update_selected. now rewrite Hw.
Qed.

Lemma msim_as_symbol (v : pyval) : msim eq (as_symbol v) (as_symbol v).
Proof. destruct v; simpl; first [now apply msim_ret | apply msim_raise]. Qed.

Lemma msim_get_is_selected (v : pyval) :
  msim eq (get_is_selected v) (get_is_selected v).
Proof.
  unfold get_is_selected.
  eapply msim_bind; [apply msim_as_symbol | intros k _ <-].
  eapply msim_bind; [apply msim_get_obj | intros s s' Hs].
  apply msim_ret. apply sym_sim_fields in Hs. tauto.
Qed.

Lemma msim_all_selected (deps : list pyval) :
  msim eq (all_selected deps) (all_selected deps).
Proof.
  induction deps as [|d deps IH]; simpl; [now apply msim_ret|].
  eapply msim_bind; [apply msim_get_is_selected | intros b _ <-].
  destruct b; [exact IH | now apply msim_ret].
Qed.

Lemma msim_select (depth : nat) : forall self,
  msim eq (select depth self) (select depth self).
Proof.
  induction depth as [|depth IH]; intro self; simpl.
  - apply msim_raise.
  - eapply msim_bind; [apply msim_get_obj | intros a a' Ha].
    apply sym_sim_fields in Ha. destruct Ha as (_ & <- & _ & _).
    eapply msim_bind; [apply msim_all_selected | intros ok _ <-].
    destruct ok; simpl; [|now apply msim_ret].
    eapply msim_bind; [apply msim_get_obj | intros b b' Hb].
    apply sym_sim_fields in Hb. destruct Hb as (_ & _ & <- & _).
    eapply msim_bind.
    { apply msim_for_each. intro dep. unfold make_selectable.
      eapply msim_bind; [apply msim_as_symbol | intros k _ <-].
      apply msim_modify_selectable. }
    intros _ _ _.
    eapply msim_bind; [apply msim_get_obj | intros c c' Hc].
    apply sym_sim_fields in Hc. destruct Hc as (_ & <- & _ & _).
    eapply msim_bind; [apply msim_all_selected | intros ok _ <-].
    destruct ok; simpl; [|now apply msim_ret].
    eapply msim_bind; [apply msim_modify_selected | intros _ _ _].
    eapply msim_bind; [apply msim_get_obj | intros d d' Hd].
    apply sym_sim_fields in Hd. destruct Hd as (<- & _ & _ & _).
    apply msim_for_each. intro sel. unfold select_unless_none.
    destruct (negb (py_eq sel VNone)); [|now apply msim_ret].
    eapply msim_bind; [apply msim_as_symbol | intros k _ <-; apply IH].
Qed.

(** [select] writes no file. *)
Lemma select_keeps_files (depth : nat) (self : string) (w : World) :
  files (world_of (select depth self w)) = files w.
Proof.
  apply (keeps_select (fun w w' => files w' = files w)).
  - reflexivity.
  - intros a b c H1 H2. congruence.
  - intros k u. unfold modify_obj.
    destruct (lookup k (all_symbols u)); reflexivity.
  - intros k u. unfold modify_obj.
    destruct (lookup k (all_symbols u)); reflexivity.
Qed.

(** ** The output file *)

Lemma string_app_assoc (a b c : string) :
  ((a ++ b) ++ c)%string = (a ++ (b ++ c))%string.
Proof. induction a as [|x a IH]; simpl; [reflexivity | now rewrite IH]. Qed.

Lemma string_app_nil (a : string) : (a ++ EmptyString)%string = a.
Proof. induction a as [|x a IH]; simpl; [reflexivity | now rewrite IH]. Qed.

Lemma file_get_put (fname : string) (g : string -> string)
      (fs : list (string * string)) :
  file_get fname (file_put fname g fs) =
  Some (g (match file_get fname fs with Some c => c | None => EmptyString end)).
Proof.
  induction fs as [|[n c] fs IH]; simpl.
  - now rewrite String.eqb_refl.
  - destruct (String.eqb fname n) eqn:E; simpl; rewrite E; [reflexivity | exact IH].
Qed.

Lemma settled_select (depth : nat) (w : World) (k : string) :
  settled depth w = true ->
  In k (keys (all_symbols w)) ->
  selected w k = true ->
  exists w', select depth k w = Ret tt w' /\ sim w' w.
Proof.
  unfold settled. rewrite forallb_forall. intros H Hin Hsel.
  specialize (H k Hin). rewrite Hsel in H. simpl in H.
  destruct (select depth k w) as [[] w'|]; [|discriminate].
  exists w'. split; [reflexivity|].
  unfold same_selection in H.
  destruct (table_eq_dec (erase_tbl (all_symbols w')) (erase_tbl (all_symbols w)));
    [assumption | discriminate].
Qed.

(** On a world that agrees with a settled one, [select] on a selected
    symbol returns and the two still agree. *)
Lemma settled_select_sim (depth : nat) (w w1 : World) (k : string) :
  settled depth w = true ->
  In k (keys (all_symbols w)) ->
  selected w k = true ->
  sim w1 w ->
  exists w1', select depth k w1 = Ret tt w1' /\ sim w1' w /\
              files w1' = files w1.
Proof.
  intros Hs Hin Hsel Hsim.
  destruct (settled_select depth w k Hs Hin Hsel) as (w' & Hrun & Hw').
  pose proof (msim_select depth k w1 w Hsim) as H.
  pose proof (select_keeps_files depth k w1) as Hf.
  rewrite Hrun in H.
  destruct (select depth k w1) as [[] w1'|]; simpl in H; [|contradiction].
  exists w1'. repeat split; [|exact Hf].
  unfold sim in *. destruct H as [_ H]. congruence.
Qed.

Lemma write_loop (depth : nat) (fname : string) (w : World) :
  settled depth w = true ->
  forall names w1 c,
    incl names (keys (all_symbols w)) ->
    sim w1 w ->
    file_get fname (files w1) = Some c ->
    exists w2,
      for_each (write_if_selected depth fname) names w1 = Ret tt w2 /\
      sim w2 w /\
      file_get fname (files w2) = Some (c ++ lines_for w names)%string.
Proof.
  intro Hs. induction names as [|k names IH]; intros w1 c Hin Hsim Hc.
  - exists w1. simpl. unfold lines_for. simpl. rewrite string_app_nil. auto.
  - assert (Hk : In k (keys (all_symbols w))) by (apply Hin; now left).
    assert (Hrest : incl names (keys (all_symbols w)))
      by (intros x Hx; apply Hin; now right).
    destruct (lookup_in_keys k _ Hk) as (s & Hlk).
    pose proof (sim_lookup _ _ k Hsim) as Hl. rewrite Hlk in Hl.
    destruct (lookup k (all_symbols w1)) as [s1|] eqn:Hlk1; [|discriminate].
    pose proof (sim_selected _ _ k Hsim) as Hsel.
    assert (Hget : get_symbol (VStr k) w1 = Ret (VSym k) w1)
      by (unfold get_symbol; now rewrite Hlk1).
    assert (Hflag : get_is_selected (VSym k) w1 = Ret (selected w k) w1).
    { rewrite <- Hsel. apply (get_is_selected_link w1 (VSym k)).
      simpl. now rewrite Hlk1. }
    simpl for_each. unfold write_if_selected at 1.
    unfold lines_for. simpl filter.
    destruct (selected w k) eqn:Ek.
    + destruct (settled_select_sim depth w w1 k Hs Hk Ek Hsim)
        as (w1' & Hrun & Hsim' & Hfiles).
      set (w1'' := with_files
                     (file_put fname (fun c => (c ++ config_line k)%string)
                               (files w1')) w1').
      destruct (IH w1'' (c ++ config_line k)%string Hrest) as (w2 & Hloop & Hsim2 & Hc2).
      { exact Hsim'. }
      { unfold w1''. simpl. rewrite file_get_put, Hfiles, Hc. reflexivity. }
      exists w2. split; [|split]; [|exact Hsim2|].
      * unfold bind at 1. unfold bind at 1. rewrite Hget.
        unfold bind at 1. rewrite Hflag.
        unfold bind at 1. unfold bind at 1. simpl as_symbol. unfold ret at 1.
        rewrite Hrun. exact Hloop.
      * rewrite Hc2. unfold lines_for. simpl. now rewrite string_app_assoc.
    + destruct (IH w1 c Hrest Hsim Hc) as (w2 & Hloop & Hsim2 & Hc2).
      exists w2. split; [|split]; [|exact Hsim2|exact Hc2].
      unfold bind at 1. unfold bind at 1. rewrite Hget.
      unfold bind at 1. rewrite Hflag. exact Hloop.
Qed.

(** X25: the writer calls [select] on every selected symbol it visits
    before it writes the symbol's line.  On a table where those calls
    return and change no [is_selected] flag, the file holds the header
    line, a blank line, and then the line [CONFIG_<NAME>=y] of each
    selected symbol and of no other, in the order of the table; the flags
    are afterwards what they were. *)
Theorem write_selected_to_settled (depth : nat) (fname : string) (w : World) :
  settled depth w = true ->
  exists w',
    write_selected_to depth fname w = Ret tt w' /\
    file_get fname (files w') = Some (header w ++ selected_lines w)%string /\
    same_selection w' w = true.
Proof.
  intro Hs. unfold write_selected_to.
  set (w0 := with_files
               (file_put fname (fun c => (c ++ header w)%string)
                  (file_put fname (fun _ => EmptyString) (files w))) w).
  destruct (write_loop depth fname w Hs (keys (all_symbols w)) w0 (header w))
    as (w' & Hloop & Hsim & Hc).
  - apply incl_refl.
  - reflexivity.
  - unfold w0. simpl. rewrite !file_get_put. reflexivity.
  - exists w'. split; [|split].
    + unfold bind, file_open_wt, file_write, for_all_symbols. exact Hloop.
    + exact Hc.
    + unfold same_selection.
      destruct (table_eq_dec (erase_tbl (all_symbols w')) (erase_tbl (all_symbols w)));
        [reflexivity | contradiction].
Qed.

Lemma write_selected_to_settled_witness :
  exists w',
    write_selected_to 10 ".config" ex_output_settled = Ret tt w' /\
    file_get ".config" (files w') =
      Some (header ex_output_settled ++ selected_lines ex_output_settled)%string /\
    same_selection w' ex_output_settled = true.
Proof.
  apply (write_selected_to_settled 10 ".config" ex_output_settled).
  vm_compute. reflexivity.
Defined.

(** C9: the writer leaves out a selected symbol.  After [-s A,C] the
    symbols [A] and [C] are selected and [B1], [B2] are not.  The
    writer's own call of [select] on [A] selects both; [B1] has been
    passed by then and [B2] has not, so the file has a line for [B2] and
    none for [B1], which is selected when the file is closed: the file
    lists neither the symbols selected in the table the writer was given
    nor those selected in the table it leaves. *)
Lemma write_selected_to_unsettled :
  exists w',
    write_selected_to 10 ".config" ex_output = Ret tt w' /\
    keys (all_symbols ex_output) = ["B1"; "A"; "B2"; "C"] /\
    map (selected ex_output) ["B1"; "A"; "B2"; "C"] = [false; true; false; true] /\
    map (selected w') ["B1"; "A"; "B2"; "C"] = [true; true; true; true] /\
    file_get ".config" (files w') =
      Some (header ex_output ++ config_line "A" ++ config_line "B2"
              ++ config_line "C")%string /\
    file_get ".config" (files w') <>
      Some (header ex_output ++ selected_lines ex_output)%string /\
    file_get ".config" (files w') <>
      Some (header ex_output ++ selected_lines w')%string.
Proof.
  eexists. split; [vm_compute; reflexivity|].
  repeat split; try (vm_compute; reflexivity);
    vm_compute; intro H; discriminate H.
Qed.

(** * Further properties of the selection engine *)

Lemma lookup_keys (k : string) (t : table) (s : Symbol) :
  lookup k t = Some s -> In k (keys t).
Proof.
  induction t as [|[k0 s0] t IH]; simpl; [discriminate|].
  destruct (String.eqb_spec k k0) as [->|Hne]; [now left | right; auto].
Qed.

Lemma frame_of_selectable (b : bool) (s : Symbol) :
  frame_of (set_is_selectable b s) = frame_of s.
Proof. reflexivity. Qed.

Lemma frame_of_selected (b : bool) (s : Symbol) :
  frame_of (set_is_selected b s) = frame_of s.
Proof. reflexivity. Qed.

Lemma same_frame_refl (w : World) : same_frame w w.
Proof. repeat split; reflexivity. Qed.

Lemma same_frame_trans (a b c : World) :
  same_frame a b -> same_frame b c -> same_frame a c.
Proof.
  intros (H1 & H2 & H3 & H4 & H5) (G1 & G2 & G3 & G4 & G5).
  repeat split; try congruence; intro k; now rewrite G5, H5.
Qed.

Lemma same_frame_modify (k : string) (f : Symbol -> Symbol) :
  (forall s, frame_of (f s) = frame_of s) ->
  keeps same_frame (modify_obj k f).
Proof.
  intros Hf w. unfold modify_obj.
  destruct (lookup k (all_symbols w)); simpl; [|apply same_frame_refl].
  repeat split; simpl; try reflexivity.
  - apply keys_update.
  - intro k'. rewrite lookup_update.
    destruct (lookup k' (all_symbols w)); simpl; [|reflexivity].
    destruct (String.eqb k k'); [now rewrite Hf | reflexivity].
Qed.

Lemma same_frame_select (depth : nat) (self : string) :
  keeps same_frame (select depth self).
Proof.
  apply (keeps_select same_frame same_frame_refl same_frame_trans);
    intro k; apply same_frame_modify; intro s; reflexivity.
Qed.

(** [is_selectable] is never cleared either. *)
Lemma selectable_select (depth : nat) (self : string) (w : World) (k : string) :
  selectable w k = true -> selectable (world_of (select depth self w)) k = true.
Proof.
  revert w.
  apply (keeps_select
           (fun w w' => selectable w k = true -> selectable w' k = true)).
  - auto.
  - auto.
  - intros k0 w. unfold modify_obj.
    destruct (lookup k0 (all_symbols w)); simpl; auto.
    unfold selectable. simpl. rewrite lookup_update.
    destruct (lookup k (all_symbols w)); simpl; auto.
    destruct (String.eqb k0 k); auto.
  - intros k0 w. unfold modify_obj.
    destruct (lookup k0 (all_symbols w)); simpl; auto.
    unfold selectable. simpl. rewrite lookup_update.
    destruct (lookup k (all_symbols w)); simpl; auto.
    destruct (String.eqb k0 k); auto.
Qed.

(** X1: [select], with all it cascades into, writes nothing but the flags
    [is_selected] and [is_selectable]: the keys of the table, every other
    field of every symbol, what has been printed, the files and the menu
    title are what they were, whether the call returns or raises; and a
    set [is_selectable] flag stays set. *)
Theorem select_writes_flags_only (depth : nat) (self : string) (w : World) :
  same_frame w (world_of (select depth self w)) /\
  forall k, selectable w k = true ->
            selectable (world_of (select depth self w)) k = true.
Proof.
  split; [apply same_frame_select | intro k; apply selectable_select].
Qed.

(** ** Invariants of the selection engine

    [select] sets [is_selected] on a symbol only after its second loop has
    found every dependency selected.  A property of worlds that survives
    that one write, and the writes to [is_selectable], survives [select]
    and the passes built on it. *)

Lemma bind_Exc {A B} (m : M A) (f : A -> M B) (w w' : World) (e : exn) :
  m w = Exc e w' -> bind m f w = Exc e w'.
Proof. intro H. unfold bind. now rewrite H. Qed.

(** The loop over the dependencies never changes the world, and runs
    through only if every dependency is a selected symbol. *)
Lemma all_selected_cases (deps : list pyval) (w : World) :
  (all_selected deps w = Ret true w /\
   forallb (link_selected w) deps = true) \/
  (all_selected deps w = Ret false w /\
   forallb (link_selected w) deps = false) \/
  (exists e, all_selected deps w = Exc e w).
Proof.
  induction deps as [|d deps IH]; simpl; [now left|].
  unfold bind, get_is_selected, as_symbol.
  destruct d as [|k| |]; try (right; right; eexists; reflexivity).
  unfold bind, ret, get_obj, link_selected, selected.
  destruct (lookup k (all_symbols w)) as [s|];
    [|right; right; eexists; reflexivity].
  destruct (is_selected s); simpl; [exact IH | right; left; auto].
Qed.

Section SelectInvariant.
Variable P : World -> Prop.
Hypothesis P_table : forall w w', all_symbols w' = all_symbols w -> P w -> P w'.
Hypothesis P_selectable : forall k w,
  P w -> P (with_symbols (update k (set_is_selectable true) (all_symbols w)) w).
Hypothesis P_selected : forall k s w,
  lookup k (all_symbols w) = Some s ->
  forallb (link_selected w) (depends_on s) = true ->
  P w -> P (with_symbols (update k (set_is_selected true) (all_symbols w)) w).

Lemma through_refl (w : World) : P w -> P w.
Proof. auto. Qed.

Lemma through_trans (a b c : World) :
  (P a -> P b) -> (P b -> P c) -> P a -> P c.
Proof. auto. Qed.

Lemma through_make_selectable (dep : pyval) :
  keeps (fun w w' => P w -> P w') (make_selectable dep true).
Proof.
  intros w HP. unfold make_selectable, as_symbol, bind, ret, raise, modify_obj.
  destruct dep as [|k| |]; simpl; auto.
  destruct (lookup k (all_symbols w)); simpl; auto.
Qed.

Lemma through_select (depth : nat) : forall self,
  keeps (fun w w' => P w -> P w') (select depth self).
Proof.
  induction depth as [|depth IH]; intros self w HP; simpl; [exact HP|].
  destruct (lookup self (all_symbols w)) as [me|] eqn:Hme;
    [step (get_obj_Ret _ _ _ Hme)
    |unfold bind, get_obj; rewrite Hme; exact HP].
  destruct (all_selected_cases (depends_on me) w)
    as [[Hrun _]|[[Hrun _]|[e Hrun]]];
    [step Hrun | step Hrun; exact HP | rewrite (bind_Exc _ _ _ _ _ Hrun); exact HP].
  cbn [negb]. step (get_obj_Ret _ _ _ Hme).
  pose proof (keeps_for_each (fun w w' => P w -> P w') through_refl through_trans
                (fun dep => make_selectable dep true) (dependants me)
                through_make_selectable w HP) as HP1.
  destruct (for_each (fun dep => make_selectable dep true) (dependants me) w)
    as [[] w1|e w1] eqn:Hloop; simpl in HP1;
    [step Hloop | rewrite (bind_Exc _ _ _ _ _ Hloop); exact HP1].
  destruct (lookup self (all_symbols w1)) as [me1|] eqn:Hme1;
    [step (get_obj_Ret _ _ _ Hme1)
    |unfold bind, get_obj; rewrite Hme1; exact HP1].
  destruct (all_selected_cases (depends_on me1) w1)
    as [[Hrun1 Hmet]|[[Hrun1 _]|[e Hrun1]]];
    [step Hrun1 | step Hrun1; exact HP1
    | rewrite (bind_Exc _ _ _ _ _ Hrun1); exact HP1].
  cbn [negb]. step (modify_obj_Ret self (set_is_selected true) _ _ Hme1).
  pose proof (P_selected self me1 w1 Hme1 Hmet HP1) as HP2.
  set (w2 := with_symbols (update self (set_is_selected true) (all_symbols w1)) w1)
    in *.
  assert (Hme2 : lookup self (all_symbols w2) = Some (set_is_selected true me1)).
  { unfold w2. simpl. rewrite lookup_update, Hme1. simpl.
    now rewrite String.eqb_refl. }
  step (get_obj_Ret _ _ _ Hme2).
  revert HP2.
  apply (keeps_for_each (fun w w' => P w -> P w') through_refl through_trans).
  intro sel. unfold select_unless_none.
  destruct (negb (py_eq sel VNone));
    [|apply (keeps_ret _ through_refl)].
  apply (keeps_bind _ through_trans);
    [apply (keeps_as_symbol _ through_refl) | intro k; apply IH].
Qed.

Lemma through_print (line : string) :
  keeps (fun w w' => P w -> P w') (print line).
Proof. intros w HP. simpl. eapply P_table; [|exact HP]. reflexivity. Qed.

Lemma through_file_write (fname text : string) :
  keeps (fun w w' => P w -> P w') (file_write fname text).
Proof. intros w HP. simpl. eapply P_table; [|exact HP]. reflexivity. Qed.

Lemma through_select_defaults (depth : nat) :
  keeps (fun w w' => P w -> P w') (select_defaults depth).
Proof.
  apply (keeps_for_all_symbols _ through_refl through_trans). intro k.
  apply (keeps_bind _ through_trans);
    [apply (keeps_get_obj _ through_refl) | intro me].
  destruct (is_default me);
    [apply through_select | apply (keeps_ret _ through_refl)].
Qed.

Lemma through_select_configs (depth : nat) (clist : list string) :
  keeps (fun w w' => P w -> P w') (select_configs depth clist).
Proof.
  apply (keeps_for_each _ through_refl through_trans). intro cname.
  apply (keeps_bind _ through_trans);
    [apply (keeps_get_symbol _ through_refl through_trans through_print)
    | intro v].
  apply (keeps_bind _ through_trans);
    [apply (keeps_as_symbol _ through_refl) | intro k; apply through_select].
Qed.

Lemma through_write_selected_to (depth : nat) (fname : string) :
  keeps (fun w w' => P w -> P w') (write_selected_to depth fname).
Proof.
  unfold write_selected_to.
  apply (keeps_bind _ through_trans).
  { intros w HP. simpl. eapply P_table; [|exact HP]. reflexivity. }
  intros _. apply (keeps_bind _ through_trans).
  { intros w HP. simpl. eapply P_table; [|exact HP]. reflexivity. }
  intros _. apply (keeps_for_all_symbols _ through_refl through_trans).
  intro name. unfold write_if_selected.
  apply (keeps_bind _ through_trans);
    [apply (keeps_get_symbol _ through_refl through_trans through_print)
    | intro sym].
  apply (keeps_bind _ through_trans);
    [apply (keeps_get_is_selected _ through_refl through_trans) | intro b].
  destruct b; [|apply (keeps_ret _ through_refl)].
  apply (keeps_bind _ through_trans); [|intros _; apply through_file_write].
  apply (keeps_bind _ through_trans);
    [apply (keeps_as_symbol _ through_refl) | intro k; apply through_select].
Qed.
End SelectInvariant.

Lemma forallb_eq {A} (f g : A -> bool) (l : list A) :
  (forall x, f x = g x) -> forallb f l = forallb g l.
Proof.
  intro H. induction l as [|x l IH]; simpl; [reflexivity|].
  now rewrite H, IH.
Qed.

Lemma forallb_mono {A} (f g : A -> bool) (l : list A) :
  (forall x, f x = true -> g x = true) ->
  forallb f l = true -> forallb g l = true.
Proof.
  intros H Hf. rewrite forallb_forall in *. auto.
Qed.

Lemma dependencies_met_spec (w : World) :
  dependencies_met w = true <->
  forall k s, lookup k (all_symbols w) = Some s -> is_selected s = true ->
              forallb (link_selected w) (depends_on s) = true.
Proof.
  unfold dependencies_met. rewrite forallb_forall. split.
  - intros H k s Hk Hs. specialize (H k (lookup_keys _ _ _ Hk)).
    rewrite Hk, Hs in H. exact H.
  - intros H k _. destruct (lookup k (all_symbols w)) as [s|] eqn:Hk; [|reflexivity].
    destruct (is_selected s) eqn:Hs; [|reflexivity]. simpl. eauto.
Qed.

Lemma link_selected_table (w w' : World) (v : pyval) :
  all_symbols w' = all_symbols w -> link_selected w' v = link_selected w v.
Proof.
  intro H. destruct v; simpl; try reflexivity. unfold selected. now rewrite H.
Qed.

Lemma selected_update_selectable (k k' : string) (b : bool) (w : World) :
  selected (with_symbols (update k (set_is_selectable b) (all_symbols w)) w) k'
  = selected w k'.
Proof.
  unfold selected. simpl. rewrite lookup_update.
  destruct (lookup k' (all_symbols w)); simpl; [|reflexivity].
  now destruct (String.eqb k k').
Qed.

Lemma selected_update_selected (k k' : string) (w : World) :
  selected w k' = true ->
  selected (with_symbols (update k (set_is_selected true) (all_symbols w)) w) k'
  = true.
Proof.
  unfold selected. simpl. rewrite lookup_update.
  destruct (lookup k' (all_symbols w)); simpl; [|discriminate].
  now destruct (String.eqb k k').
Qed.

Lemma dependencies_met_table (w w' : World) :
  all_symbols w' = all_symbols w ->
  dependencies_met w = true -> dependencies_met w' = true.
Proof.
  intro H. rewrite !dependencies_met_spec. intros Hm k s Hk Hs.
  rewrite H in Hk. rewrite <- (Hm k s Hk Hs).
  apply forallb_eq. intro v. now apply link_selected_table.
Qed.

Lemma dependencies_met_selectable (k : string) (w : World) :
  dependencies_met w = true ->
  dependencies_met
    (with_symbols (update k (set_is_selectable true) (all_symbols w)) w) = true.
Proof.
  rewrite !dependencies_met_spec. intros Hm k' s' Hk Hs.
  simpl in Hk. rewrite lookup_update in Hk.
  destruct (lookup k' (all_symbols w)) as [s|] eqn:E; [|discriminate].
  simpl in Hk. injection Hk as <-.
  assert (Hsel : is_selected s = true)
    by (destruct (String.eqb k k'); exact Hs).
  assert (Hdeps : depends_on (if String.eqb k k' then set_is_selectable true s else s)
                  = depends_on s) by (destruct (String.eqb k k'); reflexivity).
  rewrite Hdeps, <- (Hm k' s E Hsel).
  apply forallb_eq. intro v. destruct v; simpl; try reflexivity.
  apply selected_update_selectable.
Qed.

Lemma dependencies_met_selected (k : string) (s : Symbol) (w : World) :
  lookup k (all_symbols w) = Some s ->
  forallb (link_selected w) (depends_on s) = true ->
  dependencies_met w = true ->
  dependencies_met
    (with_symbols (update k (set_is_selected true) (all_symbols w)) w) = true.
Proof.
  intros Hk Hmet. rewrite !dependencies_met_spec. intros Hm k' s' Hk' Hs'.
  simpl in Hk'. rewrite lookup_update in Hk'.
  destruct (lookup k' (all_symbols w)) as [s0|] eqn:E; [|discriminate].
  simpl in Hk'. injection Hk' as <-.
  assert (Hold : forallb (link_selected w)
                   (depends_on (if String.eqb k k' then set_is_selected true s0
                                else s0)) = true).
  { destruct (String.eqb_spec k k') as [->|Hne].
    - simpl. congruence.
    - exact (Hm k' s0 E Hs'). }
  revert Hold. apply forallb_mono. intros v Hv.
  destruct v; simpl in *; try discriminate.
  now apply selected_update_selected.
Qed.

(** X2: nothing in the selection engine selects a symbol over an
    unselected dependency.  If every selected symbol of a table has all
    its dependencies selected, the same holds after [select], after the
    default pass, after the explicit-selection pass and after the writer,
    whether they return or raise. *)
Theorem selection_respects_dependencies (depth : nat) (w : World) :
  dependencies_met w = true ->
  (forall self, dependencies_met (world_of (select depth self w)) = true) /\
  dependencies_met (world_of (select_defaults depth w)) = true /\
  (forall clist,
      dependencies_met (world_of (select_configs depth clist w)) = true) /\
  (forall fname,
      dependencies_met (world_of (write_selected_to depth fname w)) = true).
Proof.
  intro H. repeat split.
  - intro self.
    exact (through_select _ dependencies_met_selectable
             dependencies_met_selected depth self w H).
  - exact (through_select_defaults _ dependencies_met_selectable
             dependencies_met_selected depth w H).
  - intro clist.
    exact (through_select_configs _ dependencies_met_table
             dependencies_met_selectable dependencies_met_selected
             depth clist w H).
  - intro fname.
    exact (through_write_selected_to _ dependencies_met_table
             dependencies_met_selectable dependencies_met_selected
             depth fname w H).
Qed.

Lemma selection_respects_dependencies_witness :
  let w := world_of ((resolve_symbols ;; fix_dependencies) ex_output_parsed) in
  dependencies_met (world_of (select_configs 10 ["A"; "C"] w)) = true.
Proof.
  intro w.
  exact (proj1 (proj2 (proj2 (selection_respects_dependencies 10 w eq_refl)))
           ["A"; "C"]).
Defined.

(** ** Dependency cycles *)

Lemma deadlocked_spec (names : list string) (w : World) :
  deadlocked names w = true <->
  forall k, In k names ->
            exists s, lookup k (all_symbols w) = Some s /\
                      is_selected s = false /\
                      exists d, In d names /\ In (VSym d) (depends_on s).
Proof.
  unfold deadlocked. rewrite forallb_forall. split.
  - intros H k Hk. specialize (H k Hk).
    destruct (lookup k (all_symbols w)) as [s|]; [|discriminate].
    apply andb_prop in H. destruct H as [Hs Hd].
    exists s. repeat split; [now destruct (is_selected s)|].
    apply existsb_exists in Hd. destruct Hd as (dep & Hin & Hdep).
    destruct dep as [|d| |]; try discriminate.
    apply existsb_exists in Hdep. destruct Hdep as (d' & Hd' & Heq).
    apply String.eqb_eq in Heq. subst d'. now exists d.
  - intros H k Hk. destruct (H k Hk) as (s & -> & Hs & d & Hd & Hin).
    rewrite Hs. simpl. apply existsb_exists. exists (VSym d). split; [exact Hin|].
    apply existsb_exists. exists d. split; [exact Hd | apply String.eqb_refl].
Qed.

Lemma deadlocked_table (names : list string) (w w' : World) :
  all_symbols w' = all_symbols w ->
  deadlocked names w = true -> deadlocked names w' = true.
Proof. unfold deadlocked. now intros ->. Qed.

Lemma deadlocked_selectable (names : list string) (k : string) (w : World) :
  deadlocked names w = true ->
  deadlocked names
    (with_symbols (update k (set_is_selectable true) (all_symbols w)) w) = true.
Proof.
  rewrite !deadlocked_spec. intros H k' Hk'.
  destruct (H k' Hk') as (s & Hs & Hsel & Hd).
  simpl. rewrite lookup_update, Hs. simpl.
  eexists. split; [reflexivity|].
  destruct (String.eqb k k'); auto.
Qed.

Lemma deadlocked_selected (names : list string) (k : string) (s : Symbol)
      (w : World) :
  lookup k (all_symbols w) = Some s ->
  forallb (link_selected w) (depends_on s) = true ->
  deadlocked names w = true ->
  deadlocked names
    (with_symbols (update k (set_is_selected true) (all_symbols w)) w) = true.
Proof.
  intros Hk Hmet. rewrite !deadlocked_spec. intros H k' Hk'.
  destruct (H k' Hk') as (s0 & Hs0 & Hsel & d & Hd & Hin).
  simpl. rewrite lookup_update, Hs0. simpl.
  destruct (String.eqb_spec k k') as [->|Hne].
  - exfalso. assert (s0 = s) by congruence. subst s0.
    rewrite forallb_forall in Hmet. specialize (Hmet _ Hin). simpl in Hmet.
    destruct (H d Hd) as (sd & Hsd & Hseld & _).
    unfold selected in Hmet. rewrite Hsd in Hmet. congruence.
  - exists s0. split; [reflexivity|]. split; [exact Hsel|]. now exists d.
Qed.

Lemma deadlocked_unselected (names : list string) (w : World) (k : string) :
  deadlocked names w = true -> In k names -> selected w k = false.
Proof.
  rewrite deadlocked_spec. intros H Hk.
  destruct (H k Hk) as (s & Hs & Hsel & _). unfold selected. now rewrite Hs.
Qed.

(** X3: symbols that depend on each other in a cycle (a symbol that
    depends on itself is the shortest one), or that depend on such
    symbols, are never selected: if every symbol of a set is unselected
    and has a dependency in the set, then so it is after [select] on any
    symbol, after the default pass and after the explicit-selection
    pass. *)
Theorem dependency_cycle_never_selected
        (depth : nat) (names : list string) (w : World) (k : string) :
  deadlocked names w = true ->
  In k names ->
  (forall self, selected (world_of (select depth self w)) k = false) /\
  selected (world_of (select_defaults depth w)) k = false /\
  (forall clist, selected (world_of (select_configs depth clist w)) k = false).
Proof.
  intros H Hk. repeat split.
  - intro self. apply (deadlocked_unselected names); [|exact Hk].
    exact (through_select _ (deadlocked_selectable names)
             (deadlocked_selected names) depth self w H).
  - apply (deadlocked_unselected names); [|exact Hk].
    exact (through_select_defaults _ (deadlocked_selectable names)
             (deadlocked_selected names) depth w H).
  - intro clist. apply (deadlocked_unselected names); [|exact Hk].
    exact (through_select_configs _ (deadlocked_table names)
             (deadlocked_selectable names) (deadlocked_selected names)
             depth clist w H).
Qed.

Lemma dependency_cycle_never_selected_witness :
  let w := world_of (resolve_symbols
                       (parsed [config "A" ["B"] [] true;
                                config "B" ["A"] [] true;
                                config "C" [] ["A"] true])) in
  selected (world_of (select_defaults 10 w)) "A" = false.
Proof.
  intro w.
  refine (proj1 (proj2 (dependency_cycle_never_selected
                          10 ["A"; "B"] w "A" eq_refl _))).
  simpl. auto.
Defined.

(** ** What a call of [select] that returns has done *)

Lemma keeps_cascade (R : World -> World -> Prop) (depth : nat) (sels : list pyval) :
  (forall w, R w w) ->
  (forall a b c, R a b -> R b c -> R a c) ->
  (forall self, keeps R (select depth self)) ->
  keeps R (for_each (select_unless_none (select depth)) sels).
Proof.
  intros Hrefl Htrans Hsel. apply (keeps_for_each R Hrefl Htrans).
  intro sel. unfold select_unless_none.
  destruct (negb (py_eq sel VNone)); [|apply (keeps_ret R Hrefl)].
  apply (keeps_bind R Htrans);
    [apply (keeps_as_symbol R Hrefl) | intro k; apply Hsel].
Qed.

Lemma sim_make_selectable_loop (l : list pyval) (w : World) :
  sim (world_of (for_each (fun dep => make_selectable dep true) l w)) w.
Proof.
  revert w.
  apply (keeps_for_each (fun w w' => sim w' w)).
  - reflexivity.
  - unfold sim. intros a b c H1 H2. congruence.
  - intros dep w. unfold make_selectable, as_symbol, bind, ret, raise, modify_obj.
    destruct dep as [|k| |]; simpl; try reflexivity.
    destruct (lookup k (all_symbols w)); simpl; [|reflexivity].
    unfold sim. simpl. apply erase_update_selectable.
Qed.

Lemma selectable_update_selectable (k k' : string) (w : World) :
  selectable w k' = true ->
  selectable (with_symbols (update k (set_is_selectable true) (all_symbols w)) w) k'
  = true.
Proof.
  unfold selectable. simpl. rewrite lookup_update.
  destruct (lookup k' (all_symbols w)); simpl; [|discriminate].
  now destruct (String.eqb k k').
Qed.

Lemma selectable_update_selected (k k' : string) (b : bool) (w : World) :
  selectable (with_symbols (update k (set_is_selected b) (all_symbols w)) w) k'
  = selectable w k'.
Proof.
  unfold selectable. simpl. rewrite lookup_update.
  destruct (lookup k' (all_symbols w)); simpl; [|reflexivity].
  now destruct (String.eqb k k').
Qed.

(** When the loop over the dependants returns, each of them is marked. *)
Lemma make_selectable_loop_marks (l : list pyval) : forall w w1,
  for_each (fun dep => make_selectable dep true) l w = Ret tt w1 ->
  forallb (link_selectable w1) l = true.
Proof.
  induction l as [|d l IH]; intros w w1 H; simpl in *; [reflexivity|].
  unfold bind in H.
  destruct (make_selectable d true w) as [[] w0|e w0] eqn:Hstep; [|discriminate].
  rewrite (IH w0 w1 H), andb_true_r.
  unfold make_selectable, as_symbol, bind, ret, raise, modify_obj in Hstep.
  destruct d as [|k| |]; try discriminate.
  destruct (lookup k (all_symbols w)) as [s|] eqn:Hk; [|discriminate].
  injection Hstep as <-.
  assert (H0 : selectable
                 (with_symbols (update k (set_is_selectable true) (all_symbols w)) w)
                 k = true).
  { unfold selectable. simpl. rewrite lookup_update, Hk. simpl.
    now rewrite String.eqb_refl. }
  simpl link_selectable.
  pose proof (keeps_for_each
                (fun w w' => selectable w k = true -> selectable w' k = true)
                (fun _ H => H) (fun a b c H1 H2 H3 => H2 (H1 H3))
                (fun dep => make_selectable dep true) l) as Hk'.
  assert (Hbody : forall x, keeps
            (fun w w' => selectable w k = true -> selectable w' k = true)
            (make_selectable x true)).
  { intros x u Hu. unfold make_selectable, as_symbol, bind, ret, raise, modify_obj.
    destruct x as [|k0| |]; simpl; auto.
    destruct (lookup k0 (all_symbols u)); simpl; auto.
    now apply selectable_update_selectable. }
  specialize (Hk' Hbody _ H0). rewrite H in Hk'. exact Hk'.
Qed.

Lemma link_selected_sim (w1 w2 : World) (v : pyval) :
  sim w1 w2 -> link_selected w1 v = link_selected w2 v.
Proof.
  intro H. destruct v; simpl; try reflexivity. now apply sim_selected.
Qed.

Lemma selectable_select_keeps (k : string) (depth : nat) (self : string) :
  keeps (fun w w' => selectable w k = true -> selectable w' k = true)
        (select depth self).
Proof. intro w. apply selectable_select. Qed.

(** What [select] has done when it returns. *)
Lemma select_outcome (depth : nat) (self : string) (me : Symbol) (w w' : World) :
  lookup self (all_symbols w) = Some me ->
  select depth self w = Ret tt w' ->
  (forallb (link_selected w) (depends_on me) = false /\ w' = w) \/
  (forallb (link_selected w) (depends_on me) = true /\
   selected w' self = true /\
   forallb (link_selectable w') (dependants me) = true).
Proof.
  intros Hme Hrun. destruct depth as [|depth]; [discriminate|].
  simpl in Hrun. rewrite (bind_Ret _ _ _ _ _ (get_obj_Ret _ _ _ Hme)) in Hrun.
  destruct (all_selected_cases (depends_on me) w)
    as [[Hdeps Hmet]|[[Hdeps Hmet]|[e Hdeps]]].
  2:{ rewrite (bind_Ret _ _ _ _ _ Hdeps) in Hrun. injection Hrun as <-.
      left. auto. }
  2:{ rewrite (bind_Exc _ _ _ _ _ Hdeps) in Hrun. discriminate. }
  rewrite (bind_Ret _ _ _ _ _ Hdeps) in Hrun. cbn [negb] in Hrun.
  rewrite (bind_Ret _ _ _ _ _ (get_obj_Ret _ _ _ Hme)) in Hrun.
  pose proof (sim_make_selectable_loop (dependants me) w) as Hsim.
  destruct (for_each (fun dep => make_selectable dep true) (dependants me) w)
    as [[] w1|e w1] eqn:Hloop;
    [|rewrite (bind_Exc _ _ _ _ _ Hloop) in Hrun; discriminate].
  simpl in Hsim. rewrite (bind_Ret _ _ _ _ _ Hloop) in Hrun.
  pose proof (make_selectable_loop_marks _ _ _ Hloop) as Hmarks.
  pose proof (sim_lookup _ _ self Hsim) as Hl. rewrite Hme in Hl.
  destruct (lookup self (all_symbols w1)) as [me1|] eqn:Hme1; [|discriminate].
  assert (Hss : sym_sim me1 me)
    by (unfold sym_sim; simpl in Hl; congruence).
  apply sym_sim_fields in Hss. destruct Hss as (Hsels & Hdep1 & Hdts & _).
  rewrite (bind_Ret _ _ _ _ _ (get_obj_Ret _ _ _ Hme1)) in Hrun.
  assert (Hmet1 : forallb (link_selected w1) (depends_on me1) = true).
  { rewrite Hdep1, <- Hmet. apply forallb_eq. intro v.
    now apply link_selected_sim. }
  destruct (all_selected_cases (depends_on me1) w1)
    as [[Hdeps1 _]|[[_ Hno]|[e Hdeps1]]];
    [|congruence|rewrite (bind_Exc _ _ _ _ _ Hdeps1) in Hrun; discriminate].
  rewrite (bind_Ret _ _ _ _ _ Hdeps1) in Hrun. cbn [negb] in Hrun.
  rewrite (bind_Ret _ _ _ _ _
             (modify_obj_Ret self (set_is_selected true) _ _ Hme1)) in Hrun.
  set (w2 := with_symbols (update self (set_is_selected true) (all_symbols w1)) w1)
    in *.
  assert (Hme2 : lookup self (all_symbols w2) = Some (set_is_selected true me1)).
  { unfold w2. simpl. rewrite lookup_update, Hme1. simpl.
    now rewrite String.eqb_refl. }
  rewrite (bind_Ret _ _ _ _ _ (get_obj_Ret _ _ _ Hme2)) in Hrun.
  cbn [selects set_is_selected] in Hrun.
  right. split; [exact Hmet|]. split.
  - pose proof (keeps_cascade grows depth (selects me1)
                  grows_refl grows_trans (grows_select depth) w2) as G.
    rewrite Hrun in G. simpl in G.
    eapply grows_keeps_selected; [exact G|].
    unfold selected. now rewrite Hme2.
  - rewrite forallb_forall in *. intros v Hv.
    specialize (Hmarks v Hv). destruct v as [|k| |]; try discriminate.
    simpl in *.
    pose proof (keeps_cascade
                  (fun w w' => selectable w k = true -> selectable w' k = true)
                  depth (selects me1)
                  (fun _ H => H) (fun a b c H1 H2 H3 => H2 (H1 H3))
                  (selectable_select_keeps k depth) w2) as G.
    rewrite Hrun in G. simpl in G. apply G.
    unfold w2. now rewrite selectable_update_selected.
Qed.

(** X4: what [select] has done when it returns.  If some dependency of the
    symbol was unselected, nothing at all has changed.  Otherwise the
    symbol is selected, and every symbol that depends on it is marked
    [is_selectable], whatever the other dependencies of that symbol. *)
Theorem select_returned (depth : nat) (self : string) (me : Symbol) (w w' : World) :
  lookup self (all_symbols w) = Some me ->
  select depth self w = Ret tt w' ->
  (forallb (link_selected w) (depends_on me) = false /\ w' = w) \/
  (forallb (link_selected w) (depends_on me) = true /\
   selected w' self = true /\
   forallb (link_selectable w') (dependants me) = true).
Proof. exact (select_outcome depth self me w w'). Qed.

Lemma select_returned_witness :
  selected (world_of (select 3 "A" ex_pair)) "A" = true.
Proof.
  assert (Hme : { me | lookup "A" (all_symbols ex_pair) = Some me })
    by (vm_compute; eexists; reflexivity).
  destruct Hme as [me Hme].
  assert (Hrun : select 3 "A" ex_pair = Ret tt (world_of (select 3 "A" ex_pair)))
    by (vm_compute; reflexivity).
  destruct (select_returned 3 "A" me ex_pair _ Hme Hrun) as [[H _]|[_ [H _]]];
    [|exact H].
  vm_compute in Hme. injection Hme as <-.
  vm_compute in H. discriminate H.
Defined.

(** ** The fixup pass has no effect *)

Lemma deselect_unselected (s : Symbol) :
  is_selected s = false -> set_is_selected false s = s.
Proof. destruct s; simpl; intros ->; reflexivity. Qed.

Lemma same_world_refl (w : World) : same_world w w.
Proof. repeat split; reflexivity. Qed.

Lemma same_world_trans (a b c : World) :
  same_world a b -> same_world b c -> same_world a c.
Proof.
  intros (H1 & H2 & H3 & H4 & H5) (G1 & G2 & G3 & G4 & G5).
  repeat split; try congruence; intro k; now rewrite G5, H5.
Qed.

(** X5: [fix_dependencies] changes nothing.  It calls [deselect] only on
    a dependency whose [is_selected] it has just read as false, so on any
    table, and whether it returns or raises, every name reads the same
    symbol afterwards, and nothing is printed or written. *)
Theorem fix_dependencies_changes_nothing (w : World) :
  same_world w (world_of (fix_dependencies w)).
Proof.
  apply (keeps_for_all_symbols same_world same_world_refl same_world_trans).
  intro sym.
  apply (keeps_bind same_world same_world_trans);
    [apply (keeps_get_obj same_world same_world_refl) | intro me].
  destruct (depends_on me) as [|d deps];
    [apply (keeps_ret same_world same_world_refl)|].
  apply (keeps_for_each same_world same_world_refl same_world_trans).
  clear. intros dep w.
  unfold bind, get_is_selected, as_symbol.
  destruct dep as [|k| |]; try apply same_world_refl.
  unfold bind, ret, get_obj.
  destruct (lookup k (all_symbols w)) as [s|] eqn:E; [|apply same_world_refl].
  destruct (is_selected s) eqn:Es; simpl; [apply same_world_refl|].
  unfold deselect, as_symbol, bind, ret.
  rewrite (modify_obj_Ret _ _ _ _ E). simpl.
  repeat split; simpl; try reflexivity; [apply keys_update|].
  intro k'. rewrite lookup_update.
  destruct (lookup k' (all_symbols w)) as [s'|] eqn:E'; [|reflexivity].
  simpl. destruct (String.eqb_spec k k') as [->|]; [|reflexivity].
  assert (s' = s) by congruence. subst s'.
  now rewrite deselect_unselected.
Qed.

(** ** The explicit-selection pass *)

(** X6: [select_configs] returns only if every requested name is in the
    table: a name that is missing, wherever it stands in the list, keeps
    the pass from returning. *)
Theorem select_configs_returns_known_names
        (depth : nat) (clist : list string) (w w' : World) (n : string) :
  select_configs depth clist w = Ret tt w' ->
  In n clist ->
  In n (keys (all_symbols w)).
Proof.
  revert w. induction clist as [|c clist IH]; intros w Hrun Hin; [destruct Hin|].
  unfold select_configs in Hrun. simpl in Hrun.
  unfold bind at 1 in Hrun. unfold bind at 1 in Hrun.
  unfold get_symbol in Hrun.
  destruct (lookup c (all_symbols w)) as [s|] eqn:Hc; [|discriminate].
  simpl in Hrun. unfold bind at 1 in Hrun. simpl in Hrun.
  pose proof (same_frame_select depth c w) as Hf.
  destruct (select depth c w) as [[] w0|e w0]; [|discriminate].
  destruct Hin as [<-|Hin].
  - exact (lookup_keys _ _ _ Hc).
  - destruct Hf as (_ & _ & _ & Hkeys & _). simpl in Hkeys.
    rewrite <- Hkeys. exact (IH w0 Hrun Hin).
Qed.

Lemma select_configs_returns_known_names_witness :
  In "B" (keys (all_symbols ex_pair)).
Proof.
  assert (Hrun : select_configs 10 ["A"; "B"] ex_pair =
                 Ret tt (world_of (select_configs 10 ["A"; "B"] ex_pair)))
    by (vm_compute; reflexivity).
  exact (select_configs_returns_known_names 10 ["A"; "B"] ex_pair _ "B" Hrun
           (or_intror (or_introl eq_refl))).
Defined.

(** ** What the passes select when they return *)

(** A loop that returns has run its body, and the body has returned, on
    every element. *)
Lemma for_each_Ret_In {A} (R : World -> World -> Prop) (body : A -> M unit)
      (l : list A) (x : A) :
  (forall w, R w w) ->
  (forall a b c, R a b -> R b c -> R a c) ->
  (forall y, keeps R (body y)) ->
  forall w w',
    for_each body l w = Ret tt w' ->
    In x l ->
    exists wi wi', R w wi /\ body x wi = Ret tt wi' /\ R wi' w'.
Proof.
  intros Hrefl Htrans Hbody.
  induction l as [|y l IH]; intros w w' Hrun Hin; [destruct Hin|].
  simpl in Hrun. unfold bind in Hrun.
  pose proof (Hbody y w) as Hy.
  destruct (body y w) as [[] w0|e w0] eqn:Hstep; [|discriminate].
  simpl in Hy. destruct Hin as [->|Hin].
  - exists w, w0. repeat split; auto.
    pose proof (keeps_for_each R Hrefl Htrans body l Hbody w0) as Hl.
    now rewrite Hrun in Hl.
  - destruct (IH w0 w' Hrun Hin) as (wi & wi' & H1 & H2 & H3).
    exists wi, wi'. repeat split; eauto.
Qed.

Lemma grows_link_selected (w w' : World) (l : list pyval) :
  grows w w' ->
  forallb (link_selected w) l = true -> forallb (link_selected w') l = true.
Proof.
  intro G. apply forallb_mono. intros v Hv.
  destruct v; simpl in *; try discriminate.
  eapply grows_keeps_selected; eauto.
Qed.

Lemma grows_select_configs_body (depth : nat) (cname : string) :
  keeps grows (v <- get_symbol (VStr cname) ;; k <- as_symbol v ;; select depth k).
Proof.
  apply (keeps_bind grows grows_trans);
    [apply (keeps_get_symbol grows grows_refl grows_trans grows_print)
    | intro v].
  apply (keeps_bind grows grows_trans);
    [apply (keeps_as_symbol grows grows_refl) | intro k; apply grows_select].
Qed.

(** X7: when the explicit-selection pass returns, every requested symbol
    whose dependencies were all selected before the pass (a symbol
    without dependencies among them) is selected. *)
Theorem select_configs_selects
        (depth : nat) (clist : list string) (w w' : World)
        (n : string) (me : Symbol) :
  select_configs depth clist w = Ret tt w' ->
  In n clist ->
  lookup n (all_symbols w) = Some me ->
  forallb (link_selected w) (depends_on me) = true ->
  selected w' n = true.
Proof.
  intros Hrun Hin Hme Hmet.
  destruct (for_each_Ret_In grows _ clist n grows_refl grows_trans
              (grows_select_configs_body depth) w w' Hrun Hin)
    as (wi & wi' & G1 & Hbody & G2).
  destruct (G1 n me Hme) as (mi & Hmi & _ & Hdeps & _ & _).
  unfold bind at 1 in Hbody. unfold get_symbol in Hbody. rewrite Hmi in Hbody.
  unfold bind at 1 in Hbody. simpl in Hbody.
  destruct (select_outcome depth n mi wi wi' Hmi Hbody) as [[Hno _]|[_ [Hsel _]]].
  - rewrite Hdeps, (grows_link_selected w wi _ G1 Hmet) in Hno. discriminate.
  - eapply grows_keeps_selected; eauto.
Qed.

Lemma select_configs_selects_witness :
  selected (world_of (select_configs 10 ["A"; "B"] ex_pair)) "B" = true.
Proof.
  assert (Hrun : select_configs 10 ["A"; "B"] ex_pair =
                 Ret tt (world_of (select_configs 10 ["A"; "B"] ex_pair)))
    by (vm_compute; reflexivity).
  assert (Hme : { me | lookup "B" (all_symbols ex_pair) = Some me /\
                       forallb (link_selected ex_pair) (depends_on me) = true })
    by (vm_compute; eexists; split; reflexivity).
  destruct Hme as (me & Hme & Hmet).
  exact (select_configs_selects 10 ["A"; "B"] ex_pair _ "B" me Hrun
           (or_intror (or_introl eq_refl)) Hme Hmet).
Defined.

Lemma same_frame_default (w w' : World) (k : string) (s s' : Symbol) :
  same_frame w w' ->
  lookup k (all_symbols w) = Some s ->
  lookup k (all_symbols w') = Some s' ->
  is_default s' = is_default s.
Proof.
  intros (_ & _ & _ & _ & H) Hs Hs'. specialize (H k).
  rewrite Hs, Hs' in H. simpl in H. injection H. auto.
Qed.

Lemma keeps_both (R1 R2 : World -> World -> Prop) {A} (m : M A) :
  keeps R1 m -> keeps R2 m -> keeps (fun w w' => R1 w w' /\ R2 w w') m.
Proof. intros H1 H2 w. split; [apply H1 | apply H2]. Qed.

Lemma select_defaults_body_keeps (depth : nat) (sym : string) :
  keeps (fun w w' => grows w w' /\ same_frame w w')
        (me <- get_obj sym ;;
         if is_default me then select depth sym else ret tt).
Proof.
  apply keeps_both.
  - apply (keeps_bind grows grows_trans);
      [apply (keeps_get_obj grows grows_refl) | intro me].
    destruct (is_default me);
      [apply grows_select | apply (keeps_ret grows grows_refl)].
  - apply (keeps_bind same_frame same_frame_trans);
      [apply (keeps_get_obj same_frame same_frame_refl) | intro me].
    destruct (is_default me);
      [apply same_frame_select | apply (keeps_ret same_frame same_frame_refl)].
Qed.

(** X8: when the default pass returns, every symbol with [default y]
    whose dependencies were all selected before the pass (a symbol
    without dependencies among them) is selected. *)
Theorem select_defaults_selects
        (depth : nat) (w w' : World) (n : string) (me : Symbol) :
  select_defaults depth w = Ret tt w' ->
  lookup n (all_symbols w) = Some me ->
  is_default me = true ->
  forallb (link_selected w) (depends_on me) = true ->
  selected w' n = true.
Proof.
  intros Hrun Hme Hdef Hmet. unfold select_defaults, for_all_symbols in Hrun.
  destruct (for_each_Ret_In (fun w w' => grows w w' /\ same_frame w w') _
              (keys (all_symbols w)) n
              (fun u => conj (grows_refl u) (same_frame_refl u))
              (fun a b c H1 H2 =>
                 conj (grows_trans a b c (proj1 H1) (proj1 H2))
                      (same_frame_trans a b c (proj2 H1) (proj2 H2)))
              (select_defaults_body_keeps depth) w w' Hrun
              (lookup_keys _ _ _ Hme))
    as (wi & wi' & [G1 F1] & Hbody & [G2 _]).
  destruct (G1 n me Hme) as (mi & Hmi & _ & Hdeps & _ & _).
  rewrite (bind_Ret _ _ _ _ _ (get_obj_Ret _ _ _ Hmi)) in Hbody.
  rewrite (same_frame_default w wi n me mi F1 Hme Hmi), Hdef in Hbody.
  destruct (select_outcome depth n mi wi wi' Hmi Hbody) as [[Hno _]|[_ [Hsel _]]].
  - rewrite Hdeps, (grows_link_selected w wi _ G1 Hmet) in Hno. discriminate.
  - eapply grows_keeps_selected; eauto.
Qed.

Lemma select_defaults_selects_witness :
  let w := world_of (resolve_symbols
                       (parsed [config "A" [] ["B"] true;
                                config "B" ["A"] [] false])) in
  selected (world_of (select_defaults 10 w)) "A" = true.
Proof.
  intro w.
  assert (Hrun : select_defaults 10 w = Ret tt (world_of (select_defaults 10 w)))
    by (vm_compute; reflexivity).
  assert (Hme : { me | lookup "A" (all_symbols w) = Some me /\
                       is_default me = true /\
                       forallb (link_selected w) (depends_on me) = true })
    by (vm_compute; eexists; repeat split; reflexivity).
  destruct Hme as (me & Hme & Hdef & Hmet).
  exact (select_defaults_selects 10 w _ "A" me Hrun Hme Hdef Hmet).
Defined.

(** ** Select cycles *)

Lemma select_cycle_spec (names : list string) (w : World) :
  select_cycle names w = true <->
  forall k, In k names ->
            exists s, lookup k (all_symbols w) = Some s /\
                      forallb (link_selected w) (depends_on s) = true /\
                      exists k', In k' names /\ In (VSym k') (selects s).
Proof.
  unfold select_cycle. rewrite forallb_forall. split.
  - intros H k Hk. specialize (H k Hk).
    destruct (lookup k (all_symbols w)) as [s|]; [|discriminate].
    apply andb_prop in H. destruct H as [Hd Hs].
    exists s. repeat split; [exact Hd|].
    apply existsb_exists in Hs. destruct Hs as (sel & Hin & Hsel).
    destruct sel as [|k'| |]; try discriminate.
    apply existsb_exists in Hsel. destruct Hsel as (k'' & Hk'' & Heq).
    apply String.eqb_eq in Heq. subst k''. now exists k'.
  - intros H k Hk. destruct (H k Hk) as (s & -> & Hd & k' & Hk' & Hin).
    rewrite Hd. simpl. apply existsb_exists. exists (VSym k'). split; [exact Hin|].
    apply existsb_exists. exists k'. split; [exact Hk' | apply String.eqb_refl].
Qed.

Lemma select_cycle_grows (names : list string) (w w' : World) :
  grows w w' -> select_cycle names w = true -> select_cycle names w' = true.
Proof.
  intro G. rewrite !select_cycle_spec. intros H k Hk.
  destruct (H k Hk) as (s & Hs & Hd & k' & Hk' & Hin).
  destruct (G k s Hs) as (s' & Hs' & Hsel & Hdep & _ & _).
  exists s'. split; [exact Hs'|]. split.
  - rewrite Hdep. eapply grows_link_selected; eauto.
  - exists k'. now rewrite Hsel.
Qed.

Lemma all_selected_met (deps : list pyval) (w : World) :
  forallb (link_selected w) deps = true -> all_selected deps w = Ret true w.
Proof.
  intro H.
  destruct (all_selected_cases deps w) as [[Hr _]|[[_ Hno]|[e He]]];
    [exact Hr | congruence |].
  exfalso. revert H He. induction deps as [|d deps IH]; simpl; [discriminate|].
  intros H He. apply andb_prop in H. destruct H as [Hd Hrest].
  destruct d as [|k| |]; simpl in Hd; try discriminate.
  unfold bind, get_is_selected, as_symbol, bind, ret, get_obj in He.
  unfold selected in Hd.
  destruct (lookup k (all_symbols w)) as [s|]; [|discriminate].
  rewrite Hd in He. auto.
Qed.

Lemma grows_make_selectable_loop (l : list pyval) :
  keeps grows (for_each (fun dep => make_selectable dep true) l).
Proof.
  apply (keeps_for_each grows grows_refl grows_trans). intro dep.
  apply (keeps_make_selectable grows grows_refl grows_trans grows_selectable).
Qed.

(** The cascade does not return once it holds a symbol that never does. *)
Lemma cascade_never_returns (names : list string) (depth : nat) (k' : string) :
  (forall k w, select_cycle names w = true -> In k names ->
               returned (select depth k w) = false) ->
  In k' names ->
  forall sels w,
    select_cycle names w = true ->
    In (VSym k') sels ->
    returned (for_each (select_unless_none (select depth)) sels w) = false.
Proof.
  intros IH Hk'. induction sels as [|sel sels IHs]; intros w Hc Hin;
    [destruct Hin|].
  simpl. unfold bind.
  pose proof (keeps_cascade grows depth [sel] grows_refl grows_trans
                (grows_select depth) w) as G.
  simpl in G. unfold bind in G.
  destruct (select_unless_none (select depth) sel w) as [[] w0|e w0] eqn:Hsel;
    [|reflexivity].
  simpl in G. destruct Hin as [->|Hin].
  - unfold select_unless_none in Hsel. simpl in Hsel.
    unfold bind in Hsel. simpl in Hsel.
    pose proof (IH k' w Hc Hk') as Hnever. rewrite Hsel in Hnever.
    discriminate.
  - apply IHs; [|exact Hin]. eapply select_cycle_grows; eauto.
Qed.

(** X9: [select] has no guard against cycles of select edges.  On a symbol
    of such a cycle whose dependencies are selected, it does not return,
    however deep the interpreter lets it recurse: the call ends in an
    exception. *)
Theorem select_cycle_never_returns
        (names : list string) (depth : nat) (k : string) (w : World) :
  select_cycle names w = true ->
  In k names ->
  returned (select depth k w) = false.
Proof.
  revert k w. induction depth as [|depth IH]; intros k w Hc Hk; [reflexivity|].
  pose proof Hc as Hc0. rewrite select_cycle_spec in Hc0.
  destruct (Hc0 k Hk) as (me & Hme & Hmet & k' & Hk' & Hin).
  simpl. step (get_obj_Ret _ _ _ Hme). step (all_selected_met _ _ Hmet).
  cbn [negb]. step (get_obj_Ret _ _ _ Hme).
  pose proof (grows_make_selectable_loop (dependants me) w) as G1.
  destruct (for_each (fun dep => make_selectable dep true) (dependants me) w)
    as [[] w1|e w1] eqn:Hloop;
    [step Hloop | rewrite (bind_Exc _ _ _ _ _ Hloop); reflexivity].
  simpl in G1.
  destruct (G1 k me Hme) as (me1 & Hme1 & Hsel1 & Hdep1 & _ & _).
  step (get_obj_Ret _ _ _ Hme1).
  assert (Hmet1 : forallb (link_selected w1) (depends_on me1) = true)
    by (rewrite Hdep1; eapply grows_link_selected; eauto).
  step (all_selected_met _ _ Hmet1). cbn [negb].
  step (modify_obj_Ret k (set_is_selected true) _ _ Hme1).
  pose proof (grows_selected k w1) as G2.
  rewrite (modify_obj_Ret _ _ _ _ Hme1) in G2. simpl in G2.
  set (w2 := with_symbols (update k (set_is_selected true) (all_symbols w1)) w1)
    in *.
  assert (Hme2 : lookup k (all_symbols w2) = Some (set_is_selected true me1)).
  { unfold w2. simpl. rewrite lookup_update, Hme1. simpl.
    now rewrite String.eqb_refl. }
  step (get_obj_Ret _ _ _ Hme2). cbn [selects set_is_selected].
  apply (cascade_never_returns names depth k' IH Hk').
  - eapply select_cycle_grows; [|exact Hc]. eapply grows_trans; eauto.
  - now rewrite Hsel1.
Qed.

Lemma select_cycle_never_returns_witness :
  let w := world_of (resolve_symbols
                       (parsed [config "A" [] ["B"] false;
                                config "B" [] ["C"; "A"] false;
                                config "C" [] [] false])) in
  returned (select 1000 "A" w) = false.
Proof.
  intro w.
  assert (Hc : select_cycle ["A"; "B"] w = true) by (vm_compute; reflexivity).
  exact (select_cycle_never_returns ["A"; "B"] 1000 "A" w Hc (or_introl eq_refl)).
Defined.

(** ** What the writer puts in the file *)

Lemma grows_file_write (fname text : string) : keeps grows (file_write fname text).
Proof. intros w k s H. exists s. split; [exact H | apply sym_grows_refl]. Qed.

Lemma grows_write_if_selected (depth : nat) (fname name : string) :
  keeps grows (write_if_selected depth fname name).
Proof.
  unfold write_if_selected.
  apply (keeps_bind grows grows_trans);
    [apply (keeps_get_symbol grows grows_refl grows_trans grows_print)
    | intro sym].
  apply (keeps_bind grows grows_trans);
    [apply (keeps_get_is_selected grows grows_refl grows_trans) | intro b].
  destruct b; [|apply (keeps_ret grows grows_refl)].
  apply (keeps_bind grows grows_trans); [|intros _; apply grows_file_write].
  apply (keeps_bind grows grows_trans);
    [apply (keeps_as_symbol grows grows_refl) | intro k; apply grows_select].
Qed.

(** One turn of the writer's loop: it raises without touching the file,
    or passes an unselected symbol by, or calls [select] on a selected
    one and appends its line. *)
Lemma write_if_selected_cases (depth : nat) (fname k : string) (w1 : World) :
  (exists e w0, write_if_selected depth fname k w1 = Exc e w0 /\
                files w0 = files w1) \/
  (write_if_selected depth fname k w1 = Ret tt w1) \/
  (exists w1', select depth k w1 = Ret tt w1' /\
               selected w1 k = true /\
               write_if_selected depth fname k w1 =
               Ret tt (with_files
                         (file_put fname (fun c => (c ++ config_line k)%string)
                                   (files w1')) w1')).
Proof.
  unfold write_if_selected.
  destruct (lookup k (all_symbols w1)) as [s|] eqn:Hk.
  2:{ left. exists AttributeError. eexists.
      unfold bind at 1. unfold get_symbol. rewrite Hk. simpl.
      split; reflexivity. }
  assert (Hget : get_symbol (VStr k) w1 = Ret (VSym k) w1)
    by (unfold get_symbol; now rewrite Hk).
  assert (Hflag : get_is_selected (VSym k) w1 = Ret (is_selected s) w1)
    by (unfold get_is_selected, as_symbol, bind, ret, get_obj; now rewrite Hk).
  rewrite (bind_Ret _ _ _ _ _ Hget), (bind_Ret _ _ _ _ _ Hflag).
  destruct (is_selected s) eqn:Hsel; [|right; left; reflexivity].
  pose proof (select_keeps_files depth k w1) as Hfiles.
  destruct (select depth k w1) as [[] w1'|e w1'] eqn:Hrun; simpl in Hfiles.
  - right. right. exists w1'. split; [reflexivity|]. split.
    + unfold selected. now rewrite Hk.
    + unfold bind, as_symbol, ret. now rewrite Hrun.
  - left. exists e, w1'. split; [|exact Hfiles].
    unfold bind, as_symbol, ret. now rewrite Hrun.
Qed.

Lemma subseq_skip (s2 : list string) :
  forall s1 y, subseq s1 s2 = true -> subseq s1 (y :: s2) = true.
Proof.
  induction s2 as [|z s2 IH]; intros [|x s1] y H; simpl in *;
    try reflexivity; try discriminate H.
  destruct (String.eqb x y) eqn:Exy; [|exact H].
  destruct (String.eqb x z) eqn:Exz.
  - now apply IH.
  - apply IH. specialize (IH (x :: s1) x H). simpl in IH.
    now rewrite String.eqb_refl in IH.
Qed.

(** A list in the order of another holds only elements of it. *)
Lemma subseq_incl (s2 : list string) :
  forall s1, subseq s1 s2 = true -> incl s1 s2.
Proof.
  induction s2 as [|y s2 IH]; intros s1 H.
  - destruct s1; [intros m [] | discriminate H].
  - destruct s1 as [|x s1]; [intros m []|]. simpl in H.
    destruct (String.eqb_spec x y) as [->|Hne].
    + intros m [<-|Hm]; [now left | right; now apply (IH s1 H)].
    + intros m Hm. right. now apply (IH (x :: s1) H).
Qed.

Lemma write_loop_lists_selected (depth : nat) (fname : string) (names : list string) :
  forall w1 c,
    file_get fname (files w1) = Some c ->
    exists written,
      file_get fname
               (files (world_of (for_each (write_if_selected depth fname) names w1)))
        = Some (c ++ join (map config_line written))%string /\
      subseq written names = true /\
      forall n, In n written ->
                selected (world_of (for_each (write_if_selected depth fname)
                                             names w1)) n = true.
Proof.
  induction names as [|k names IH]; intros w1 c Hc.
  - exists []. simpl. rewrite string_app_nil.
    split; [exact Hc|]. split; [reflexivity | intros n []].
  - simpl for_each.
    destruct (write_if_selected_cases depth fname k w1)
      as [(e & w0 & Hrun & Hf)|[Hrun|(w1' & Hsel & Hk & Hrun)]].
    + rewrite (bind_Exc _ _ _ _ _ Hrun). exists []. simpl.
      rewrite Hf, Hc, string_app_nil.
      split; [reflexivity|]. split; [reflexivity | intros n []].
    + rewrite (bind_Ret _ _ _ _ _ Hrun).
      destruct (IH w1 c Hc) as (written & Hw & Hincl & Hall).
      exists written. split; [exact Hw|]. split; [|exact Hall].
      now apply subseq_skip.
    + rewrite (bind_Ret _ _ _ _ _ Hrun).
      set (w1'' := with_files
                     (file_put fname (fun c => (c ++ config_line k)%string)
                               (files w1')) w1') in *.
      pose proof (select_keeps_files depth k w1) as Hfiles.
      pose proof (grows_select depth k w1) as G.
      rewrite Hsel in Hfiles, G. simpl in Hfiles, G.
      destruct (IH w1'' (c ++ config_line k)%string) as (written & Hw & Hincl & Hall).
      { unfold w1''. simpl. rewrite file_get_put, Hfiles, Hc. reflexivity. }
      exists (k :: written). split; [|split].
      * rewrite Hw. simpl. now rewrite string_app_assoc.
      * simpl. now rewrite String.eqb_refl.
      * intros n [<-|Hn]; [|auto].
        pose proof (keeps_for_each grows grows_refl grows_trans
                      (write_if_selected depth fname) names
                      (grows_write_if_selected depth fname) w1'') as G'.
        eapply grows_keeps_selected; [exact G'|].
        change (selected w1' k = true).
        eapply grows_keeps_selected; [exact G | exact Hk].
Qed.

(** X10: whatever the table, the file starts with the header, and every
    line after it is the line of a symbol of the table that is selected
    when the writer stops, be it at the end of the table or on an
    exception; the lines come in the order of the table: the names
    written are the keys of the table, in their order, with some left
    out. *)
Theorem write_selected_to_lists_selected (depth : nat) (fname : string) (w : World) :
  let w' := world_of (write_selected_to depth fname w) in
  exists written,
    file_get fname (files w') =
      Some (header w ++ join (map config_line written))%string /\
    subseq written (keys (all_symbols w)) = true /\
    forall n, In n written -> selected w' n = true.
Proof.
  intro w'. subst w'. unfold write_selected_to.
  set (w0 := with_files
               (file_put fname (fun c => (c ++ header w)%string)
                  (file_put fname (fun _ => EmptyString) (files w))) w).
  destruct (write_loop_lists_selected depth fname (keys (all_symbols w)) w0 (header w))
    as (written & Hw & Hincl & Hall).
  { unfold w0. simpl. rewrite !file_get_put. reflexivity. }
  exists written. exact (conj Hw (conj Hincl Hall)).
Qed.

(** * The resolution pass *)

Lemma set_dependants_same (s : Symbol) : set_dependants (dependants s) s = s.
Proof. now destruct s. Qed.

Lemma resolve_name_lookup (w w' : World) (F : string -> Symbol -> Symbol) :
  (forall k, lookup k (all_symbols w') = option_map (F k) (lookup k (all_symbols w))) ->
  forall v, resolve_name w' v = resolve_name w v.
Proof.
  intros H v. destruct v as [n| | |]; simpl; try reflexivity.
  rewrite H. now destruct (lookup n (all_symbols w)).
Qed.

Lemma declared_lookup (w w' : World) (F : string -> Symbol -> Symbol) :
  (forall k, lookup k (all_symbols w') = option_map (F k) (lookup k (all_symbols w))) ->
  forall v, declared w' v = declared w v.
Proof.
  intros H v. destruct v as [n| | |]; simpl; try reflexivity.
  rewrite H. now destruct (lookup n (all_symbols w)).
Qed.

(** The loop of [resolve_dependencies] on declared names: it returns the
    links, and on the way gives each symbol it names one more dependant,
    a link to [self], for each time the symbol is named. *)
Lemma resolve_dependencies_loop_effect (self : string) (deps : list pyval) :
  forall acc w,
    forallb (declared w) deps = true ->
    exists w',
      resolve_dependencies_loop self deps acc w =
        Ret (acc ++ map (resolve_name w) deps) w' /\
      keys (all_symbols w') = keys (all_symbols w) /\
      forall k,
        lookup k (all_symbols w') =
        option_map (fun s => set_dependants
                               (dependants s ++
                                map (fun _ => VSym self)
                                    (filter (py_eq (VStr k)) deps)) s)
                   (lookup k (all_symbols w)).
Proof.
  induction deps as [|dep deps IH]; intros acc w Hd; simpl in *.
  - exists w. rewrite app_nil_r. repeat split. intro k.
    destruct (lookup k (all_symbols w)) as [s|]; [|reflexivity].
    simpl. now rewrite app_nil_r, set_dependants_same.
  - apply andb_prop in Hd. destruct Hd as [Hdep Hrest].
    destruct dep as [n| | |]; simpl in Hdep; try discriminate.
    destruct (lookup n (all_symbols w)) as [sn|] eqn:Hn; [|discriminate].
    set (f := fun s => set_dependants (dependants s ++ [VSym self]) s).
    set (w1 := with_symbols (update n f (all_symbols w)) w).
    assert (Hl1 : forall k, lookup k (all_symbols w1) =
                            option_map (fun s => if String.eqb n k then f s else s)
                                       (lookup k (all_symbols w)))
      by (intro k; unfold w1; simpl; apply lookup_update).
    assert (Hrest1 : forallb (declared w1) deps = true).
    { erewrite forallb_eq; [exact Hrest|].
      apply (declared_lookup w w1 (fun k s => if String.eqb n k then f s else s)).
      exact Hl1. }
    destruct (IH (acc ++ [VSym n]) w1 Hrest1) as (w' & Hrun & Hkeys & Hl).
    exists w'. split; [|split].
    + step (eq_refl (Ret tt w)).
      assert (Hget : get_symbol (VStr n) w = Ret (VSym n) w)
        by (unfold get_symbol; now rewrite Hn).
      step Hget.
      assert (Hadd : add_dependant (VSym n) (VSym self) w = Ret tt w1).
      { unfold add_dependant, as_symbol. step (eq_refl (Ret n w)).
        exact (modify_obj_Ret n f _ _ Hn). }
      step Hadd. rewrite Hrun, <- app_assoc. simpl. rewrite Hn.
      erewrite (map_ext (resolve_name w1)); [reflexivity|].
      apply (resolve_name_lookup w w1 (fun k s => if String.eqb n k then f s else s)).
      exact Hl1.
    + rewrite Hkeys. unfold w1. simpl. apply keys_update.
    + intro k. rewrite Hl, Hl1.
      destruct (lookup k (all_symbols w)) as [s|]; [|reflexivity].
      simpl. rewrite (String.eqb_sym k n).
      destruct (String.eqb n k); simpl; [|reflexivity].
      unfold f. simpl. now rewrite <- app_assoc.
Qed.

(** What resolving one symbol does to every symbol of the table. *)
Lemma resolve_one_effect (a : string) (sa : Symbol) (w : World) :
  lookup a (all_symbols w) = Some sa ->
  forallb (declared w) (depends_on sa) = true ->
  forallb is_name (selects sa) = true ->
  exists w3,
    (resolve_dependencies a ;; resolve_selects a) w = Ret tt w3 /\
    keys (all_symbols w3) = keys (all_symbols w) /\
    forall k,
      match lookup k (all_symbols w) with
      | None => lookup k (all_symbols w3) = None
      | Some s =>
          exists s3,
            lookup k (all_symbols w3) = Some s3 /\
            depends_on s3 = (if String.eqb a k
                             then map (resolve_name w) (depends_on s)
                             else depends_on s) /\
            selects s3 = (if String.eqb a k
                          then map (resolve_name w) (selects s)
                          else selects s) /\
            dependants s3 = dependants s ++
                            map (fun _ => VSym a)
                                (filter (py_eq (VStr k)) (depends_on sa))
      end.
Proof.
  intros Ha Hdeps Hsels.
  destruct (resolve_dependencies_loop_effect a (depends_on sa) [] w Hdeps)
    as (w1 & Hloop & Hkeys1 & Hl1).
  simpl app in Hloop.
  set (nd := map (resolve_name w) (depends_on sa)) in *.
  pose proof (Hl1 a) as Ha1. rewrite Ha in Ha1. simpl in Ha1.
  set (sa1 := set_dependants
                (dependants sa ++
                 map (fun _ => VSym a) (filter (py_eq (VStr a)) (depends_on sa)))
                sa) in *.
  set (w2 := with_symbols (update a (set_depends_on nd) (all_symbols w1)) w1).
  assert (Hl2 : forall k, lookup k (all_symbols w2) =
                          option_map (fun s => if String.eqb a k
                                               then set_depends_on nd s else s)
                                     (lookup k (all_symbols w1)))
    by (intro k; unfold w2; simpl; apply lookup_update).
  assert (Ha2 : lookup a (all_symbols w2) = Some (set_depends_on nd sa1)).
  { rewrite Hl2, Ha1. simpl. now rewrite String.eqb_refl. }
  assert (Hsels2 : forallb is_name (selects (set_depends_on nd sa1)) = true)
    by exact Hsels.
  destruct (resolve_selects_loop_resolves a (selects (set_depends_on nd sa1))
              [] w2 Hsels2) as (w2' & Hloop2 & Hsame).
  simpl app in Hloop2.
  set (ns := map (resolve_name w2) (selects (set_depends_on nd sa1))) in *.
  assert (Ha2' : lookup a (all_symbols w2') = Some (set_depends_on nd sa1))
    by congruence.
  set (w3 := with_symbols (update a (set_selects ns) (all_symbols w2')) w2').
  assert (Hname : forall v, resolve_name w2 v = resolve_name w v).
  { intro v.
    rewrite (resolve_name_lookup w1 w2 _ Hl2 v).
    apply (resolve_name_lookup w w1 _ Hl1). }
  exists w3. split; [|split].
  - unfold resolve_dependencies, resolve_selects.
    assert (Hfirst : (me <- get_obj a ;;
                      new_deps <- resolve_dependencies_loop a (depends_on me) [] ;;
                      modify_obj a (set_depends_on new_deps)) w = Ret tt w2).
    { step (get_obj_Ret _ _ _ Ha). step Hloop.
      exact (modify_obj_Ret a (set_depends_on nd) _ _ Ha1). }
    step Hfirst. step (get_obj_Ret _ _ _ Ha2). step Hloop2.
    exact (modify_obj_Ret a (set_selects ns) _ _ Ha2').
  - unfold w3. simpl. rewrite keys_update, Hsame. unfold w2. simpl.
    now rewrite keys_update.
  - intro k. unfold w3. simpl. rewrite lookup_update, Hsame, Hl2, Hl1.
    destruct (lookup k (all_symbols w)) as [s|] eqn:Hk; [|reflexivity].
    simpl. eexists. split; [reflexivity|].
    destruct (String.eqb_spec a k) as [<-|Hne]; simpl.
    + assert (s = sa) by congruence. subst s.
      repeat split. unfold ns. simpl. apply map_ext. exact Hname.
    + repeat split.
Qed.

Lemma lookup_In (k : string) (s : Symbol) (t : table) :
  lookup k t = Some s -> In (k, s) t.
Proof.
  induction t as [|[k0 s0] t IH]; simpl; [discriminate|].
  destruct (String.eqb_spec k k0) as [->|Hne].
  - intro H. injection H as ->. now left.
  - intro H. right. auto.
Qed.

Lemma nodupb_NoDup (l : list string) : nodupb l = true -> NoDup l.
Proof.
  induction l as [|x l IH]; simpl; [constructor|].
  intro H. apply andb_prop in H. destruct H as [Hx Hl].
  constructor; [|auto]. intro Hin.
  assert (existsb (String.eqb x) l = true)
    by (apply existsb_exists; exists x; split; [exact Hin | apply String.eqb_refl]).
  rewrite H in Hx. discriminate.
Qed.

Lemma not_in_existsb (k : string) (l : list string) :
  ~ In k l -> existsb (String.eqb k) l = false.
Proof.
  intro H. destruct (existsb (String.eqb k) l) eqn:E; [|reflexivity].
  apply existsb_exists in E. destruct E as (x & Hx & Heq).
  apply String.eqb_eq in Heq. subst x. contradiction.
Qed.

Lemma back_edges_app (w : World) (l1 l2 : list string) (k : string) :
  back_edges w (l1 ++ l2) k = back_edges w l1 k ++ back_edges w l2 k.
Proof. unfold back_edges. apply flat_map_app. Qed.

Section ResolvePass.
Variable w : World.
Hypothesis names_ok : forall k s,
  lookup k (all_symbols w) = Some s ->
  forallb (declared w) (depends_on s) = true /\
  forallb is_name (selects s) = true.

(** The state of the table once the symbols named in [done] have been
    resolved. *)
Let resolved_upto (done : list string) (wi : World) : Prop :=
  keys (all_symbols wi) = keys (all_symbols w) /\
  forall k,
    match lookup k (all_symbols w) with
    | None => lookup k (all_symbols wi) = None
    | Some s =>
        exists si,
          lookup k (all_symbols wi) = Some si /\
          depends_on si = (if existsb (String.eqb k) done
                           then map (resolve_name w) (depends_on s)
                           else depends_on s) /\
          selects si = (if existsb (String.eqb k) done
                        then map (resolve_name w) (selects s)
                        else selects s) /\
          dependants si = dependants s ++ back_edges w done k
    end.

Lemma resolved_upto_names (done : list string) (wi : World) :
  resolved_upto done wi ->
  forall v, resolve_name wi v = resolve_name w v /\ declared wi v = declared w v.
Proof.
  intros [_ H] v. destruct v as [n| | |]; simpl; auto.
  specialize (H n). destruct (lookup n (all_symbols w)) as [s|].
  - destruct H as (si & -> & _). auto.
  - rewrite H. auto.
Qed.

Lemma resolve_pass_loop (todo : list string) :
  forall done wi,
    resolved_upto done wi ->
    NoDup todo ->
    (forall k, In k todo -> ~ In k done) ->
    (forall k, In k todo -> lookup k (all_symbols w) <> None) ->
    exists w',
      for_each (fun sym => resolve_dependencies sym ;; resolve_selects sym)
               todo wi = Ret tt w' /\
      resolved_upto (done ++ todo) w'.
Proof.
  induction todo as [|a todo IH]; intros done wi Hinv Hnd Hfresh Hin.
  - exists wi. rewrite app_nil_r. split; [reflexivity | exact Hinv].
  - pose proof (resolved_upto_names done wi Hinv) as Hnames.
    destruct Hinv as [Hkeys Hinv].
    assert (Ha : lookup a (all_symbols w) <> None) by (apply Hin; now left).
    destruct (lookup a (all_symbols w)) as [sa|] eqn:Hsa; [clear Ha|congruence].
    destruct (names_ok a sa Hsa) as [Hdecl Hnm].
    pose proof (Hinv a) as Hia. rewrite Hsa in Hia.
    destruct Hia as (sia & Hsia & Hd & Hs & Hb).
    rewrite (not_in_existsb a done) in Hd, Hs by (apply Hfresh; now left).
    assert (Hdecl' : forallb (declared wi) (depends_on sia) = true).
    { rewrite Hd. erewrite forallb_eq; [exact Hdecl|].
      intro v. apply Hnames. }
    assert (Hnm' : forallb is_name (selects sia) = true) by (now rewrite Hs).
    destruct (resolve_one_effect a sia wi Hsia Hdecl' Hnm')
      as (w3 & Hrun & Hkeys3 & Heff).
    inversion Hnd as [|x l Hnotin Hnd' Heq]; subst.
    destruct (IH (done ++ [a]) w3) as (w' & Hrest & Hinv').
    + split; [congruence|]. intro k.
      specialize (Heff k). specialize (Hinv k).
      destruct (lookup k (all_symbols w)) as [s|] eqn:Hk.
      * destruct Hinv as (si & Hsi & Hdi & Hsi' & Hbi).
        rewrite Hsi in Heff. destruct Heff as (s3 & Hs3 & Hd3 & Hsel3 & Hb3).
        exists s3. split; [exact Hs3|].
        rewrite existsb_app. simpl. rewrite orb_false_r.
        rewrite (String.eqb_sym k a).
        destruct (String.eqb_spec a k) as [<-|Hne].
        -- assert (s = sa) by congruence. subst s.
           rewrite (not_in_existsb a done) in * by (apply Hfresh; now left).
           simpl. rewrite Hd3, Hsel3, Hb3, Hdi, Hsi', Hbi, Hd.
           rewrite back_edges_app. unfold back_edges at 2. simpl.
           rewrite Hsa, app_nil_r, <- app_assoc.
           repeat split; apply map_ext; intro v; apply Hnames.
        -- rewrite orb_false_r. rewrite Hd3, Hsel3, Hb3, Hdi, Hsi', Hbi, Hd.
           rewrite back_edges_app. unfold back_edges at 2. simpl.
           rewrite Hsa, app_nil_r, <- app_assoc. repeat split.
      * rewrite Hinv in Heff. exact Heff.
    + exact Hnd'.
    + intros k Hk Hin'. apply in_app_or in Hin'. destruct Hin' as [Hin'|[<-|[]]].
      * apply (Hfresh k); [now right | exact Hin'].
      * contradiction.
    + intros k Hk. apply Hin. now right.
    + exists w'. split.
      * simpl for_each. rewrite (bind_Ret _ _ _ _ _ Hrun). exact Hrest.
      * now rewrite <- app_assoc in Hinv'.
Qed.

Lemma resolve_pass :
  NoDup (keys (all_symbols w)) ->
  exists w',
    resolve_symbols w = Ret tt w' /\
    keys (all_symbols w') = keys (all_symbols w) /\
    forall k s,
      lookup k (all_symbols w) = Some s ->
      exists s',
        lookup k (all_symbols w') = Some s' /\
        depends_on s' = map (resolve_name w) (depends_on s) /\
        selects s' = map (resolve_name w) (selects s) /\
        dependants s' = dependants s ++ back_edges w (keys (all_symbols w)) k.
Proof.
  intro Hnd.
  destruct (resolve_pass_loop (keys (all_symbols w)) [] w) as (w' & Hrun & Hkeys & Hinv).
  - split; [reflexivity|]. intro k.
    destruct (lookup k (all_symbols w)) as [s|]; [|reflexivity].
    exists s. simpl. now rewrite app_nil_r.
  - exact Hnd.
  - intros k _ [].
  - intros k Hk. destruct (lookup_in_keys k _ Hk) as (s & ->). discriminate.
  - exists w'. split; [exact Hrun|]. split; [exact Hkeys|].
    intros k s Hk. specialize (Hinv k). rewrite Hk in Hinv.
    destruct Hinv as (s' & Hs' & Hd & Hs & Hb). simpl in Hd, Hs, Hb.
    assert (Hmem : existsb (String.eqb k) (keys (all_symbols w)) = true).
    { apply existsb_exists. exists k.
      split; [exact (lookup_keys _ _ _ Hk) | apply String.eqb_refl]. }
    rewrite Hmem in Hd, Hs. exists s'. auto.
Qed.
End ResolvePass.

Lemma resolvable_names (w : World) :
  resolvable w = true ->
  NoDup (keys (all_symbols w)) /\
  forall k s, lookup k (all_symbols w) = Some s ->
              forallb (declared w) (depends_on s) = true /\
              forallb is_name (selects s) = true.
Proof.
  unfold resolvable. intro H. apply andb_prop in H. destruct H as [Hnd Hall].
  split; [now apply nodupb_NoDup|].
  intros k s Hk. rewrite forallb_forall in Hall.
  specialize (Hall (k, s) (lookup_In _ _ _ Hk)). simpl in Hall.
  now apply andb_prop in Hall.
Qed.

(** X11: forward references resolve.  On a table in which every
    [depends on] names a symbol declared somewhere in the table, before
    or after the symbol that names it, [resolve_symbols] returns, keeps
    the keys, and has turned every name in every [depends_on] and
    [selects] into the link to the symbol of that name ([None] for a
    [select] of an undeclared name). *)
Theorem resolve_symbols_links (w : World) :
  resolvable w = true ->
  exists w',
    resolve_symbols w = Ret tt w' /\
    keys (all_symbols w') = keys (all_symbols w) /\
    forall k s,
      lookup k (all_symbols w) = Some s ->
      exists s',
        lookup k (all_symbols w') = Some s' /\
        depends_on s' = map (resolve_name w) (depends_on s) /\
        selects s' = map (resolve_name w) (selects s).
Proof.
  intro H. destruct (resolvable_names w H) as [Hnd Hnames].
  destruct (resolve_pass w Hnames Hnd) as (w' & Hrun & Hkeys & Hall).
  exists w'. split; [exact Hrun|]. split; [exact Hkeys|].
  intros k s Hk. destruct (Hall k s Hk) as (s' & Hs' & Hd & Hs & _).
  exists s'. auto.
Qed.

Lemma resolve_symbols_links_witness :
  exists w',
    resolve_symbols ex_output_parsed = Ret tt w' /\
    keys (all_symbols w') = keys (all_symbols ex_output_parsed) /\
    forall k s,
      lookup k (all_symbols ex_output_parsed) = Some s ->
      exists s',
        lookup k (all_symbols w') = Some s' /\
        depends_on s' = map (resolve_name ex_output_parsed) (depends_on s) /\
        selects s' = map (resolve_name ex_output_parsed) (selects s).
Proof.
  apply (resolve_symbols_links ex_output_parsed). vm_compute. reflexivity.
Defined.

(** X12: the back-edges are the dependency edges turned round.  After
    [resolve_symbols] on such a table, the [dependants] of a symbol are
    those it had, followed by one link to [a] for each time a symbol [a]
    names it in [depends_on], in table order; [select] edges add no
    dependant. *)
Theorem resolve_symbols_back_edges (w : World) (k : string) (s : Symbol) :
  resolvable w = true ->
  lookup k (all_symbols w) = Some s ->
  exists s',
    lookup k (all_symbols (world_of (resolve_symbols w))) = Some s' /\
    dependants s' = dependants s ++ back_edges w (keys (all_symbols w)) k.
Proof.
  intros H Hk. destruct (resolvable_names w H) as [Hnd Hnames].
  destruct (resolve_pass w Hnames Hnd) as (w' & Hrun & Hkeys & Hall).
  rewrite Hrun. simpl. destruct (Hall k s Hk) as (s' & Hs' & _ & _ & Hb).
  exists s'. auto.
Qed.

Lemma resolve_symbols_back_edges_witness :
  exists s',
    lookup "C" (all_symbols (world_of (resolve_symbols ex_output_parsed))) = Some s' /\
    dependants s' = [VSym "B1"; VSym "B2"].
Proof.
  assert (Hs : { s | lookup "C" (all_symbols ex_output_parsed) = Some s /\
                     dependants s = [] })
    by (vm_compute; eexists; split; reflexivity).
  destruct Hs as (s & Hs & Hd).
  assert (Hr : resolvable ex_output_parsed = true) by (vm_compute; reflexivity).
  destruct (resolve_symbols_back_edges ex_output_parsed "C" s Hr Hs)
    as (s' & Hs' & Hb).
  exists s'. split; [exact Hs'|]. rewrite Hb, Hd. vm_compute. reflexivity.
Defined.

(** ** A dependency on an undeclared name *)

Section Dangling.
Variable k n : string.

(** Along the pass, up to the turn of [k]: the undeclared name stays
    undeclared and the [depends_on] of [k] stays what it is. *)
Let waiting (w w' : World) : Prop :=
  (lookup n (all_symbols w) = None -> lookup n (all_symbols w') = None) /\
  (forall s, lookup k (all_symbols w) = Some s ->
             exists s', lookup k (all_symbols w') = Some s' /\
                        depends_on s' = depends_on s).

Lemma waiting_refl (w : World) : waiting w w.
Proof. split; eauto. Qed.

Lemma waiting_trans (a b c : World) : waiting a b -> waiting b c -> waiting a c.
Proof.
  intros [H1 H2] [G1 G2]. split; [auto|].
  intros s Hs. destruct (H2 s Hs) as (s1 & Hs1 & Hd1).
  destruct (G2 s1 Hs1) as (s2 & Hs2 & Hd2). exists s2. split; congruence.
Qed.

Lemma waiting_print (line : string) : keeps waiting (print line).
Proof. intro w. simpl. split; eauto. Qed.

Lemma waiting_modify (a : string) (f : Symbol -> Symbol) :
  (a = k -> forall s, depends_on (f s) = depends_on s) ->
  keeps waiting (modify_obj a f).
Proof.
  intros Hf w. unfold modify_obj.
  destruct (lookup a (all_symbols w)) as [sa|]; simpl; [|apply waiting_refl].
  split; simpl.
  - intro H. now rewrite lookup_update, H.
  - intros s Hs. rewrite lookup_update, Hs. simpl.
    eexists. split; [reflexivity|].
    destruct (String.eqb_spec a k) as [E|]; [now apply Hf | reflexivity].
Qed.

Lemma waiting_error (self errstr : string) : keeps waiting (error self errstr).
Proof.
  apply (keeps_bind waiting waiting_trans);
    [apply (keeps_get_obj waiting waiting_refl) | intro me; apply waiting_print].
Qed.

Lemma waiting_add_dependant (nd dep : pyval) : keeps waiting (add_dependant nd dep).
Proof.
  apply (keeps_bind waiting waiting_trans);
    [apply (keeps_as_symbol waiting waiting_refl) | intro a].
  apply waiting_modify. reflexivity.
Qed.

Lemma waiting_resolve_dependencies_loop (self : string) (deps : list pyval) :
  forall acc, keeps waiting (resolve_dependencies_loop self deps acc).
Proof.
  induction deps as [|dep deps IH]; intro acc; simpl.
  - apply (keeps_ret waiting waiting_refl).
  - apply (keeps_bind waiting waiting_trans).
    { destruct (py_eq dep (VMethod self "name"));
        [apply waiting_error | apply (keeps_ret waiting waiting_refl)]. }
    intros _. apply (keeps_bind waiting waiting_trans);
      [apply (keeps_get_symbol waiting waiting_refl waiting_trans waiting_print)
      | intro nd].
    apply (keeps_bind waiting waiting_trans);
      [apply waiting_add_dependant | intros _; apply IH].
Qed.

Lemma waiting_resolve_selects_loop (self : string) (sels : list pyval) :
  forall acc, keeps waiting (resolve_selects_loop self sels acc).
Proof.
  induction sels as [|sel sels IH]; intro acc; simpl.
  - apply (keeps_ret waiting waiting_refl).
  - apply (keeps_bind waiting waiting_trans).
    { destruct (py_eq sel (VMethod self "name"));
        [apply waiting_error | apply (keeps_ret waiting waiting_refl)]. }
    intros _. apply (keeps_bind waiting waiting_trans);
      [apply (keeps_get_symbol waiting waiting_refl waiting_trans waiting_print)
      | intro nd; apply IH].
Qed.

Lemma waiting_resolve_other (a : string) :
  a <> k ->
  keeps waiting (resolve_dependencies a ;; resolve_selects a).
Proof.
  intro Hne. apply (keeps_bind waiting waiting_trans).
  - unfold resolve_dependencies.
    apply (keeps_bind waiting waiting_trans);
      [apply (keeps_get_obj waiting waiting_refl) | intro me].
    apply (keeps_bind waiting waiting_trans);
      [apply waiting_resolve_dependencies_loop | intro nd].
    apply waiting_modify. intro E. contradiction.
  - intros _. unfold resolve_selects.
    apply (keeps_bind waiting waiting_trans);
      [apply (keeps_get_obj waiting waiting_refl) | intro me].
    apply (keeps_bind waiting waiting_trans);
      [apply waiting_resolve_selects_loop | intro ns].
    apply waiting_modify. reflexivity.
Qed.

(** The loop of [resolve_dependencies] does not get past the undeclared
    name. *)
Lemma bind_not_returned {A B} (m : M A) (f : A -> M B) (w : World) :
  (forall a w', m w = Ret a w' -> returned (f a w') = false) ->
  returned (bind m f w) = false.
Proof.
  intro H. unfold bind. destruct (m w) as [a w'|e w']; [|reflexivity].
  now apply H.
Qed.

Lemma dangling_loop (self : string) (deps : list pyval) :
  forall acc w,
    In (VStr n) deps ->
    lookup n (all_symbols w) = None ->
    returned (resolve_dependencies_loop self deps acc w) = false.
Proof.
  induction deps as [|dep deps IH]; intros acc w Hin Hn; [destruct Hin|].
  cbn [resolve_dependencies_loop].
  apply bind_not_returned. intros [] w0 Hrun0.
  assert (Hn0 : lookup n (all_symbols w0) = None).
  { destruct (py_eq dep (VMethod self "name")).
    - match type of Hrun0 with
      | error _ ?msg _ = _ => pose proof (waiting_error self msg w) as H
      end.
      rewrite Hrun0 in H. now apply H.
    - injection Hrun0 as <-. exact Hn. }
  apply bind_not_returned. intros nd w1 Hrun1.
  assert (Hn1 : lookup n (all_symbols w1) = None).
  { pose proof (keeps_get_symbol waiting waiting_refl waiting_trans
                  waiting_print dep w0) as H.
    rewrite Hrun1 in H. now apply H. }
  apply bind_not_returned. intros [] w2 Hrun2.
  assert (Hn2 : lookup n (all_symbols w2) = None).
  { pose proof (waiting_add_dependant nd (VSym self) w1) as H.
    rewrite Hrun2 in H. now apply H. }
  destruct Hin as [->|Hin]; [|now apply IH].
  exfalso. unfold get_symbol in Hrun1. rewrite Hn0 in Hrun1.
  unfold bind, print, ret in Hrun1. injection Hrun1 as <- <-.
  discriminate Hrun2.
Qed.

Lemma dangling_pass (todo : list string) :
  forall w s,
    In k todo ->
    lookup k (all_symbols w) = Some s ->
    In (VStr n) (depends_on s) ->
    lookup n (all_symbols w) = None ->
    returned (for_each (fun sym => resolve_dependencies sym ;; resolve_selects sym)
                       todo w) = false.
Proof.
  induction todo as [|a todo IH]; intros w s Hin Hs Hdep Hn; [destruct Hin|].
  simpl. unfold bind at 1.
  destruct (String.eqb_spec a k) as [->|Hne].
  - unfold bind at 1. unfold resolve_dependencies.
    rewrite (bind_Ret _ _ _ _ _ (get_obj_Ret _ _ _ Hs)).
    unfold bind at 1.
    pose proof (dangling_loop k (depends_on s) [] w Hdep Hn) as Hloop.
    destruct (resolve_dependencies_loop k (depends_on s) [] w);
      [discriminate | reflexivity].
  - pose proof (waiting_resolve_other a Hne w) as Hw.
    destruct ((resolve_dependencies a ;; resolve_selects a) w) as [[] w0|e w0];
      [|reflexivity].
    simpl in Hw. destruct Hw as [Hn0 Hk0].
    destruct (Hk0 s Hs) as (s0 & Hs0 & Hd0).
    destruct Hin as [E|Hin]; [congruence|].
    apply (IH w0 s0 Hin Hs0); [now rewrite Hd0 | auto].
Qed.
End Dangling.

(** X13: one dependency on a name that no symbol of the table has keeps
    the whole resolution pass from returning, wherever the symbol stands
    in the table and wherever the name stands in its list. *)
Theorem resolve_symbols_dangling_dependency
        (w : World) (k n : string) (s : Symbol) :
  lookup k (all_symbols w) = Some s ->
  In (VStr n) (depends_on s) ->
  lookup n (all_symbols w) = None ->
  returned (resolve_symbols w) = false.
Proof.
  intros Hs Hin Hn. unfold resolve_symbols, for_all_symbols.
  exact (dangling_pass k n (keys (all_symbols w)) w s
           (lookup_keys _ _ _ Hs) Hs Hin Hn).
Qed.

Lemma resolve_symbols_dangling_dependency_witness :
  returned (resolve_symbols
              (parsed [config "B" [] [] false;
                       config "A" ["B"; "X"] [] false])) = false.
Proof.
  eapply (resolve_symbols_dangling_dependency _ "A" "X");
    [vm_compute; reflexivity | simpl; auto | vm_compute; reflexivity].
Defined.

(** * The tokenizer and the option lines *)

(** [get_token] delivers the head of the supply; at the end of the stream
    it returns the empty string and leaves the supply empty. *)
Lemma get_token_supply (tk : Tokenizer.t) :
  match supply tk with
  | tok :: rest =>
      fst (Tokenizer.get_token tk) = tok /\
      supply (snd (Tokenizer.get_token tk)) = rest
  | [] =>
      fst (Tokenizer.get_token tk) = EmptyString /\
      supply (snd (Tokenizer.get_token tk)) = []
  end /\
  Tokenizer.curr_token (snd (Tokenizer.get_token tk)) = fst (Tokenizer.get_token tk).
Proof.
  destruct tk as [[name line pb up] cur].
  unfold supply, stream, Tokenizer.get_token, Tokenizer.shlex_get_token. simpl.
  destruct pb as [|p pb]; simpl.
  - destruct up as [|[tok ln pd] up]; simpl; auto.
  - auto.
Qed.

(** Reading one token. *)
Lemma get_token_next (tk : Tokenizer.t) (tok : string) (rest : list string) :
  supply tk = tok :: rest ->
  exists tk',
    Tokenizer.get_token tk = (tok, tk') /\
    supply tk' = rest /\
    Tokenizer.curr_token tk' = tok.
Proof.
  intro Hs. pose proof (get_token_supply tk) as H. rewrite Hs in H.
  destruct H as [(Hf & Hr) Hc].
  exists (snd (Tokenizer.get_token tk)). repeat split.
  - rewrite <- Hf. now destruct (Tokenizer.get_token tk).
  - exact Hr.
  - congruence.
Qed.

Lemma end_of_option_true (tk : Tokenizer.t) :
  Option.end_of_option tk = (PyTrue, snd (Option.end_of_option tk)).
Proof.
  unfold Option.end_of_option. now destruct (Tokenizer.at_nl tk).
Qed.

(** The look-ahead that finds the newline takes it. *)
Lemma end_of_option_newline (tk : Tokenizer.t) (rest : list string) :
  supply tk = nl :: rest ->
  supply (snd (Option.end_of_option tk)) = rest.
Proof.
  intro Hs. destruct (get_token_next tk _ _ Hs) as (tk1 & Hg & Hs1 & _).
  unfold Option.end_of_option, Tokenizer.at_nl. rewrite Hg.
  rewrite String.eqb_refl. exact Hs1.
Qed.

(** X14: [if not tk.at_nl(): tk.put_token()], the way every option line
    ends.  A newline that comes next is taken.  Any other token is put
    back, and [put_token] appends it at the right end of the queue: it
    comes back behind what was pushed back before it, and behind the
    character the lexer pushed back on reading it, so that a word that
    ends its line comes back after its newline.  At the end of the stream
    one empty token is queued. *)
Theorem end_of_option_peeks (tk : Tokenizer.t) :
  let tk' := snd (Option.end_of_option tk) in
  fst (Option.end_of_option tk) = PyTrue /\
  (forall rest, supply tk = nl :: rest -> supply tk' = rest) /\
  (forall x pb,
     Tokenizer.pushback (Tokenizer.lexer tk) = x :: pb ->
     x <> nl ->
     supply tk' = pb ++ x :: stream (Tokenizer.upcoming (Tokenizer.lexer tk))) /\
  (forall r rs,
     Tokenizer.pushback (Tokenizer.lexer tk) = [] ->
     Tokenizer.upcoming (Tokenizer.lexer tk) = r :: rs ->
     Tokenizer.token r <> nl ->
     supply tk' =
       Tokenizer.queued (Tokenizer.pushed r) ++ Tokenizer.token r :: stream rs) /\
  (Tokenizer.pushback (Tokenizer.lexer tk) = [] ->
   Tokenizer.upcoming (Tokenizer.lexer tk) = [] ->
   supply tk' = [EmptyString]).
Proof.
  intro tk'. subst tk'.
  split; [now rewrite end_of_option_true|].
  split; [intros rest; apply end_of_option_newline|].
  destruct tk as [[name line pb up] cur]. simpl.
  unfold Option.end_of_option, Tokenizer.at_nl, Tokenizer.get_token,
    Tokenizer.shlex_get_token, supply. simpl.
  split; [|split].
  - intros x pb' -> Hx. apply String.eqb_neq in Hx. rewrite Hx. simpl.
    now rewrite <- app_assoc.
  - intros r rs -> -> Hr. apply String.eqb_neq in Hr. simpl. rewrite Hr. simpl.
    now rewrite <- app_assoc.
  - intros -> ->. reflexivity.
Qed.

(** ** Help text *)

(** X15: [help] discards the rest of its line.  When a newline is still
    to come, the loop of [parse_help] ends at the first one, with every
    token up to it taken off the supply, once it is given as many turns
    as there are tokens before it. *)
Theorem parse_help_skips_line (pre post : list string) :
  forall fuel tk,
    supply tk = pre ++ nl :: post ->
    ~ In nl pre ->
    Tokenizer.current_token tk <> nl ->
    length pre < fuel ->
    exists tk',
      Option.parse_help fuel tk = Some tk' /\
      supply tk' = post /\
      Tokenizer.current_token tk' = nl.
Proof.
  induction pre as [|t pre IH]; intros fuel tk Hs Hnot Hcur Hfuel.
  - destruct fuel as [|fuel]; [simpl in Hfuel; lia|].
    simpl. apply String.eqb_neq in Hcur. rewrite Hcur.
    pose proof (get_token_supply tk) as H. simpl in Hs. rewrite Hs in H.
    destruct H as [(Hf & Hr) Hc].
    exists (snd (Tokenizer.get_token tk)).
    assert (Hnl : Tokenizer.current_token (snd (Tokenizer.get_token tk)) = nl)
      by (unfold Tokenizer.current_token; congruence).
    split; [|auto].
    destruct fuel; simpl; now rewrite Hnl, String.eqb_refl.
  - destruct fuel as [|fuel]; [simpl in Hfuel; lia|].
    simpl. apply String.eqb_neq in Hcur. rewrite Hcur.
    pose proof (get_token_supply tk) as H. simpl in Hs. rewrite Hs in H.
    destruct H as [(Hf & Hr) Hc].
    apply IH.
    + exact Hr.
    + intro Hin. apply Hnot. now right.
    + unfold Tokenizer.current_token. rewrite Hc, Hf.
      intro E. apply Hnot. now left.
    + simpl in Hfuel. lia.
Qed.

(** The lines [help some text] and [config B]. *)
Lemma parse_help_skips_line_witness :
  exists tk',
    Option.parse_help 3
      (lexing "help" 4 [Tokenizer.mkRead "some" 4 None;
                        Tokenizer.mkRead "text" 5 (Some nl);
                        Tokenizer.mkRead "config" 5 None;
                        Tokenizer.mkRead "B" 6 (Some nl)])
      = Some tk' /\
    supply tk' = ["config"; "B"; nl] /\
    Tokenizer.current_token tk' = nl.
Proof.
  apply (parse_help_skips_line ["some"; "text"] ["config"; "B"; nl] 3).
  - reflexivity.
  - simpl. intros [H|[H|[]]]; discriminate H.
  - discriminate.
  - simpl. lia.
Defined.

(** X16: when no newline is left in the supply, as for help text on a
    last line that does not end in one, the loop of [parse_help] never
    ends: at the end of the stream [get_token] goes on returning the
    empty string. *)
Theorem parse_help_never_ends (fuel : nat) :
  forall tk,
    ~ In nl (supply tk) ->
    Tokenizer.current_token tk <> nl ->
    Option.parse_help fuel tk = None.
Proof.
  induction fuel as [|fuel IH]; intros tk Hnot Hcur; simpl;
    pose proof Hcur as Hcur'; apply String.eqb_neq in Hcur'; rewrite Hcur';
    [reflexivity|].
  pose proof (get_token_supply tk) as H.
  destruct (supply tk) as [|t rest] eqn:Hs.
  - destruct H as [(Hf & Hr) Hc]. apply IH.
    + rewrite Hr. auto.
    + unfold Tokenizer.current_token. rewrite Hc, Hf. discriminate.
  - destruct H as [(Hf & Hr) Hc]. apply IH.
    + rewrite Hr. intro Hin. apply Hnot. now right.
    + unfold Tokenizer.current_token. rewrite Hc, Hf.
      intro E. apply Hnot. now left.
Qed.

(** A last line [help last words] with no newline after it. *)
Lemma parse_help_never_ends_witness :
  Option.parse_help 1000
    (lexing "help" 9 [Tokenizer.mkRead "last" 9 None;
                      Tokenizer.mkRead "words" 9 None]) = None.
Proof.
  apply parse_help_never_ends.
  - simpl. intros [H|[H|[]]]; discriminate H.
  - discriminate.
Defined.

(** ** Option lines *)

(** X17: a line [depends on NAME] appends [NAME] to [depends_on], after
    the names already there, and a line [select NAME] does so to
    [selects]; nothing else changes, the call returns [True] and the line
    is taken off the supply with its newline.  The name is not looked
    at: whatever token follows is taken, a newline included. *)
Theorem edge_lines (fuel : nat) (tk : Tokenizer.t) (sym name : string)
        (s : Symbol) (rest : list string) (w : World) :
  lookup sym (all_symbols w) = Some s ->
  (supply tk = "depends" :: "on" :: name :: nl :: rest ->
   exists tk',
     Option.parse fuel tk sym w =
       Ret (Some (PyTrue, tk'))
           (with_symbols
              (update sym (fun s => set_depends_on (depends_on s ++ [VStr name]) s)
                      (all_symbols w)) w) /\
     supply tk' = rest) /\
  (supply tk = "select" :: name :: nl :: rest ->
   exists tk',
     Option.parse fuel tk sym w =
       Ret (Some (PyTrue, tk'))
           (with_symbols
              (update sym (fun s => set_selects (selects s ++ [VStr name]) s)
                      (all_symbols w)) w) /\
     supply tk' = rest).
Proof.
  intros Hs. split; intro Hsup.
  - destruct (get_token_next tk _ _ Hsup) as (tk1 & Hg1 & Hs1 & _).
    destruct (get_token_next tk1 _ _ Hs1) as (tk2 & Hg2 & Hs2 & _).
    destruct (get_token_next tk2 _ _ Hs2) as (tk3 & Hg3 & Hs3 & _).
    exists (snd (Option.end_of_option tk3)).
    split; [|now apply end_of_option_newline].
    unfold Option.parse. rewrite Hg1. simpl.
    unfold Option.parse_depends_on. rewrite Hg2. simpl. rewrite Hg3.
    unfold add_dependency, bind. rewrite (modify_obj_Ret sym _ _ _ Hs).
    unfold ret. now rewrite <- end_of_option_true.
  - destruct (get_token_next tk _ _ Hsup) as (tk1 & Hg1 & Hs1 & _).
    destruct (get_token_next tk1 _ _ Hs1) as (tk2 & Hg2 & Hs2 & _).
    exists (snd (Option.end_of_option tk2)).
    split; [|now apply end_of_option_newline].
    unfold Option.parse. rewrite Hg1. simpl.
    unfold Option.parse_select. rewrite Hg2.
    unfold add_select, bind. rewrite (modify_obj_Ret sym _ _ _ Hs).
    unfold ret. now rewrite <- end_of_option_true.
Qed.

(** The lines [depends on B] and [select C], each word at the end of a
    line leaving its newline in the queue. *)
Lemma edge_lines_witness :
  exists tk',
    Option.parse 0
      (lexing nl 2 [Tokenizer.mkRead "depends" 2 None;
                    Tokenizer.mkRead "on" 2 None;
                    Tokenizer.mkRead "B" 3 (Some nl);
                    Tokenizer.mkRead "select" 3 None;
                    Tokenizer.mkRead "C" 4 (Some nl)]) "A"
      (parsed [config "A" [] [] false]) =
      Ret (Some (PyTrue, tk')) (parsed [config "A" ["B"] [] false]) /\
    supply tk' = ["select"; "C"; nl].
Proof.
  exact (proj1 (edge_lines 0
                  (lexing nl 2 [Tokenizer.mkRead "depends" 2 None;
                                Tokenizer.mkRead "on" 2 None;
                                Tokenizer.mkRead "B" 3 (Some nl);
                                Tokenizer.mkRead "select" 3 None;
                                Tokenizer.mkRead "C" 4 (Some nl)])
                  "A" "B" _ ["select"; "C"; nl]
                  (parsed [config "A" [] [] false]) eq_refl) eq_refl).
Defined.

Lemma parse_string_quoted (tk : Tokenizer.t) (c : ascii) (s : string) (w : World) :
  is_quote c = true ->
  is_quote (last_char c s) = true ->
  Option.parse_string tk (String c s) w =
  Ret (strip [quotation; apostrophe] (String c s), tk) w.
Proof.
  unfold is_quote. intros Hc Hl. unfold Option.parse_string.
  step (index_first c s w). cbv beta.
  apply orb_prop in Hc. apply orb_prop in Hl.
  assert (H1 : negb (Ascii.eqb c apostrophe) && negb (Ascii.eqb c quotation) = false)
    by (destruct Hc as [-> | ->]; simpl; [|rewrite andb_false_r]; reflexivity).
  rewrite H1. cbv zeta. step (index_last c s w). cbv beta.
  assert (H2 : negb (Ascii.eqb (last_char c s) apostrophe)
               && negb (Ascii.eqb (last_char c s) quotation) = false)
    by (destruct Hl as [-> | ->]; simpl; [|rewrite andb_false_r]; reflexivity).
  now rewrite H2.
Qed.

Lemma parse_string_unquoted (tk : Tokenizer.t) (c : ascii) (s : string) (w : World) :
  is_quote c = false ->
  Option.parse_string tk (String c s) w =
  Ret (EmptyString, Tokenizer.put_token None tk)
      (world_of (Tokenizer.error tk
                   "String must start with an apostrophe or a quotation" w)).
Proof.
  unfold is_quote. intro Hc. apply orb_false_elim in Hc. destruct Hc as [H1 H2].
  unfold Option.parse_string. step (index_first c s w). cbv beta.
  rewrite H1, H2. reflexivity.
Qed.

(** A token read from the stream and put back before the look-ahead at
    the end of the option line: it is first in the supply again, unless
    it is the newline, and the newline that ended it is gone. *)
Lemma refused_token (name : string) (line l : nat) (cur tok : string)
      (p : option string) (rs : list Tokenizer.read) :
  let tk := Tokenizer.mkTokenizer
              (Tokenizer.mkShlex name line [] (Tokenizer.mkRead tok l p :: rs)) cur in
  let tk1 := snd (Tokenizer.get_token tk) in
  supply (snd (Option.end_of_option (Tokenizer.put_token None tk1))) =
  match p with
  | None => if String.eqb tok nl then stream rs else tok :: stream rs
  | Some d => tok :: (if String.eqb d nl then stream rs else d :: stream rs)
  end.
Proof.
  unfold Option.end_of_option, Tokenizer.at_nl, Tokenizer.get_token,
    Tokenizer.shlex_get_token, Tokenizer.put_token, supply. simpl.
  destruct p as [d|]; simpl.
  - destruct (String.eqb d nl); reflexivity.
  - destruct (String.eqb tok nl); reflexivity.
Qed.

(** X18: a type line.  [bool], [tristate] or [string] followed by a
    string in quotes and the end of the line sets the symbol's type to
    the keyword and its prompt to the string without the quotes, and the
    line is taken off the supply.  Followed by a token that does not open
    with a quote, the keyword sets nothing: the symbol is what it was.
    That token is left for the next read unless it is the newline, but
    the newline that ended it is taken: the look-ahead finds it in front
    of the token put back.  A keyword that ends its line sets nothing
    either, and the line is taken off the supply. *)
Theorem type_lines (fuel : nat) (tk : Tokenizer.t) (sym kw : string)
        (c : ascii) (x : string) (s : Symbol) (w : World) :
  lookup sym (all_symbols w) = Some s ->
  In kw ["bool"; "tristate"; "string"] ->
  (forall rest,
     supply tk = kw :: String c x :: nl :: rest ->
     is_quote c = true ->
     is_quote (last_char c x) = true ->
     exists tk',
       Option.parse fuel tk sym w =
         Ret (Some (PyTrue, tk'))
             (with_symbols
                (update sym
                   (fun s => with_prompt
                               (Some (strip [quotation; apostrophe] (String c x)))
                               (with_type (Some kw) s))
                   (all_symbols w)) w) /\
       supply tk' = rest) /\
  (forall l1 l2 p rs,
     Tokenizer.pushback (Tokenizer.lexer tk) = [] ->
     Tokenizer.upcoming (Tokenizer.lexer tk) =
       Tokenizer.mkRead kw l1 None :: Tokenizer.mkRead (String c x) l2 p :: rs ->
     is_quote c = false ->
     exists tk',
       Option.parse fuel tk sym w = Ret (Some (PyTrue, tk')) w /\
       supply tk' =
         match p with
         | None => if String.eqb (String c x) nl then stream rs
                   else String c x :: stream rs
         | Some d => String c x :: (if String.eqb d nl then stream rs
                                    else d :: stream rs)
         end) /\
  (forall l1 rs,
     Tokenizer.pushback (Tokenizer.lexer tk) = [] ->
     Tokenizer.upcoming (Tokenizer.lexer tk) =
       Tokenizer.mkRead kw l1 (Some nl) :: rs ->
     exists tk',
       Option.parse fuel tk sym w = Ret (Some (PyTrue, tk')) w /\
       supply tk' = stream rs).
Proof.
  intros Hs Hkw.
  assert (Hparse : forall tk1,
            Tokenizer.get_token tk = (kw, tk1) ->
            Option.parse fuel tk sym w =
            (tk' <- Option.parse_type tk1 kw sym ;;
             ret (Some (Option.end_of_option tk'))) w).
  { intros tk1 Hg1. unfold Option.parse. rewrite Hg1.
    destruct Hkw as [<-|[<-|[<-|[]]]]; reflexivity. }
  split; [|split].
  - intros rest Hsup Hq Hl.
    destruct (get_token_next tk _ _ Hsup) as (tk1 & Hg1 & Hs1 & _).
    destruct (get_token_next tk1 _ _ Hs1) as (tk2 & Hg2 & Hs2 & _).
    exists (snd (Option.end_of_option tk2)).
    split; [|now apply end_of_option_newline].
    rewrite (Hparse tk1 Hg1). unfold bind at 1.
    unfold Option.parse_type. rewrite Hg2.
    rewrite (bind_Ret _ _ _ _ _ (index_first c x w)).
    pose proof Hq as Hq0. unfold is_quote in Hq0. rewrite Hq0.
    unfold bind at 1.
    rewrite (parse_string_quoted tk2 c x w Hq Hl).
    simpl fst. simpl snd. unfold set_type.
    unfold bind at 1. rewrite (modify_obj_Ret sym _ _ _ Hs).
    unfold ret. now rewrite <- end_of_option_true.
  - intros l1 l2 p rs Hpb Hup Hq.
    destruct tk as [[nm ln pb up] cur]. simpl in Hpb, Hup. subst pb up.
    eexists. split.
    + erewrite Hparse by reflexivity. unfold bind at 1.
      unfold Option.parse_type.
      match goal with
      | |- context [Tokenizer.get_token ?t] =>
          destruct (Tokenizer.get_token t) as [tok2 tk2] eqn:Hg2
      end.
      injection Hg2 as <- <-.
      rewrite (bind_Ret _ _ _ _ _ (index_first c x w)).
      unfold is_quote in Hq. rewrite Hq.
      unfold ret. rewrite end_of_option_true. reflexivity.
    + exact (refused_token nm l1 l2 kw (String c x) p rs).
  - intros l1 rs Hpb Hup.
    destruct tk as [[nm ln pb up] cur]. simpl in Hpb, Hup. subst pb up.
    eexists. split.
    + erewrite Hparse by reflexivity. reflexivity.
    + reflexivity.
Qed.

(** The lines [bool FOO] and [select B]: the newline after [FOO] is
    taken and [FOO] is left. *)
Lemma type_lines_witness :
  exists tk',
    Option.parse 0
      (lexing nl 2 [Tokenizer.mkRead "bool" 2 None;
                    Tokenizer.mkRead "FOO" 3 (Some nl);
                    Tokenizer.mkRead "select" 3 None;
                    Tokenizer.mkRead "B" 4 (Some nl)]) "A"
      (parsed [config "A" [] [] false]) =
      Ret (Some (PyTrue, tk')) (parsed [config "A" [] [] false]) /\
    supply tk' = ["FOO"; "select"; "B"; nl].
Proof.
  refine (proj1 (proj2
            (type_lines 0
               (lexing nl 2 [Tokenizer.mkRead "bool" 2 None;
                             Tokenizer.mkRead "FOO" 3 (Some nl);
                             Tokenizer.mkRead "select" 3 None;
                             Tokenizer.mkRead "B" 4 (Some nl)])
               "A" "bool" "F"%char "OO" _
               (parsed [config "A" [] [] false]) eq_refl _))
            2 3 (Some nl)
            [Tokenizer.mkRead "select" 3 None; Tokenizer.mkRead "B" 4 (Some nl)]
            eq_refl eq_refl eq_refl).
  simpl. auto.
Defined.

(** X19: a prompt line.  [prompt] followed by a string in quotes and the
    end of the line sets the prompt to the string without the quotes.
    Followed by a token that does not open with a quote, it sets the
    prompt to the empty string, whatever the prompt was, and prints one
    line, which gives the line number the lexer has reached by reading
    the token.  The token is left for the next read unless it is the
    newline, and the newline that ended it is taken. *)
Theorem prompt_lines (fuel : nat) (tk : Tokenizer.t) (sym : string)
        (c : ascii) (x : string) (s : Symbol) (w : World) :
  lookup sym (all_symbols w) = Some s ->
  (forall rest,
     supply tk = "prompt" :: String c x :: nl :: rest ->
     is_quote c = true ->
     is_quote (last_char c x) = true ->
     exists tk',
       Option.parse fuel tk sym w =
         Ret (Some (PyTrue, tk'))
             (with_symbols
                (update sym
                   (with_prompt (Some (strip [quotation; apostrophe] (String c x))))
                   (all_symbols w)) w) /\
       supply tk' = rest) /\
  (forall l1 l2 p rs,
     Tokenizer.pushback (Tokenizer.lexer tk) = [] ->
     Tokenizer.upcoming (Tokenizer.lexer tk) =
       Tokenizer.mkRead "prompt" l1 None :: Tokenizer.mkRead (String c x) l2 p :: rs ->
     is_quote c = false ->
     exists tk' w',
       Option.parse fuel tk sym w = Ret (Some (PyTrue, tk')) w' /\
       lookup sym (all_symbols w') = Some (with_prompt (Some EmptyString) s) /\
       stdout w' =
         stdout w ++
         [("Error:" ++ Tokenizer.get_file_name tk ++ ":" ++ fmt_d l2 ++
           " String must start with an apostrophe or a quotation")%string] /\
       supply tk' =
         match p with
         | None => if String.eqb (String c x) nl then stream rs
                   else String c x :: stream rs
         | Some d => String c x :: (if String.eqb d nl then stream rs
                                    else d :: stream rs)
         end).
Proof.
  intros Hs. split.
  - intros rest Hsup Hq Hl.
    destruct (get_token_next tk _ _ Hsup) as (tk1 & Hg1 & Hs1 & _).
    destruct (get_token_next tk1 _ _ Hs1) as (tk2 & Hg2 & Hs2 & _).
    exists (snd (Option.end_of_option tk2)).
    split; [|now apply end_of_option_newline].
    unfold Option.parse. rewrite Hg1. simpl.
    unfold Option.parse_prompt. rewrite Hg2.
    unfold bind at 1. unfold bind at 1.
    rewrite (parse_string_quoted tk2 c x w Hq Hl).
    simpl fst. simpl snd. unfold set_prompt.
    unfold bind at 1. rewrite (modify_obj_Ret sym _ _ _ Hs).
    unfold ret. now rewrite <- end_of_option_true.
  - intros l1 l2 p rs Hpb Hup Hq.
    destruct tk as [[nm ln pb up] cur]. simpl in Hpb, Hup. subst pb up.
    eexists. eexists. split; [|split; [|split]].
    + unfold Option.parse.
      match goal with
      | |- context [Tokenizer.get_token ?t] =>
          destruct (Tokenizer.get_token t) as [tok1 tk1] eqn:Hg1
      end.
      injection Hg1 as <- <-. simpl.
      unfold Option.parse_prompt.
      match goal with
      | |- context [Tokenizer.get_token ?t] =>
          destruct (Tokenizer.get_token t) as [tok2 tk2] eqn:Hg2
      end.
      injection Hg2 as <- <-.
      unfold bind at 1. unfold bind at 1.
      rewrite (parse_string_unquoted _ c x w Hq).
      simpl fst. simpl snd. unfold set_prompt.
      unfold bind at 1.
      erewrite (modify_obj_Ret sym _ _ _) by (simpl; exact Hs).
      unfold ret. rewrite end_of_option_true. reflexivity.
    + simpl. rewrite lookup_update, Hs. simpl. now rewrite String.eqb_refl.
    + reflexivity.
    + exact (refused_token nm l1 l2 "prompt" (String c x) p rs).
Qed.

(** The line [prompt Foo] at the end of the file: [Foo] is left and the
    newline after it is taken; the diagnostic names line 3 for a token of
    line 2. *)
Lemma prompt_lines_witness :
  exists tk' w',
    Option.parse 0
      (lexing nl 2 [Tokenizer.mkRead "prompt" 2 None;
                    Tokenizer.mkRead "Foo" 3 (Some nl)]) "A"
      (parsed [config "A" [] [] false]) = Ret (Some (PyTrue, tk')) w' /\
    option_map prompt (lookup "A" (all_symbols w')) = Some (Some EmptyString) /\
    stdout w' =
      ["Error:Kconfig:3 String must start with an apostrophe or a quotation"] /\
    supply tk' = ["Foo"].
Proof.
  destruct (proj2 (prompt_lines 0
                     (lexing nl 2 [Tokenizer.mkRead "prompt" 2 None;
                                   Tokenizer.mkRead "Foo" 3 (Some nl)])
                     "A" "F"%char "oo" _ (parsed [config "A" [] [] false])
                     eq_refl)
                  2 3 (Some nl) [] eq_refl eq_refl eq_refl)
    as (tk' & w' & H1 & H2 & H3 & H4).
  exists tk', w'. split; [exact H1|]. split; [now rewrite H2|].
  split; [exact H3 | exact H4].
Defined.

(** X20: a token that starts no option.  On a newline, that is on a blank
    line, [Option.parse] takes it and returns [None].  On any other token
    that is no option keyword it returns [False] and puts the token back,
    at the right end of the queue: behind what was pushed back before it,
    and behind the character the lexer pushed back on reading it, so that
    a word that ends its line comes back after its newline.  Neither
    changes the world. *)
Theorem parse_no_option (fuel : nat) (tk : Tokenizer.t) (sym : string) (w : World) :
  let tok := fst (Tokenizer.get_token tk) in
  existsb (String.eqb tok)
          ["bool"; "tristate"; "string"; "select"; "depends"; "default";
           "prompt"; "help"; "--help--"] = false ->
  exists tk',
    Option.parse fuel tk sym w =
      Ret (Some (if String.eqb tok nl then PyNone else PyFalse, tk')) w /\
    (tok = nl -> supply tk' = tl (supply tk)) /\
    (tok <> nl ->
     forall x pb,
       Tokenizer.pushback (Tokenizer.lexer tk) = x :: pb ->
       supply tk' = pb ++ x :: stream (Tokenizer.upcoming (Tokenizer.lexer tk))) /\
    (tok <> nl ->
     forall r rs,
       Tokenizer.pushback (Tokenizer.lexer tk) = [] ->
       Tokenizer.upcoming (Tokenizer.lexer tk) = r :: rs ->
       supply tk' =
         Tokenizer.queued (Tokenizer.pushed r) ++ Tokenizer.token r :: stream rs) /\
    (Tokenizer.pushback (Tokenizer.lexer tk) = [] ->
     Tokenizer.upcoming (Tokenizer.lexer tk) = [] ->
     supply tk' = [EmptyString]).
Proof.
  intros tok Hkw.
  simpl in Hkw.
  apply orb_false_elim in Hkw. destruct Hkw as [E1 Hkw].
  apply orb_false_elim in Hkw. destruct Hkw as [E2 Hkw].
  apply orb_false_elim in Hkw. destruct Hkw as [E3 Hkw].
  apply orb_false_elim in Hkw. destruct Hkw as [E4 Hkw].
  apply orb_false_elim in Hkw. destruct Hkw as [E5 Hkw].
  apply orb_false_elim in Hkw. destruct Hkw as [E6 Hkw].
  apply orb_false_elim in Hkw. destruct Hkw as [E7 Hkw].
  apply orb_false_elim in Hkw. destruct Hkw as [E8 Hkw].
  apply orb_false_elim in Hkw. destruct Hkw as [E9 _].
  pose proof (get_token_supply tk) as Hsup.
  unfold Option.parse.
  destruct (Tokenizer.get_token tk) as [tok' tk1] eqn:Hg. simpl in tok. subst tok.
  rewrite E1, E2, E3, E4, E5, E6, E7, E8, E9. cbn [orb].
  simpl fst in Hsup. simpl snd in Hsup.
  destruct (String.eqb tok' nl) eqn:Hnl.
  - exists tk1. split; [reflexivity|].
    apply String.eqb_eq in Hnl.
    split; [|split; [|split]]; try (intro Hne; congruence).
    + intros _. destruct (supply tk); simpl; now destruct Hsup as [[_ ->] _].
    + intros Hpb Hup. destruct tk as [[nm ln pb up] cur]. simpl in Hpb, Hup.
      subst pb up. injection Hg as <- _. discriminate Hnl.
  - exists (Tokenizer.put_token (Some tok') tk1). split; [reflexivity|].
    apply String.eqb_neq in Hnl.
    destruct tk as [[nm ln pb up] cur]. simpl.
    unfold Tokenizer.get_token, Tokenizer.shlex_get_token in Hg. simpl in Hg.
    split; [intro; congruence|]. split; [|split].
    + intros _ x pb' ->. injection Hg as <- <-.
      unfold supply. simpl. now rewrite <- app_assoc.
    + intros _ r rs -> ->. injection Hg as <- <-.
      unfold supply. simpl. now rewrite <- app_assoc.
    + intros -> ->. injection Hg as <- <-. reflexivity.
Qed.

(** The line [endmenu] before [config B]: [endmenu] comes back behind
    its newline. *)
Lemma parse_no_option_witness :
  exists tk',
    Option.parse 0
      (lexing nl 6 [Tokenizer.mkRead "endmenu" 7 (Some nl);
                    Tokenizer.mkRead "config" 7 None;
                    Tokenizer.mkRead "B" 8 (Some nl)]) "A" (parsed []) =
      Ret (Some (PyFalse, tk')) (parsed []) /\
    supply tk' = [nl; "endmenu"; "config"; "B"; nl].
Proof.
  destruct (parse_no_option 0
              (lexing nl 6 [Tokenizer.mkRead "endmenu" 7 (Some nl);
                            Tokenizer.mkRead "config" 7 None;
                            Tokenizer.mkRead "B" 8 (Some nl)])
              "A" (parsed []) eq_refl)
    as (tk' & H1 & _ & _ & H2 & _).
  exists tk'. split; [exact H1|].
  refine (H2 _ _ _ eq_refl eq_refl). discriminate.
Defined.

(** * Config blocks *)

Lemma lookup_dict_set_same (k : string) (s : Symbol) (t : table) :
  lookup k (dict_set k s t) = Some s.
Proof.
  induction t as [|[k0 s0] t IH]; simpl.
  - now rewrite String.eqb_refl.
  - destruct (String.eqb k k0) eqn:E; simpl; rewrite E; [reflexivity | exact IH].
Qed.

Lemma lookup_dict_set_other (k k' : string) (s : Symbol) (t : table) :
  k' <> k -> lookup k' (dict_set k s t) = lookup k' t.
Proof.
  intro Hne. induction t as [|[k0 s0] t IH]; simpl.
  - apply String.eqb_neq in Hne. now rewrite Hne.
  - destruct (String.eqb_spec k k0) as [->|Hk]; simpl.
    + apply String.eqb_neq in Hne. now rewrite Hne.
    + now rewrite IH.
Qed.

(** X21: a blank line ends the option block.  After [config NAME] and a
    blank line, [Symbol.parse] returns with the symbol as [__init__] made
    it, and whatever follows the blank line, option lines included, is
    still in the supply. *)
Theorem blank_line_ends_block (fuel : nat) (tk : Tokenizer.t) (name : string)
        (rest : list string) (w : World) :
  Tokenizer.pushback (Tokenizer.lexer tk) = [] ->
  supply tk = name :: nl :: nl :: rest ->
  exists tk' w',
    Symbol_parse (S fuel) tk w = Ret (Some (name, tk')) w' /\
    supply tk' = rest /\
    lookup name (all_symbols w') =
      Some (new_symbol name
              (Tokenizer.get_lineno (snd (Tokenizer.get_token tk)))
              (Tokenizer.get_file_name (snd (Tokenizer.get_token tk)))).
Proof.
  intros _ Hsup.
  destruct (get_token_next tk _ _ Hsup) as (tk1 & Hg1 & Hs1 & _).
  destruct (get_token_next tk1 _ _ Hs1) as (tk2 & Hg2 & Hs2 & Hc2).
  destruct (get_token_next tk2 _ _ Hs2) as (tk3 & Hg3 & Hs3 & _).
  exists tk3. eexists. split; [|split].
  - unfold Symbol_parse. rewrite Hg1. unfold bind at 1. unfold Symbol_init at 1.
    unfold print at 1. rewrite Hg2. simpl negb. unfold bind at 1. unfold ret at 1.
    simpl options_loop. unfold Tokenizer.current_token. rewrite Hc2. simpl.
    unfold bind at 1. unfold Option.parse. rewrite Hg3. simpl. reflexivity.
  - exact Hs3.
  - simpl. rewrite Hg1. simpl. apply lookup_dict_set_same.
Qed.

(** The lines [config A], a blank line, and [default y]. *)
Lemma blank_line_ends_block_witness :
  exists tk' w',
    Symbol_parse 5
      (lexing "config" 1 [Tokenizer.mkRead "A" 2 (Some nl);
                          Tokenizer.mkRead nl 3 None;
                          Tokenizer.mkRead "default" 3 None;
                          Tokenizer.mkRead "y" 4 (Some nl)]) (parsed [])
      = Ret (Some ("A", tk')) w' /\
    supply tk' = ["default"; "y"; nl] /\
    lookup "A" (all_symbols w') = Some (new_symbol "A" 2 "Kconfig").
Proof.
  exact (blank_line_ends_block 4
           (lexing "config" 1 [Tokenizer.mkRead "A" 2 (Some nl);
                               Tokenizer.mkRead nl 3 None;
                               Tokenizer.mkRead "default" 3 None;
                               Tokenizer.mkRead "y" 4 (Some nl)]) "A"
           ["default"; "y"; nl] (parsed []) eq_refl eq_refl).
Defined.

(** X22: anything but a newline after [config NAME] ends the run.  The
    symbol is made and entered in the table, the unexpected token is
    reported, and the call of [put_back], a method the tokenizer does not
    have, raises [AttributeError]. *)
Theorem junk_after_config_name (fuel : nat) (tk : Tokenizer.t) (name tok : string)
        (rest : list string) (w : World) :
  Tokenizer.pushback (Tokenizer.lexer tk) = [] ->
  supply tk = name :: tok :: rest ->
  tok <> nl ->
  exists w',
    Symbol_parse fuel tk w = Exc AttributeError w' /\
    lookup name (all_symbols w') =
      Some (new_symbol name
              (Tokenizer.get_lineno (snd (Tokenizer.get_token tk)))
              (Tokenizer.get_file_name (snd (Tokenizer.get_token tk)))) /\
    length (stdout w') = length (stdout w) + 2.
Proof.
  intros _ Hsup Hne.
  destruct (get_token_next tk _ _ Hsup) as (tk1 & Hg1 & Hs1 & _).
  destruct (get_token_next tk1 _ _ Hs1) as (tk2 & Hg2 & Hs2 & Hc2).
  apply String.eqb_neq in Hne.
  eexists. split; [|split].
  - unfold Symbol_parse. rewrite Hg1. unfold bind at 1. unfold Symbol_init at 1.
    unfold print at 1. rewrite Hg2, Hne. simpl negb. reflexivity.
  - simpl. rewrite Hg1. simpl. apply lookup_dict_set_same.
  - simpl. rewrite !length_app. simpl. lia.
Qed.

(** The line [config A B]. *)
Lemma junk_after_config_name_witness :
  exists w',
    Symbol_parse 5
      (lexing "config" 1 [Tokenizer.mkRead "A" 1 None;
                          Tokenizer.mkRead "B" 2 (Some nl)]) (parsed [])
      = Exc AttributeError w' /\
    lookup "A" (all_symbols w') = Some (new_symbol "A" 1 "Kconfig") /\
    length (stdout w') = 2.
Proof.
  refine (junk_after_config_name 5
            (lexing "config" 1 [Tokenizer.mkRead "A" 1 None;
                                Tokenizer.mkRead "B" 2 (Some nl)]) "A" "B"
            [nl] (parsed []) eq_refl eq_refl _).
  discriminate.
Defined.

(** X24: the word that ends a config block comes back late.  When the
    name of the block ends its line and the next line opens with a word
    that starts no option and is ended by a character the lexer pushes
    back, as [endmenu] by its newline, [Symbol.parse] returns with that
    character in front of the word in the queue: the next two calls of
    [get_token] deliver them in the reverse of their order in the file.
    The symbol records the line number the lexer had reached when it
    read the name, which is past the newline after it. *)
Theorem block_end_requeued (fuel : nat) (tk : Tokenizer.t) (name word c : string)
        (l1 l2 : nat) (rs : list Tokenizer.read) (w : World) :
  Tokenizer.pushback (Tokenizer.lexer tk) = [] ->
  Tokenizer.upcoming (Tokenizer.lexer tk) =
    Tokenizer.mkRead name l1 (Some nl) :: Tokenizer.mkRead word l2 (Some c) :: rs ->
  existsb (String.eqb word)
          ["bool"; "tristate"; "string"; "select"; "depends"; "default";
           "prompt"; "help"; "--help--"] = false ->
  word <> nl ->
  exists tk' w',
    Symbol_parse (S fuel) tk w = Ret (Some (name, tk')) w' /\
    Tokenizer.pushback (Tokenizer.lexer tk') = [c; word] /\
    supply tk' = c :: word :: stream rs /\
    lookup name (all_symbols w') =
      Some (new_symbol name l1 (Tokenizer.get_file_name tk)).
Proof.
  intros Hpb Hup Hkw Hne.
  destruct tk as [[nm ln pb up] cur]. simpl in Hpb, Hup. subst pb up.
  simpl in Hkw.
  apply orb_false_elim in Hkw. destruct Hkw as [E1 Hkw].
  apply orb_false_elim in Hkw. destruct Hkw as [E2 Hkw].
  apply orb_false_elim in Hkw. destruct Hkw as [E3 Hkw].
  apply orb_false_elim in Hkw. destruct Hkw as [E4 Hkw].
  apply orb_false_elim in Hkw. destruct Hkw as [E5 Hkw].
  apply orb_false_elim in Hkw. destruct Hkw as [E6 Hkw].
  apply orb_false_elim in Hkw. destruct Hkw as [E7 Hkw].
  apply orb_false_elim in Hkw. destruct Hkw as [E8 Hkw].
  apply orb_false_elim in Hkw. destruct Hkw as [E9 _].
  apply String.eqb_neq in Hne.
  eexists. eexists. split; [|split; [|split]].
  - unfold Symbol_parse, Tokenizer.get_token, Tokenizer.shlex_get_token. simpl.
    unfold bind at 1. unfold Symbol_init at 1. unfold print at 1.
    unfold bind at 1. unfold ret at 1.
    unfold bind at 1. unfold Option.parse, Tokenizer.get_token,
      Tokenizer.shlex_get_token. simpl.
    rewrite E1, E2, E3, E4, E5, E6, E7, E8, E9, Hne. simpl. reflexivity.
  - reflexivity.
  - reflexivity.
  - simpl. apply lookup_dict_set_same.
Qed.

(** The lines [config A] and [endmenu]. *)
Lemma block_end_requeued_witness :
  exists tk' w',
    Symbol_parse 5
      (lexing "config" 1 [Tokenizer.mkRead "A" 2 (Some nl);
                          Tokenizer.mkRead "endmenu" 3 (Some nl)]) (parsed [])
      = Ret (Some ("A", tk')) w' /\
    Tokenizer.pushback (Tokenizer.lexer tk') = [nl; "endmenu"] /\
    supply tk' = [nl; "endmenu"] /\
    lookup "A" (all_symbols w') = Some (new_symbol "A" 2 "Kconfig").
Proof.
  refine (block_end_requeued 4
            (lexing "config" 1 [Tokenizer.mkRead "A" 2 (Some nl);
                                Tokenizer.mkRead "endmenu" 3 (Some nl)])
            "A" "endmenu" nl 2 3 [] (parsed []) eq_refl eq_refl eq_refl _).
  discriminate.
Defined.

(** ** What parsing a config block leaves alone *)

Section OptionFrame.
Variable R : World -> World -> Prop.
Variable sym : string.
Hypothesis R_refl : forall w, R w w.
Hypothesis R_trans : forall a b c, R a b -> R b c -> R a c.
Hypothesis R_print : forall line, keeps R (print line).
Hypothesis R_update : forall f, option_update f -> keeps R (modify_obj sym f).

Lemma frame_index (s : string) (i : nat) : keeps R (Option.index s i).
Proof.
  unfold Option.index. destruct (String.get i s);
    [apply (keeps_ret R R_refl) | apply (keeps_raise R R_refl)].
Qed.

Lemma frame_tk_error (tk : Tokenizer.t) (msg : string) :
  keeps R (Tokenizer.error tk msg).
Proof. apply R_print. Qed.

Lemma frame_parse_string (tk : Tokenizer.t) (s : string) :
  keeps R (Option.parse_string tk s).
Proof.
  unfold Option.parse_string.
  apply (keeps_bind R R_trans); [apply frame_index | intro c0].
  destruct (negb (Ascii.eqb c0 apostrophe) && negb (Ascii.eqb c0 quotation)).
  - apply (keeps_bind R R_trans);
      [apply frame_tk_error | intros _; apply (keeps_ret R R_refl)].
  - cbv zeta. apply (keeps_bind R R_trans); [apply frame_index | intro c1].
    destruct (negb (Ascii.eqb c1 apostrophe) && negb (Ascii.eqb c1 quotation)).
    + apply (keeps_bind R R_trans);
        [apply frame_tk_error | intros _; apply (keeps_ret R R_refl)].
    + apply (keeps_ret R R_refl).
Qed.

Lemma frame_parse_type (tk : Tokenizer.t) (t : string) :
  keeps R (Option.parse_type tk t sym).
Proof.
  unfold Option.parse_type. destruct (Tokenizer.get_token tk) as [tok tk1].
  apply (keeps_bind R R_trans); [apply frame_index | intro c].
  destruct (Ascii.eqb c apostrophe || Ascii.eqb c quotation);
    [|apply (keeps_ret R R_refl)].
  apply (keeps_bind R R_trans); [apply frame_parse_string | intro r].
  apply (keeps_bind R R_trans); [|intros _; apply (keeps_ret R R_refl)].
  apply R_update. intro s. repeat split.
Qed.

Lemma frame_parse_select (tk : Tokenizer.t) : keeps R (Option.parse_select tk sym).
Proof.
  unfold Option.parse_select. destruct (Tokenizer.get_token tk) as [tok tk1].
  apply (keeps_bind R R_trans); [|intros _; apply (keeps_ret R R_refl)].
  apply R_update. intro s. repeat split.
Qed.

Lemma frame_parse_depends_on (tk : Tokenizer.t) :
  keeps R (Option.parse_depends_on tk sym).
Proof.
  unfold Option.parse_depends_on. destruct (Tokenizer.get_token tk) as [tok tk1].
  destruct (String.eqb tok "on").
  - destruct (Tokenizer.get_token tk1) as [dep tk2].
    apply (keeps_bind R R_trans); [|intros _; apply (keeps_ret R R_refl)].
    apply R_update. intro s. repeat split.
  - apply (keeps_bind R R_trans);
      [apply frame_tk_error | intros _; apply (keeps_ret R R_refl)].
Qed.

Lemma frame_parse_default (tk : Tokenizer.t) :
  keeps R (Option.parse_default tk sym).
Proof.
  unfold Option.parse_default. destruct (Tokenizer.get_token tk) as [tok tk1].
  destruct (String.eqb tok "y"); [|destruct (String.eqb tok "n")].
  - apply (keeps_bind R R_trans); [|intros _; apply (keeps_ret R R_refl)].
    apply R_update. intro s. repeat split.
  - apply (keeps_bind R R_trans); [|intros _; apply (keeps_ret R R_refl)].
    apply R_update. intro s. repeat split.
  - apply (keeps_bind R R_trans);
      [apply frame_tk_error | intros _; apply (keeps_ret R R_refl)].
Qed.

Lemma frame_parse_prompt (tk : Tokenizer.t) :
  keeps R (Option.parse_prompt tk sym).
Proof.
  unfold Option.parse_prompt. destruct (Tokenizer.get_token tk) as [tok tk1].
  apply (keeps_bind R R_trans); [apply frame_parse_string | intro r].
  apply (keeps_bind R R_trans); [|intros _; apply (keeps_ret R R_refl)].
  apply R_update. intro s. repeat split.
Qed.

Lemma frame_parse (fuel : nat) (tk : Tokenizer.t) :
  keeps R (Option.parse fuel tk sym).
Proof.
  unfold Option.parse. destruct (Tokenizer.get_token tk) as [tok tk1].
  destruct (String.eqb tok "bool" || String.eqb tok "tristate"
            || String.eqb tok "string").
  { apply (keeps_bind R R_trans);
      [apply frame_parse_type | intro; apply (keeps_ret R R_refl)]. }
  destruct (String.eqb tok "select").
  { apply (keeps_bind R R_trans);
      [apply frame_parse_select | intro; apply (keeps_ret R R_refl)]. }
  destruct (String.eqb tok "depends").
  { apply (keeps_bind R R_trans);
      [apply frame_parse_depends_on | intro; apply (keeps_ret R R_refl)]. }
  destruct (String.eqb tok "default").
  { apply (keeps_bind R R_trans);
      [apply frame_parse_default | intro; apply (keeps_ret R R_refl)]. }
  destruct (String.eqb tok "prompt").
  { apply (keeps_bind R R_trans);
      [apply frame_parse_prompt | intro; apply (keeps_ret R R_refl)]. }
  destruct (String.eqb tok "help" || String.eqb tok "--help--").
  { destruct (Option.parse_help fuel tk1); apply (keeps_ret R R_refl). }
  destruct (String.eqb tok nl); apply (keeps_ret R R_refl).
Qed.

Lemma frame_options_loop (fuel : nat) :
  forall tk, keeps R (options_loop fuel tk sym).
Proof.
  induction fuel as [|fuel IH]; intro tk; simpl;
    destruct (String.eqb (Tokenizer.current_token tk) "config"
              || String.eqb (Tokenizer.current_token tk) "endmenu"
              || String.eqb (Tokenizer.current_token tk) EmptyString);
    try apply (keeps_ret R R_refl).
  apply (keeps_bind R R_trans); [apply frame_parse | intros [[v tk']|]];
    [|apply (keeps_ret R R_refl)].
  destruct (negb (truthy v)); [apply (keeps_ret R R_refl) | apply IH].
Qed.
End OptionFrame.

Lemma block_frame_refl (name : string) (w : World) : block_frame name w w.
Proof. repeat split; auto. Qed.

Lemma block_frame_trans (name : string) (a b c : World) :
  block_frame name a b -> block_frame name b c -> block_frame name a c.
Proof.
  intros (H1 & H2 & H3 & H4) (G1 & G2 & G3 & G4).
  repeat split; try congruence; auto.
  intros k Hk. now rewrite G1, H1.
Qed.

Lemma block_frame_print (name line : string) : keeps (block_frame name) (print line).
Proof. intro w. simpl. repeat split; auto. Qed.

Lemma block_frame_update (name : string) (f : Symbol -> Symbol) :
  option_update f -> keeps (block_frame name) (modify_obj name f).
Proof.
  intros Hf w. unfold modify_obj.
  destruct (lookup name (all_symbols w)) as [s|] eqn:Hs; simpl;
    [|apply block_frame_refl].
  repeat split; simpl.
  - intros k Hk. rewrite lookup_update.
    destruct (lookup k (all_symbols w)); simpl; [|reflexivity].
    destruct (String.eqb_spec name k); [congruence | reflexivity].
  - unfold selected. simpl. rewrite lookup_update, Hs. simpl.
    rewrite String.eqb_refl. now destruct (Hf s) as (-> & _).
Qed.

(** X23: parsing a config block touches one symbol.  Whatever the tokens,
    and whether [Symbol.parse] returns, raises or runs on, every symbol
    under another name is what it was, the symbol of the block is not
    selected, no file is written and the menu title is unchanged. *)
Theorem config_block_frame (fuel : nat) (tk : Tokenizer.t) (w : World) :
  let name := fst (Tokenizer.get_token tk) in
  let w' := world_of (Symbol_parse fuel tk w) in
  (forall k, k <> name -> lookup k (all_symbols w') = lookup k (all_symbols w)) /\
  selected w' name = false /\
  files w' = files w /\
  main_menu_name w' = main_menu_name w.
Proof.
  cbv zeta. unfold Symbol_parse.
  destruct (Tokenizer.get_token tk) as [name tk1]. simpl fst.
  set (w1 := with_stdout
               (stdout w ++ [(" | " ++ tab ++ "config '" ++ name ++ "' ")%string])
               (with_symbols
                  (dict_set name
                     (new_symbol name (Tokenizer.get_lineno tk1)
                                 (Tokenizer.get_file_name tk1))
                     (all_symbols w)) w)).
  assert (Hinit : Symbol_init tk1 name w = Ret tt w1) by reflexivity.
  rewrite (bind_Ret _ _ _ _ _ Hinit).
  assert (Hrest : keeps (block_frame name)
            (let (tok, tk2) := Tokenizer.get_token tk1 in
             (if negb (String.eqb tok nl)
              then Tokenizer.error tk2 "Unexpected token after config" ;;
                   raise AttributeError
              else ret tt) ;;
             options_loop fuel tk2 name)).
  { destruct (Tokenizer.get_token tk1) as [tok tk2].
    apply (keeps_bind _ (block_frame_trans name)).
    - destruct (negb (String.eqb tok nl)).
      + apply (keeps_bind _ (block_frame_trans name));
          [apply block_frame_print
          | intros _; apply (keeps_raise _ (block_frame_refl name))].
      + apply (keeps_ret _ (block_frame_refl name)).
    - intros _.
      apply (frame_options_loop (block_frame name) name (block_frame_refl name)
               (block_frame_trans name) (block_frame_print name)
               (block_frame_update name)). }
  destruct (Hrest w1) as (H1 & H2 & H3 & H4).
  repeat split.
  - intros k Hk. rewrite (H1 k Hk). unfold w1. simpl.
    now apply lookup_dict_set_other.
  - apply H2. unfold selected, w1. simpl. now rewrite lookup_dict_set_same.
  - rewrite H3. reflexivity.
  - rewrite H4. reflexivity.
Qed.
